(** * VizLearn knowledge-graph application: shallow embedding and properties

    The development follows the three TypeScript/JavaScript units that carry
    the behaviour of the application:

    - [App.tsx] (client): the working graph held in React state, the merge
      performed by [handleExpandNode] and the deletion performed by
      [handleDeleteNode];
    - [server/server.js]: the Express handlers, the LLM client
      ([generateGraph], [getEmbedding]) and the Neo4j gateway
      ([saveGraphToNeo4j], [GET /api/neo4j/all]);
    - [components/GraphCanvas3D.tsx]: construction of the node meshes and of
      the edge lines of the 3D scene.

    JavaScript numbers are represented by rationals.  The one computation
    on numbers whose result a property depends on, the scaling of
    [Math.random()] by the load endpoint, is rounded to binary64
    ([round64]); the products that place the meshes of the 3D view are
    left exact, and nothing is proved of their value. *)

From Stdlib Require Import QArith Qround Qpower Qabs Lia Lqa.
From stdpp Require Import gmap strings list fin_maps.

Close Scope Q_scope.
Local Open Scope string_scope.
Local Open Scope list_scope.

Definition number : Type := Q.

(** ** Arithmetic on binary64 numbers

    The finite numbers of JavaScript are the rationals [m * 2^k] with [m]
    an integer of at most 53 bits and [k >= -1074].  An arithmetic
    operation gives the exact result rounded to the nearest of them, ties
    to the one with an even [m]. *)

(** The exponent [e] with [2^e <= q < 2^(e+1)], for [q > 0]. *)
Definition binade (q : Q) : Z :=
  let e := (Z.log2 (Qnum q) - Z.log2 (Zpos (Qden q)))%Z in
  if Qle_bool ((2 # 1) ^ e) q then e else (e - 1)%Z.

(** The nearest integer, ties to even. *)
Definition roundHalfEven (q : Q) : Z :=
  let f := Qfloor q in
  match (q - inject_Z f ?= 1 # 2)%Q with
  | Lt => f
  | Gt => (f + 1)%Z
  | Eq => if Z.even f then f else (f + 1)%Z
  end.

(** The distance between the binary64 numbers next to [q]: 53 bits from
    the binade of [q], and from the exponent -1022 for the subnormal
    numbers. *)
Definition ulp (q : Q) : Q :=
  ((2 # 1) ^ (Z.max (binade (Qabs q)) (-1022) - 52))%Q.

(** Rounding to binary64.  (Beyond the largest finite number the result
    would be an infinity; every number rounded below is under 500.) *)
Definition round64 (q : Q) : Q :=
  if Qeq_bool q (0 # 1) then (0 # 1)%Q
  else (inject_Z (roundHalfEven (q / ulp q)) * ulp q)%Q.

(** ** Wire format (interfaces [NodeData], [Node], [Edge] of App.tsx) *)

Record NodeData : Type := { label : string }.

Record Position : Type := { x : number; y : number }.

Module Node.
Record t : Type := { id : string; data : NodeData; position : Position }.
End Node.

(** App.tsx declares [data] of an edge optional; the server prompt and its
    save path require it, and no client operation below reads it. *)
Module Edge.
Record t : Type :=
  { id : string; source : string; target : string; data : NodeData }.
End Edge.

(** The payload [{ nodes, edges }] exchanged with the backend. *)
Record GraphData : Type :=
  { nodes : list Node.t; edges : list Edge.t }.

Definition nodeIds (ns : list Node.t) : list string := Node.id <$> ns.
Definition edgeIds (es : list Edge.t) : list string := Edge.id <$> es.

(** Sample data for the concrete runs. *)
Definition origin : Position := {| x := (0 # 1)%Q; y := (0 # 1)%Q |}.

Definition mkNode (id lbl : string) : Node.t :=
  {| Node.id := id; Node.data := {| label := lbl |}; Node.position := origin |}.

Definition mkEdge (id src tgt lbl : string) : Edge.t :=
  {| Edge.id := id; Edge.source := src; Edge.target := tgt;
     Edge.data := {| label := lbl |} |}.

(** Every edge has both end points among the nodes. *)
Definition noDanglingEdges (g : GraphData) : Prop :=
  forall e, e ∈ edges g ->
    Edge.source e ∈ nodeIds (nodes g) ∧ Edge.target e ∈ nodeIds (nodes g).

(** * Client: App.tsx *)

Module App.

(** [updatedNodes] after the first [forEach] of [handleExpandNode]:
    the set [existingNodeIds] is built once, before the loop, from the
    current nodes and is not extended while the loop runs. *)
Definition mergeNodes (nodes newNodes : list Node.t) : list Node.t :=
  let existingNodeIds : gset string := list_to_set (nodeIds nodes) in
  fold_left
    (fun updatedNodes newNode =>
       if bool_decide (Node.id newNode ∈ existingNodeIds)
       then updatedNodes
       else updatedNodes ++ [newNode])
    newNodes nodes.

(** [updatedEdges] after the second [forEach] of [handleExpandNode]. *)
Definition mergeEdges (edges newEdges : list Edge.t) : list Edge.t :=
  let existingEdgeIds : gset string := list_to_set (edgeIds edges) in
  fold_left
    (fun updatedEdges newEdge =>
       if bool_decide (Edge.id newEdge ∈ existingEdgeIds)
       then updatedEdges
       else updatedEdges ++ [newEdge])
    newEdges edges.

(** The body of an [/api/expand] response as the client reads it: either
    array may be absent ([newNodes || []]). *)
Record ExpandResponse : Type :=
  { newNodes : option (list Node.t); newEdges : option (list Edge.t) }.

(** Lines 79-95 of [handleExpandNode]: the merge of a fragment into the
    working graph, before layout. *)
Definition merge (existing : GraphData) (response : ExpandResponse) : GraphData :=
  {| nodes := mergeNodes (nodes existing) (default [] (newNodes response));
     edges := mergeEdges (edges existing) (default [] (newEdges response)) |}.

Definition fragment (F : GraphData) : ExpandResponse :=
  {| newNodes := Some (nodes F); newEdges := Some (edges F) |}.

(** The React state of the [App] component. *)
Record State : Type :=
  { st_nodes : list Node.t;
    st_edges : list Edge.t;
    selectedNode : option Node.t;
    isLoading : bool;
    error : option string }.

Definition workingGraph (s : State) : GraphData :=
  {| nodes := st_nodes s; edges := st_edges s |}.

(** Outcome of the awaited [axios.post]. *)
Inductive AxiosResult (A : Type) : Type :=
| AxiosOk (data : A)
| AxiosError.
Arguments AxiosOk {A} data.
Arguments AxiosError {A}.

Inductive Direction : Type := TB | LR.

Section WithLayout.

(** [utils/layout] is imported by App.tsx and GraphCanvas3D.tsx; the
    handlers are parametric in it. *)
Variable getLayoutedElements :
  list Node.t -> list Edge.t -> Direction -> GraphData.

(** [handleExpandNode], from the state captured when it was called to the
    state after the request has settled. *)
Definition handleExpandNode
    (s : State) (response : AxiosResult ExpandResponse) : State :=
  match response with
  | AxiosOk data =>
      let updated := merge (workingGraph s) data in
      let layouted := getLayoutedElements (nodes updated) (edges updated) TB in
      {| st_nodes := nodes layouted;
         st_edges := edges layouted;
         selectedNode := selectedNode s;
         isLoading := false;
         error := None |}
  | AxiosError =>
      {| st_nodes := st_nodes s;
         st_edges := st_edges s;
         selectedNode := selectedNode s;
         isLoading := false;
         error := Some "Failed to expand node. Please try again." |}
  end.

End WithLayout.

(** [handleDeleteNode]: both state updates are functional updates on the
    previous state. *)
Definition handleDeleteNode (s : State) (nodeId : string) : State :=
  {| st_nodes := filter (fun n => Node.id n ≠ nodeId) (st_nodes s);
     st_edges :=
       filter (fun e => Edge.source e ≠ nodeId ∧ Edge.target e ≠ nodeId)
              (st_edges s);
     selectedNode := None;
     isLoading := isLoading s;
     error := error s |}.

End App.

(** * Server: server/server.js *)

Module Server.

(** ** The Neo4j store, as far as the statements issued by the server can
    observe it.  [MERGE (n:Concept {id: $id})] keeps one [Concept] per id, so
    the concepts are a finite map from the [id] property to the remaining
    properties.  A relationship records its two end nodes by their id and
    carries the properties [id] and [label]; [source] and [target] are
    properties that the load endpoint reads when present. *)

Record Concept : Type :=
  { c_label : string; c_embedding : list number }.

Record Relationship : Type :=
  { rel_start : string;
    rel_end : string;
    rel_id : string;
    rel_label : string;
    prop_source : option string;
    prop_target : option string }.

Record Neo4j : Type :=
  { concepts : gmap string Concept;
    relationships : list Relationship }.

Definition emptyDb : Neo4j := {| concepts := ∅; relationships := [] |}.

(** The three Cypher statements of the modelled handlers, with their
    parameters. *)
Inductive Cypher : Type :=
| MergeConcept (id label : string) (embedding : list number)
| MergeRelatesTo (sourceId targetId edgeId label : string)
| MatchAllConcepts.

(** [node.properties] of a returned [Concept]. *)
Record ConceptNode : Type := { n_id : string; n_label : string }.

(** One record of [RETURN n, r, m]. *)
Record Row : Type :=
  { row_n : ConceptNode;
    row_r : option Relationship;
    row_m : option ConceptNode }.

(** [MERGE (n:Concept {id}) ON CREATE SET ... ON MATCH SET ...]: both
    branches set the same two properties. *)
Definition mergeConcept
    (id label : string) (embedding : list number) (db : Neo4j) : Neo4j :=
  {| concepts :=
       <[id := {| c_label := label; c_embedding := embedding |}]> (concepts db);
     relationships := relationships db |}.

Definition sameRelationship
    (sourceId targetId edgeId label : string) (r : Relationship) : Prop :=
  rel_start r = sourceId ∧ rel_end r = targetId
  ∧ rel_id r = edgeId ∧ rel_label r = label.

#[global] Instance sameRelationship_dec s t e l r :
  Decision (sameRelationship s t e l r).
Proof. unfold sameRelationship. apply _. Defined.

(** [MATCH (a) MATCH (b) MERGE (a)-[r:RELATES_TO {id, label}]->(b)]: no row
    when an end node is missing; otherwise the relationship is created
    unless one with these ends and properties exists. *)
Definition mergeRelatesTo
    (sourceId targetId edgeId label : string) (db : Neo4j) : Neo4j :=
  match concepts db !! sourceId, concepts db !! targetId with
  | Some _, Some _ =>
      if bool_decide
           (Exists (sameRelationship sourceId targetId edgeId label)
                   (relationships db))
      then db
      else
        {| concepts := concepts db;
           relationships :=
             relationships db ++
               [{| rel_start := sourceId; rel_end := targetId;
                   rel_id := edgeId; rel_label := label;
                   prop_source := None; prop_target := None |}] |}
  | _, _ => db
  end.

Definition conceptNode (id : string) (c : Concept) : ConceptNode :=
  {| n_id := id; n_label := c_label c |}.

(** Rows for one [n]: one per outgoing relationship to a [Concept], or a
    single row with [r] and [m] null ([OPTIONAL MATCH]). *)
Definition rowsOf (db : Neo4j) (id : string) (c : Concept) : list Row :=
  let matched :=
    omap (fun r =>
            if bool_decide (rel_start r = id)
            then (fun m =>
                    {| row_n := conceptNode id c;
                       row_r := Some r;
                       row_m := Some (conceptNode (rel_end r) m) |})
                 <$> concepts db !! rel_end r
            else None)
         (relationships db) in
  match matched with
  | [] => [{| row_n := conceptNode id c; row_r := None; row_m := None |}]
  | _ => matched
  end.

(** [MATCH (n:Concept) OPTIONAL MATCH (n)-[r]->(m:Concept) RETURN n, r, m]. *)
Definition matchAllConcepts (db : Neo4j) : list Row :=
  mbind (fun '(id, c) => rowsOf db id c) (map_to_list (concepts db)).

Definition execute (q : Cypher) (db : Neo4j) : Neo4j * list Row :=
  match q with
  | MergeConcept id label embedding =>
      (mergeConcept id label embedding db, [])
  | MergeRelatesTo sourceId targetId edgeId label =>
      (mergeRelatesTo sourceId targetId edgeId label db, [])
  | MatchAllConcepts => (db, matchAllConcepts db)
  end.

(** ** Observable events and the environment *)

(** A prompt is the template literal of the handler with its holes filled;
    it is represented by the values that fill the holes. *)
Inductive Prompt : Type :=
| GeneratePrompt (topic : string)
| ExpandPrompt (fullGraph : GraphData) (selectedNode : Node.t).

Inductive Body : Type :=
| ErrorBody (error : string)
| GraphBody (graphData : GraphData).

Inductive Event : Type :=
| GenerateContent (prompt : Prompt)
| EmbedContent (text : string)
| SessionOpen
| SessionRun (q : Cypher)
| SessionClose
| ConsoleLog (message : string)
| ConsoleError (message : string)
| Respond (status : nat) (body : Body).

(** How an awaited promise of an external service settles; [Pending] is a
    promise that never settles. *)
Inductive Settled (A : Type) : Type :=
| Fulfilled (value : A)
| Rejected (message : string)
| Pending.
Arguments Fulfilled {A} value.
Arguments Rejected {A} message.
Arguments Pending {A}.

(** The services the server talks to.  Each answer may depend on everything
    that happened before ([list Event]).  [generateContent] gives
    [response.text()]; [sessionRun] tells whether the database accepts the
    statement and [sessionClose] whether the session closes.  [JSON_parse]
    is [JSON.parse] restricted to the wire format: [None] stands for the
    [SyntaxError]; a text that is the JSON of something else than a graph
    of the wire format (of [null], say) is not represented. *)
Record Env : Type :=
  { generateContent : list Event -> Prompt -> Settled string;
    JSON_parse : string -> option GraphData;
    embedContent : list Event -> string -> Settled (list number);
    sessionRun : list Event -> Cypher -> Settled unit;
    sessionClose : list Event -> Settled unit;
    Math_random : nat -> number }.

Record State : Type :=
  { log : list Event;
    db : Neo4j;
    randomCalls : nat }.

Definition initialState : State :=
  {| log := []; db := emptyDb; randomCalls := 0 |}.

(** ** Control flow: sequencing, exceptions, promises that never settle *)

Inductive Outcome (A : Type) : Type :=
| Returned (value : A)
| Threw (message : string)
| Stuck.
Arguments Returned {A} value.
Arguments Threw {A} message.
Arguments Stuck {A}.

Definition M (A : Type) : Type := Env -> State -> Outcome A * State.

Definition ret {A} (a : A) : M A := fun _ s => (Returned a, s).

Definition bind {A B} (m : M A) (k : A -> M B) : M B :=
  fun env s =>
    match m env s with
    | (Returned a, s') => k a env s'
    | (Threw e, s') => (Threw e, s')
    | (Stuck, s') => (Stuck, s')
    end.

Definition throw {A} (message : string) : M A := fun _ s => (Threw message, s).

Definition try_catch {A} (body : M A) (handler : string -> M A) : M A :=
  fun env s =>
    match body env s with
    | (Threw e, s') => handler e env s'
    | r => r
    end.

(** [finally] runs once the body has returned or thrown, and the outcome of
    the body is kept. *)
Definition try_finally {A} (body : M A) (final : M unit) : M A :=
  fun env s =>
    match body env s with
    | (Stuck, s') => (Stuck, s')
    | (o, s') =>
        match final env s' with
        | (Returned _, s'') => (o, s'')
        | (Threw e, s'') => (Threw e, s'')
        | (Stuck, s'') => (Stuck, s'')
        end
    end.

Declare Scope js_scope.
Delimit Scope js_scope with js.
Notation "'let!' x ':=' m 'in' k" :=
  (bind m (fun x => k))
  (at level 10, x name, m at level 100, k at level 200) : js_scope.
Notation "m '>>' k" :=
  (bind m (fun _ => k))
  (at level 100, k at level 200, right associativity) : js_scope.
Local Open Scope js_scope.

Fixpoint forEach {A} (l : list A) (f : A -> M unit) : M unit :=
  match l with
  | [] => ret tt
  | a :: l' => f a >> forEach l' f
  end.

Definition emit (ev : Event) : M unit :=
  fun _ s =>
    (Returned tt,
     {| log := log s ++ [ev]; db := db s; randomCalls := randomCalls s |}).

Definition settle {A} (r : Settled A) : M A :=
  match r with
  | Fulfilled a => ret a
  | Rejected e => throw e
  | Pending => fun _ s => (Stuck, s)
  end.

(** [await model.generateContent(prompt)] followed by [response.text()]. *)
Definition await_generateContent (prompt : Prompt) : M string :=
  fun env s =>
    (emit (GenerateContent prompt) >>
     settle (generateContent env (log s) prompt)) env s.

(** [await model.embedContent(...)], giving [result.embedding.values]. *)
Definition await_embedContent (text : string) : M (list number) :=
  fun env s =>
    (emit (EmbedContent text) >>
     settle (embedContent env (log s) text)) env s.

(** [await session.run(q, params)]: the statement takes effect when the
    promise is fulfilled. *)
Definition session_run (q : Cypher) : M (list Row) :=
  fun env s =>
    (emit (SessionRun q) >>
     settle (sessionRun env (log s) q) >>
     fun _ s' =>
       let '(db', rows) := execute q (db s') in
       (Returned rows,
        {| log := log s'; db := db'; randomCalls := randomCalls s' |})) env s.

(** [await session.close()]. *)
Definition session_close : M unit :=
  fun env s =>
    (emit SessionClose >> settle (sessionClose env (log s))) env s.

Definition random : M number :=
  fun env s =>
    (Returned (Math_random env (randomCalls s)),
     {| log := log s; db := db s; randomCalls := S (randomCalls s) |}).

Definition respond (status : nat) (body : Body) : M unit :=
  emit (Respond status body).

(** ** generateGraph, getEmbedding, saveGraphToNeo4j *)

Definition generateGraph (prompt : Prompt) : M GraphData :=
  try_catch
    (let! text := await_generateContent prompt in
     fun env =>
       match JSON_parse env text with
       | Some graphData => ret graphData env
       | None => throw "SyntaxError" env
       end)
    (fun error =>
       emit (ConsoleError "Error generating graph:") >>
       throw "Failed to generate graph from API.").

Definition getEmbedding (text : string) : M (list number) :=
  try_catch
    (await_embedContent text)
    (fun error =>
       emit (ConsoleError "Error generating embedding:") >>
       ret []).

Definition saveNode (node : Node.t) : M unit :=
  let! embedding := getEmbedding (label (Node.data node)) in
  session_run
    (MergeConcept (Node.id node) (label (Node.data node)) embedding) >>
  ret tt.

Definition saveEdge (edge : Edge.t) : M unit :=
  session_run
    (MergeRelatesTo (Edge.source edge) (Edge.target edge)
                    (Edge.id edge) (label (Edge.data edge))) >>
  ret tt.

Definition saveGraphToNeo4j (nodes : list Node.t) (edges : list Edge.t) : M unit :=
  emit SessionOpen >>
  try_finally
    (try_catch
       (forEach nodes saveNode >>
        forEach edges saveEdge >>
        emit (ConsoleLog "Graph data saved to Neo4j."))
       (fun error => emit (ConsoleError "Error saving graph to Neo4j:")))
    session_close.

(** ** Request handlers *)

(** [!v] for a request field that is absent or a string. *)
Definition falsy (v : option string) : bool :=
  match v with
  | None => true
  | Some s => bool_decide (s = "")
  end.

(** [app.post('/api/generate')], on [req.body.topic]. *)
Definition post_generate (topic : option string) : M unit :=
  if falsy topic then respond 400 (ErrorBody "Topic is required")
  else
    try_catch
      (let! graphData := generateGraph (GeneratePrompt (default "" topic)) in
       saveGraphToNeo4j (nodes graphData) (edges graphData) >>
       respond 200 (GraphBody graphData))
      (fun error => respond 500 (ErrorBody error)).

(** [app.post('/api/expand')], on [req.body.fullGraph] and
    [req.body.selectedNodeId]; a [fullGraph] that is present is a graph of
    the wire format, and the id is a string.  The handler on an arbitrary
    JSON body is [Wire.post_expand_json] below. *)
Definition post_expand
    (fullGraph : option GraphData) (selectedNodeId : option string) : M unit :=
  match fullGraph with
  | Some fullGraph =>
      if falsy selectedNodeId
      then respond 400 (ErrorBody "Full graph and selected node ID are required")
      else
        match
          List.find
            (fun n => bool_decide (Node.id n = default "" selectedNodeId))
            (nodes fullGraph)
        with
        | None =>
            respond 404 (ErrorBody "Selected node not found in the graph")
        | Some selectedNode =>
            try_catch
              (let! graphData :=
                 generateGraph (ExpandPrompt fullGraph selectedNode) in
               saveGraphToNeo4j (nodes graphData) (edges graphData) >>
               respond 200 (GraphBody graphData))
              (fun error => respond 500 (ErrorBody error))
        end
  | None =>
      respond 400 (ErrorBody "Full graph and selected node ID are required")
  end.

(** [a || b] on an optional string property. *)
Definition orElse (a : option string) (b : string) : string :=
  if falsy a then b else default b a.

(** The node object built from [record.get('n')] and two draws of
    [Math.random()]. *)
Definition loadedNode (node : ConceptNode) (rx ry : number) : Node.t :=
  {| Node.id := n_id node;
     Node.data := {| label := n_label node |};
     Node.position :=
       {| x := round64 (Qmult rx (500 # 1)%Q);
          y := round64 (Qmult ry (500 # 1)%Q) |} |}.

(** The edge object built from [n], [r] and [m] of one record. *)
Definition loadedEdge
    (node : ConceptNode) (relationship : Relationship)
    (targetNode : ConceptNode) : Edge.t :=
  {| Edge.id := rel_id relationship;
     Edge.source := orElse (prop_source relationship) (n_id node);
     Edge.target := orElse (prop_target relationship) (n_id targetNode);
     Edge.data := {| label := rel_label relationship |} |}.

(** [o[key] = value] on an object [o] created by [{}], for a [value] that
    is an object; [o] is given by its own properties.  The assignment
    creates or overwrites the own property [key], except for the key
    [__proto__]: [Object.prototype] defines it as an accessor, so the
    assignment replaces the prototype of [o] and its own properties stay as
    they are. *)
Definition setProperty {A} (key : string) (value : A) (o : gmap string A)
    : gmap string A :=
  if bool_decide (key = "__proto__") then o else <[key := value]> o.

(** The body of [result.records.forEach] in [app.get('/api/neo4j/all')],
    on the own properties of the two objects [nodes] and [edges]. *)
Definition loadRecord
    (acc : gmap string Node.t * gmap string Edge.t) (record : Row)
    : M (gmap string Node.t * gmap string Edge.t) :=
  let '(nodes, edges) := acc in
  let node := row_n record in
  let! rx := random in
  let! ry := random in
  let nodes := setProperty (n_id node) (loadedNode node rx ry) nodes in
  match row_r record, row_m record with
  | Some relationship, Some targetNode =>
      ret (nodes,
           setProperty (rel_id relationship)
             (loadedEdge node relationship targetNode) edges)
  | _, _ => ret (nodes, edges)
  end.

Fixpoint loadRecords
    (records : list Row) (acc : gmap string Node.t * gmap string Edge.t)
    : M (gmap string Node.t * gmap string Edge.t) :=
  match records with
  | [] => ret acc
  | record :: rest =>
      let! acc' := loadRecord acc record in
      loadRecords rest acc'
  end.

(** [Object.values(o)]: the values of the own properties of [o].  Their
    order (index keys first, then creation order) is not modelled: what is
    proved of the list does not depend on it. *)
Definition Object_values {A} (o : gmap string A) : list A :=
  (map_to_list o).*2.

(** [app.get('/api/neo4j/all')]. *)
Definition get_neo4j_all : M unit :=
  emit SessionOpen >>
  try_finally
    (try_catch
       (let! records := session_run MatchAllConcepts in
        let! acc := loadRecords records (∅, ∅) in
        respond 200
          (GraphBody {| nodes := Object_values acc.1;
                        edges := Object_values acc.2 |}))
       (fun error =>
          emit (ConsoleError "Error fetching all graph data from Neo4j:") >>
          respond 500 (ErrorBody "Failed to fetch all graph data from Neo4j.")))
    session_close.

(** ** Requests and reachable states *)

Definition appendLog (s : State) (events : list Event) : State :=
  {| log := log s ++ events; db := db s; randomCalls := randomCalls s |}.

Inductive Request : Type :=
| PostGenerate (topic : option string)
| PostExpand (fullGraph : option GraphData) (selectedNodeId : option string)
| GetNeo4jAll.

Definition handle (request : Request) : M unit :=
  match request with
  | PostGenerate topic => post_generate topic
  | PostExpand fullGraph selectedNodeId => post_expand fullGraph selectedNodeId
  | GetNeo4jAll => get_neo4j_all
  end.

(** The prompt a request sends to the LLM once it has passed the checks at
    the head of its handler. *)
Definition promptOf (request : Request) : option Prompt :=
  match request with
  | PostGenerate topic =>
      if falsy topic then None else Some (GeneratePrompt (default "" topic))
  | PostExpand (Some fullGraph) selectedNodeId =>
      if falsy selectedNodeId then None
      else
        ExpandPrompt fullGraph
          <$> List.find
                (fun n => bool_decide (Node.id n = default "" selectedNodeId))
                (nodes fullGraph)
  | _ => None
  end.

(** States of a server started on an empty database that has served
    requests one after the other, whatever the services answered. *)
Inductive reachable : State -> Prop :=
| reachable_initial : reachable initialState
| reachable_request s env request outcome s' :
    reachable s ->
    handle request env s = (outcome, s') ->
    reachable s'.

(** The [try]/[catch] block that the two POST handlers share verbatim. *)
Definition generateAndRespond (prompt : Prompt) : M unit :=
  try_catch
    (let! graphData := generateGraph prompt in
     saveGraphToNeo4j (nodes graphData) (edges graphData) >>
     respond 200 (GraphBody graphData))
    (fun error => respond 500 (ErrorBody error)).

(** The database settles every statement, by accepting or rejecting it. *)
Definition dbSettles (env : Env) : Prop :=
  forall l q, sessionRun env l q ≠ Pending.

(** The database accepts every statement. *)
Definition dbAccepts (env : Env) : Prop :=
  forall l q, sessionRun env l q = Fulfilled tt.

(** Sessions close without error. *)
Definition sessionCloses (env : Env) : Prop :=
  forall l, sessionClose env l = Fulfilled tt.

(** The embedding service settles every call. *)
Definition embeddingSettles (env : Env) : Prop :=
  forall l text, embedContent env l text ≠ Pending.

(** The embedding service rejects every call for [text]. *)
Definition embeddingFails (env : Env) (text : string) : Prop :=
  forall l, exists message, embedContent env l text = Rejected message.

(** The embedding that [getEmbedding] hands to the upsert, given the answer
    of the embedding service. *)
Definition embeddingOr (answer : Settled (list number)) : list number :=
  match answer with
  | Fulfilled values => values
  | _ => []
  end.

(** The store after the node upserts of a save, given the embedding that
    each node was upserted with. *)
Definition upsertNodes
    (upserts : list (Node.t * list number)) (d : Neo4j) : Neo4j :=
  fold_left
    (fun d '(node, embedding) =>
       mergeConcept (Node.id node) (label (Node.data node)) embedding d)
    upserts d.

Definition edgeStatement (edge : Edge.t) : Cypher :=
  MergeRelatesTo (Edge.source edge) (Edge.target edge)
                 (Edge.id edge) (label (Edge.data edge)).

Definition upsertEdges (es : list Edge.t) (d : Neo4j) : Neo4j :=
  fold_left (fun d edge => (execute (edgeStatement edge) d).1) es d.

(** A computation that cannot be left waiting on a promise. *)
Definition settlesOn {A} (env : Env) (m : M A) : Prop :=
  forall s, (m env s).1 ≠ Stuck.

(** The store satisfies [I] after the computation whenever it did before. *)
Definition preservesDb {A} (I : Neo4j -> Prop) (m : M A) : Prop :=
  forall env s, I (db s) -> I (db (m env s).2).

(** No relationship carries a [source] or [target] property. *)
Definition plainRelationships (d : Neo4j) : Prop :=
  forall r, r ∈ relationships d -> prop_source r = None ∧ prop_target r = None.

(** ** Sample environments *)

Definition sampleFragment : GraphData :=
  {| nodes := [mkNode "1" "Photosynthesis"; mkNode "2" "Chlorophyll"];
     edges := [mkEdge "e1" "1" "2" "uses"] |}.

(** All services answer; the LLM text [fragment] stands for the JSON
    encoding of [sampleFragment]. *)
Definition sampleEnv : Env :=
  {| generateContent := fun _ _ => Fulfilled "fragment";
     JSON_parse :=
       fun text =>
         if bool_decide (text = "fragment") then Some sampleFragment else None;
     embedContent := fun _ _ => Fulfilled [(1 # 2)%Q; (1 # 4)%Q];
     sessionRun := fun _ _ => Fulfilled tt;
     sessionClose := fun _ => Fulfilled tt;
     Math_random := fun _ => (1 # 2)%Q |}.

(** The LLM answers with prose instead of JSON. *)
Definition proseEnv : Env :=
  {| generateContent := fun _ _ => Fulfilled "Sure! Here is your graph:";
     JSON_parse := JSON_parse sampleEnv;
     embedContent := embedContent sampleEnv;
     sessionRun := sessionRun sampleEnv;
     sessionClose := sessionClose sampleEnv;
     Math_random := Math_random sampleEnv |}.

(** The embedding model rejects the label [Chlorophyll]. *)
Definition noEmbeddingEnv : Env :=
  {| generateContent := generateContent sampleEnv;
     JSON_parse := JSON_parse sampleEnv;
     embedContent :=
       fun l text =>
         if bool_decide (text = "Chlorophyll") then Rejected "quota exceeded"
         else embedContent sampleEnv l text;
     sessionRun := sessionRun sampleEnv;
     sessionClose := sessionClose sampleEnv;
     Math_random := Math_random sampleEnv |}.

(** The database never answers. *)
Definition hangingDbEnv : Env :=
  {| generateContent := generateContent sampleEnv;
     JSON_parse := JSON_parse sampleEnv;
     embedContent := embedContent sampleEnv;
     sessionRun := fun _ _ => Pending;
     sessionClose := sessionClose sampleEnv;
     Math_random := Math_random sampleEnv |}.

(** The database rejects every statement. *)
Definition failingDbEnv : Env :=
  {| generateContent := generateContent sampleEnv;
     JSON_parse := JSON_parse sampleEnv;
     embedContent := embedContent sampleEnv;
     sessionRun := fun _ _ => Rejected "ServiceUnavailable";
     sessionClose := sessionClose sampleEnv;
     Math_random := Math_random sampleEnv |}.

(** The LLM answers with a graph in which a node has the id [__proto__]. *)
Definition protoFragment : GraphData :=
  {| nodes := [mkNode "1" "Object"; mkNode "__proto__" "Prototype"];
     edges := [mkEdge "e1" "1" "__proto__" "inherits from"] |}.

Definition protoEnv : Env :=
  {| generateContent := generateContent sampleEnv;
     JSON_parse :=
       fun text =>
         if bool_decide (text = "fragment") then Some protoFragment else None;
     embedContent := embedContent sampleEnv;
     sessionRun := sessionRun sampleEnv;
     sessionClose := sessionClose sampleEnv;
     Math_random := Math_random sampleEnv |}.

(** [Math.random()] gives the largest binary64 number below 1. *)
Definition largestRandomEnv : Env :=
  {| generateContent := generateContent sampleEnv;
     JSON_parse := JSON_parse sampleEnv;
     embedContent := embedContent sampleEnv;
     sessionRun := sessionRun sampleEnv;
     sessionClose := sessionClose sampleEnv;
     Math_random := fun _ => (9007199254740991 # 9007199254740992)%Q |}.

(** A store in which a relationship carries a [target] property that is
    the id of no concept. *)
Definition retargetedDb : Neo4j :=
  {| concepts :=
       <["1" := {| c_label := "Photosynthesis"; c_embedding := [] |}]>
         (<["2" := {| c_label := "Chlorophyll"; c_embedding := [] |}]> ∅);
     relationships :=
       [{| rel_start := "1"; rel_end := "2"; rel_id := "e1";
           rel_label := "uses";
           prop_source := None; prop_target := Some "3" |}] |}.

End Server.

(** * 3D view: components/GraphCanvas3D.tsx *)

Module GraphCanvas3D.

Record Vector3 : Type := { vx : number; vy : number; vz : number }.

(** A node sphere: its position and [userData.nodeId]. *)
Record Mesh : Type := { position : Vector3; nodeId : string }.

(** The objects the effect adds for the graph.  Lights, camera, controls and
    listeners are set up independently of the graph and are left out. *)
Inductive GroupChild : Type :=
| NodeMesh (mesh : Mesh)
| NodeLabel (textContent : string) (position : Vector3).

Inductive Object3D : Type :=
| Line (points : list Vector3)
| Group (children : list GroupChild).

(** The mesh created for one layouted node (scaled by 0.8, z = 0). *)
Definition nodeMesh (node : Node.t) : Mesh :=
  {| position :=
       {| vx := Qmult (x (Node.position node)) (8 # 10)%Q;
          vy := Qmult (y (Node.position node)) (8 # 10)%Q;
          vz := (0 # 1)%Q |};
     nodeId := Node.id node |}.

Definition nodeLabel (node : Node.t) : GroupChild :=
  let p := position (nodeMesh node) in
  NodeLabel (label (Node.data node))
            {| vx := vx p; vy := Qplus (vy p) (20 # 1)%Q; vz := vz p |}.

(** [layoutedNodes.forEach]: the array [nodeMeshes] and the children of
    [nodeGroup]. *)
Definition createNodes (layoutedNodes : list Node.t)
    : list Mesh * list GroupChild :=
  fold_left
    (fun '(nodeMeshes, nodeGroup) node =>
       (nodeMeshes ++ [nodeMesh node],
        nodeGroup ++ [NodeMesh (nodeMesh node); nodeLabel node]))
    layoutedNodes ([], []).

(** [nodeMeshes.find(mesh => mesh.userData.nodeId === id)]; [None] is
    [undefined]. *)
Definition findMesh (nodeMeshes : list Mesh) (id : string) : option Mesh :=
  List.find (fun mesh => bool_decide (nodeId mesh = id)) nodeMeshes.

(** Reading [.position] of the result of [find]: on [undefined] the read
    throws a [TypeError], rendered as [None]. *)
Definition positionOf (mesh : option Mesh) : option Vector3 :=
  position <$> mesh.

(** The body of [edges.forEach]; [None] is an exception escaping the
    effect. *)
Definition createEdge
    (nodeMeshes : list Mesh) (scene : list Object3D) (edge : Edge.t)
    : option (list Object3D) :=
  let sourceNodeMesh := findMesh nodeMeshes (Edge.source edge) in
  let targetNodeMesh := findMesh nodeMeshes (Edge.target edge) in
  if bool_decide (is_Some sourceNodeMesh) && bool_decide (is_Some targetNodeMesh)
  then
    p1 ← positionOf sourceNodeMesh;
    p2 ← positionOf targetNodeMesh;
    Some (scene ++ [Line [p1; p2]])
  else Some scene.

Fixpoint createEdges
    (nodeMeshes : list Mesh) (scene : list Object3D) (edges : list Edge.t)
    : option (list Object3D) :=
  match edges with
  | [] => Some scene
  | edge :: rest =>
      scene' ← createEdge nodeMeshes scene edge;
      createEdges nodeMeshes scene' rest
  end.

(** What one edge contributes to the scene: a line between the two meshes
    when both exist, nothing otherwise. *)
Definition edgeLine (nodeMeshes : list Mesh) (edge : Edge.t) : list Object3D :=
  match findMesh nodeMeshes (Edge.source edge),
        findMesh nodeMeshes (Edge.target edge) with
  | Some sourceNodeMesh, Some targetNodeMesh =>
      [Line [position sourceNodeMesh; position targetNodeMesh]]
  | _, _ => []
  end.

(** The layout used by the sample run: nodes keep their positions. *)
Definition keepPositions
    (ns : list Node.t) (es : list Edge.t) (_ : App.Direction) : GraphData :=
  {| nodes := ns; edges := es |}.

Section WithLayout.

Variable getLayoutedElements :
  list Node.t -> list Edge.t -> App.Direction -> GraphData.

(** The graph-dependent part of the effect: the children of [scene]. *)
Definition render (props_nodes : list Node.t) (props_edges : list Edge.t)
    : option (list Object3D) :=
  let layoutedNodes :=
    nodes (getLayoutedElements props_nodes props_edges App.LR) in
  let '(nodeMeshes, nodeGroup) := createNodes layoutedNodes in
  createEdges nodeMeshes [Group nodeGroup] props_edges.

End WithLayout.

End GraphCanvas3D.

(** * Further handlers of the client and of the server *)

(** ** App.tsx: the remaining handlers *)

Module AppHandlers.

Import App.

Section WithLayout.

Variable getLayoutedElements :
  list Node.t -> list Edge.t -> Direction -> GraphData.

(** [handleTopicSubmit], from the state in which it is called to the state
    after the request has settled; the body of the response has the shape
    read by [handleExpandNode] ([response.data.nodes || []]). *)
Definition handleTopicSubmit
    (s : State) (response : AxiosResult ExpandResponse) : State :=
  match response with
  | AxiosOk data =>
      let layouted :=
        getLayoutedElements (default [] (newNodes data))
                            (default [] (newEdges data)) TB in
      {| st_nodes := nodes layouted;
         st_edges := edges layouted;
         selectedNode := None;
         isLoading := false;
         error := None |}
  | AxiosError =>
      {| st_nodes := st_nodes s;
         st_edges := st_edges s;
         selectedNode := None;
         isLoading := false;
         error := Some "Failed to generate graph. Please try again." |}
  end.

(** [handleLoadGraphFromNeo4j]. *)
Definition handleLoadGraphFromNeo4j
    (s : State) (loadedNodes : list Node.t) (loadedEdges : list Edge.t) : State :=
  let layouted := getLayoutedElements loadedNodes loadedEdges TB in
  {| st_nodes := nodes layouted;
     st_edges := edges layouted;
     selectedNode := None;
     isLoading := isLoading s;
     error := error s |}.

(** [handleNodeClick]. *)
Definition handleNodeClick (s : State) (node : Node.t) : State :=
  {| st_nodes := st_nodes s;
     st_edges := st_edges s;
     selectedNode := Some node;
     isLoading := isLoading s;
     error := error s |}.

(** What the user can do, one action at a time.  Expand and delete are the
    two buttons of [NodeDetailPanel], which is rendered for the selected
    node and passes [node.id]; a click comes from one of the two canvases
    and carries a node of the displayed graph or its layouted copy. *)
Inductive step : State -> State -> Prop :=
| step_submit s response :
    step s (handleTopicSubmit s response)
| step_expand s node response :
    selectedNode s = Some node ->
    step s (handleExpandNode getLayoutedElements s response)
| step_delete s node :
    selectedNode s = Some node ->
    step s (handleDeleteNode s (Node.id node))
| step_click s node :
    Node.id node ∈ nodeIds (st_nodes s) ->
    step s (handleNodeClick s node)
| step_load s loadedNodes loadedEdges :
    step s (handleLoadGraphFromNeo4j s loadedNodes loadedEdges).

(** The initial [useState] values. *)
Definition initial : State :=
  {| st_nodes := []; st_edges := []; selectedNode := None;
     isLoading := false; error := None |}.

Inductive reachable : State -> Prop :=
| reachable_initial : reachable initial
| reachable_step s s' : reachable s -> step s s' -> reachable s'.

(** The layout returns the nodes it was given, repositioned. *)
Definition keepsIds : Prop :=
  forall ns es direction,
    nodeIds (nodes (getLayoutedElements ns es direction)) = nodeIds ns.

End WithLayout.

End AppHandlers.

(** ** TopicInput.tsx *)

Module TopicInput.

Section WithTrim.

(** [String.prototype.trim]. *)
Variable trim : string -> string.

(** [handleSubmit] on the content of the input field: the argument of
    [onSubmit] when it is called. *)
Definition handleSubmit (topic : string) : option string :=
  if bool_decide (trim topic = "") then None else Some (trim topic).

End WithTrim.

(** A trim for the sample run: it removes the spaces at both ends. *)
Fixpoint trimStart (s : string) : string :=
  match s with
  | String c rest => if Ascii.eqb c Ascii.Space then trimStart rest else s
  | EmptyString => EmptyString
  end.

Fixpoint trimEnd (s : string) : string :=
  match s with
  | EmptyString => EmptyString
  | String c rest =>
      match trimEnd rest with
      | EmptyString =>
          if Ascii.eqb c Ascii.Space then EmptyString
          else String c EmptyString
      | rest' => String c rest'
      end
  end.

Definition trimSpaces (s : string) : string := trimEnd (trimStart s).

End TopicInput.

(** ** GraphCanvas3D.tsx: clicks on node spheres *)

Module Canvas3DClick.

Import GraphCanvas3D.

(** [nodeDataMap] after [layoutedNodes.forEach]: [set(node.id, node)]. *)
Definition nodeDataMap (layoutedNodes : list Node.t) : gmap string Node.t :=
  fold_left (fun m node => <[Node.id node := node]> m) layoutedNodes ∅.

(** [onCanvasClick], on the meshes hit by the ray, nearest first: the
    argument with which [onNodeClick] is called, if it is called. *)
Definition onCanvasClick
    (layoutedNodes : list Node.t) (intersects : list Mesh) : option Node.t :=
  match intersects with
  | [] => None
  | clickedMesh :: _ => nodeDataMap layoutedNodes !! nodeId clickedMesh
  end.

(** The [Line] objects of a scene. *)
Definition isLine (o : Object3D) : bool :=
  match o with
  | Line _ => true
  | Group _ => false
  end.

End Canvas3DClick.

(** ** server.js: semantic search *)

Module Search.

Import Server.
Local Open Scope js_scope.

(** One element of the JSON array returned by the endpoint. *)
Record SearchResult : Type :=
  { id : string; label : string; score : number }.

Inductive Response : Type :=
| Json (searchResults : list SearchResult)
| Error (status : nat) (error : string).

(** The vector index: the answer to
    [CALL db.index.vector.queryNodes('node_embeddings', $limit, $queryEmbedding)]
    after the events so far, as the records [id, label, score]. *)
Definition VectorIndex : Type :=
  list Event -> nat -> list number -> Settled (list SearchResult).

(** The [try]/[catch] of [app.post('/api/neo4j/search')]: the response that
    the handler sends. *)
Definition searchBody (queryNodes : VectorIndex) (query : string) : M Response :=
  try_catch
    (let! queryEmbedding := getEmbedding query in
     let! records :=
       (fun env s => settle (queryNodes (log s) 10 queryEmbedding) env s) in
     ret (Json records))
    (fun error =>
       emit (ConsoleError "Error performing semantic search in Neo4j:") >>
       ret (Error 500
              "Failed to perform semantic search in Neo4j. Ensure vector index is created.")).

(** [app.post('/api/neo4j/search')], on [req.body.query]: how the handler
    ends, the state it leaves, and the response it has sent, if any. *)
Definition post_neo4j_search
    (queryNodes : VectorIndex) (query : option string)
    : Env -> State -> Outcome unit * State * option Response :=
  fun env s =>
    if falsy query
    then (Returned tt, s, Some (Error 400 "Search query is required"))
    else
      match (emit SessionOpen >> searchBody queryNodes (default "" query)) env s with
      | (Returned response, s') => (session_close env s', Some response)
      | (Threw e, s') => (session_close env s', None)
      | (Stuck, s') => (Stuck, s', None)
      end.

(** A sample index holding the two labels of the sample fragment. *)
Definition sampleIndex : VectorIndex :=
  fun _ limit queryEmbedding =>
    match queryEmbedding with
    | [] => Rejected "Index query vector has 0 dimensions"
    | _ =>
        Fulfilled
          (take limit
             [{| id := "2"; label := "Chlorophyll"; score := (9 # 10)%Q |};
              {| id := "1"; label := "Photosynthesis"; score := (7 # 10)%Q |}])
    end.

End Search.

(** ** server.js: the POST handlers on the body that [express.json()] gives *)

Module Wire.

Import Server.
Local Open Scope js_scope.

(** A value built by [JSON.parse]; an object is given by its own
    properties, whose names are distinct. *)
Local Unset Elimination Schemes.
Inductive Json : Type :=
| JNull
| JBool (b : bool)
| JNumber (q : number)
| JString (s : string)
| JArray (items : list Json)
| JObject (properties : list (string * Json)).
Local Set Elimination Schemes.

(** [!!v]. *)
Definition truthy (v : Json) : bool :=
  match v with
  | JNull => false
  | JBool b => b
  | JNumber q => negb (Qeq_bool q (0 # 1)%Q)
  | JString s => negb (bool_decide (s = ""))
  | JArray _ | JObject _ => true
  end.

(** [v.name] on a value other than [null], for a name that no prototype
    defines ([nodes], [id] and the other names of the wire format): the own
    property of an object, and [undefined] ([None]) on an array, a string,
    a number or a boolean. *)
Definition property (name : string) (v : Json) : option Json :=
  match v with
  | JObject properties =>
      snd <$> List.find (fun p => bool_decide (p.1 = name)) properties
  | _ => None
  end.

(** [a === b] between two values of the body, [a] possibly [undefined];
    two objects or two arrays of the body are never the same object. *)
Definition strictEquals (a : option Json) (b : Json) : bool :=
  match a, b with
  | Some JNull, JNull => true
  | Some (JBool x), JBool y => bool_decide (x = y)
  | Some (JNumber x), JNumber y => Qeq_bool x y
  | Some (JString x), JString y => bool_decide (x = y)
  | _, _ => false
  end.

(** How an expression ends: with a value, or by throwing a [TypeError]. *)
Inductive Completion (A : Type) : Type :=
| Normal (a : A)
| TypeError.
Arguments Normal {A} a.
Arguments TypeError {A}.

(** [items.find(n => n.id === selectedNodeId)]: the elements are tried in
    order, and reading [id] of a [null] element throws. *)
Fixpoint findSelected (items : list Json) (selectedNodeId : Json)
    : Completion (option Json) :=
  match items with
  | [] => Normal None
  | JNull :: _ => TypeError
  | n :: rest =>
      if strictEquals (property "id" n) selectedNodeId then Normal (Some n)
      else findSelected rest selectedNodeId
  end.

(** [fullGraph.nodes.find(n => n.id === selectedNodeId)] for a truthy
    [fullGraph]: the call throws unless [fullGraph.nodes] is an array. *)
Definition lookupSelected (fullGraph selectedNodeId : Json)
    : Completion (option Json) :=
  match property "nodes" fullGraph with
  | Some (JArray items) => findSelected items selectedNodeId
  | _ => TypeError
  end.

Section WithTemplates.

(** The string that [${topic}] inserts into the prompt. *)
Variable interpolate : Json -> string.

(** The prompt of the expand handler for the two values that it inserts
    with [JSON.stringify]. *)
Variable expandPrompt : Json -> Json -> Prompt.

(** [app.post('/api/generate')], on [req.body.topic]; [None] is
    [undefined]. *)
Definition post_generate_json (topic : option Json) : M unit :=
  match topic with
  | Some topic =>
      if truthy topic
      then generateAndRespond (GeneratePrompt (interpolate topic))
      else respond 400 (ErrorBody "Topic is required")
  | None => respond 400 (ErrorBody "Topic is required")
  end.

(** [app.post('/api/expand')], on [req.body.fullGraph] and
    [req.body.selectedNodeId].  The lookup is outside the [try] block: its
    [TypeError] ends the handler before any response. *)
Definition post_expand_json (fullGraph selectedNodeId : option Json)
    : M unit :=
  match fullGraph, selectedNodeId with
  | Some fullGraph, Some selectedNodeId =>
      if truthy fullGraph && truthy selectedNodeId
      then
        match lookupSelected fullGraph selectedNodeId with
        | TypeError => throw "TypeError"
        | Normal None =>
            respond 404 (ErrorBody "Selected node not found in the graph")
        | Normal (Some selectedNode) =>
            generateAndRespond (expandPrompt fullGraph selectedNode)
        end
      else
        respond 400 (ErrorBody "Full graph and selected node ID are required")
  | _, _ =>
      respond 400 (ErrorBody "Full graph and selected node ID are required")
  end.

Inductive JsonRequest : Type :=
| JsonPostGenerate (topic : option Json)
| JsonPostExpand (fullGraph : option Json) (selectedNodeId : option Json)
| JsonGetNeo4jAll.

Definition handle_json (request : JsonRequest) : M unit :=
  match request with
  | JsonPostGenerate topic => post_generate_json topic
  | JsonPostExpand fullGraph selectedNodeId =>
      post_expand_json fullGraph selectedNodeId
  | JsonGetNeo4jAll => get_neo4j_all
  end.

End WithTemplates.


(** The bodies that the client sends: the JSON text of the wire format. *)
Definition ofNode (n : Node.t) : Json :=
  JObject
    [("id", JString (Node.id n));
     ("data", JObject [("label", JString (label (Node.data n)))]);
     ("position",
      JObject [("x", JNumber (x (Node.position n)));
               ("y", JNumber (y (Node.position n)))])].

Definition ofEdge (e : Edge.t) : Json :=
  JObject
    [("id", JString (Edge.id e));
     ("source", JString (Edge.source e));
     ("target", JString (Edge.target e));
     ("data", JObject [("label", JString (label (Edge.data e)))])].

Definition ofGraph (g : GraphData) : Json :=
  JObject
    [("nodes", JArray (ofNode <$> nodes g));
     ("edges", JArray (ofEdge <$> edges g))].

Definition ofRequest (request : Server.Request) : JsonRequest :=
  match request with
  | Server.PostGenerate topic => JsonPostGenerate (JString <$> topic)
  | Server.PostExpand fullGraph selectedNodeId =>
      JsonPostExpand (ofGraph <$> fullGraph) (JString <$> selectedNodeId)
  | Server.GetNeo4jAll => JsonGetNeo4jAll
  end.

(** Reading a body back as a graph of the wire format, with defaults for
    what is missing; used to name the prompts of the sample runs. *)
Definition asString (v : option Json) : string :=
  match v with
  | Some (JString s) => s
  | _ => ""
  end.

Definition asNumber (v : option Json) : number :=
  match v with
  | Some (JNumber q) => q
  | _ => (0 # 1)%Q
  end.

Definition asItems (v : option Json) : list Json :=
  match v with
  | Some (JArray items) => items
  | _ => []
  end.

Definition toNode (v : Json) : Node.t :=
  let data := default JNull (property "data" v) in
  let position := default JNull (property "position" v) in
  {| Node.id := asString (property "id" v);
     Node.data := {| label := asString (property "label" data) |};
     Node.position :=
       {| x := asNumber (property "x" position);
          y := asNumber (property "y" position) |} |}.

Definition toEdge (v : Json) : Edge.t :=
  let data := default JNull (property "data" v) in
  {| Edge.id := asString (property "id" v);
     Edge.source := asString (property "source" v);
     Edge.target := asString (property "target" v);
     Edge.data := {| label := asString (property "label" data) |} |}.

Definition toGraph (v : Json) : GraphData :=
  {| nodes := toNode <$> asItems (property "nodes" v);
     edges := toEdge <$> asItems (property "edges" v) |}.

Definition sampleInterpolate (topic : Json) : string := asString (Some topic).

Definition samplePrompt (fullGraph selectedNode : Json) : Prompt :=
  ExpandPrompt (toGraph fullGraph) (toNode selectedNode).

End Wire.

(** ** Counting events *)

Definition isRespond (ev : Server.Event) : bool :=
  match ev with
  | Server.Respond _ _ => true
  | _ => false
  end.

Definition isSessionOpen (ev : Server.Event) : bool :=
  match ev with
  | Server.SessionOpen => true
  | _ => false
  end.

Definition isSessionClose (ev : Server.Event) : bool :=
  match ev with
  | Server.SessionClose => true
  | _ => false
  end.

Definition isSessionRun (ev : Server.Event) : bool :=
  match ev with
  | Server.SessionRun _ => true
  | _ => false
  end.

(** Calls to the services and console output: everything but responses and
    the opening and closing of sessions. *)
Definition isCall (ev : Server.Event) : bool :=
  negb (isRespond ev || isSessionOpen ev || isSessionClose ev).

Definition count (f : Server.Event -> bool) (events : list Server.Event) : nat :=
  length (List.filter f events).

(** The computation appends events, all of them satisfying [f]. *)
Definition emitsOnly {A} (f : Server.Event -> bool) (m : Server.M A) : Prop :=
  forall env s,
    exists events,
      Server.log (m env s).2 = Server.log s ++ events
      ∧ Forall (fun ev => f ev = true) events.

(** The shapes of what one run of a handler appends to the log, with the
    way the run ends: waiting for the LLM; answered without a session;
    waiting inside a session; waiting for the session to close; answered
    after the session was closed; answered inside the session, which is
    closed afterwards. *)
Inductive Trace : Server.Outcome unit -> list Server.Event -> Prop :=
| trace_waiting calls :
    Forall (fun ev => isCall ev = true) calls ->
    Trace Server.Stuck calls
| trace_answered calls status body :
    Forall (fun ev => isCall ev = true) calls ->
    status ∈ [400; 404; 500] ->
    Trace (Server.Returned tt) (calls ++ [Server.Respond status body])
| trace_in_session calls inner :
    Forall (fun ev => isCall ev = true) calls ->
    Forall (fun ev => isCall ev = true) inner ->
    Trace Server.Stuck (calls ++ Server.SessionOpen :: inner)
| trace_closing calls inner :
    Forall (fun ev => isCall ev = true) calls ->
    Forall (fun ev => isCall ev = true) inner ->
    Trace Server.Stuck
      (calls ++ Server.SessionOpen :: inner ++ [Server.SessionClose])
| trace_saved_answered calls inner status body :
    Forall (fun ev => isCall ev = true) calls ->
    Forall (fun ev => isCall ev = true) inner ->
    status ∈ [200; 500] ->
    Trace (Server.Returned tt)
      (calls ++ Server.SessionOpen :: inner
         ++ [Server.SessionClose; Server.Respond status body])
| trace_answered_closed outcome inner status body :
    Forall (fun ev => isCall ev = true) inner ->
    status ∈ [200; 500] ->
    Trace outcome
      (Server.SessionOpen :: inner
         ++ [Server.Respond status body; Server.SessionClose]).

(** The relationship that the upsert of an edge creates. *)
Definition edgeRelationship (e : Edge.t) : Server.Relationship :=
  {| Server.rel_start := Edge.source e;
     Server.rel_end := Edge.target e;
     Server.rel_id := Edge.id e;
     Server.rel_label := label (Edge.data e);
     Server.prop_source := None;
     Server.prop_target := None |}.

(** Both ends of every relationship are stored concepts. *)
Definition endsStored (d : Server.Neo4j) : Prop :=
  forall r, r ∈ Server.relationships d ->
    is_Some (Server.concepts d !! Server.rel_start r)
    ∧ is_Some (Server.concepts d !! Server.rel_end r).

(** [Math.random()] gives a binary64 number in the interval from 0,
    included, to 1, excluded. *)
Definition randomInUnitInterval (env : Server.Env) : Prop :=
  forall k,
    (0 <= Server.Math_random env k)%Q ∧ (Server.Math_random env k < 1)%Q
    ∧ (round64 (Server.Math_random env k) == Server.Math_random env k)%Q.

(** The database rejects every statement. *)
Definition dbRejects (env : Server.Env) : Prop :=
  forall l q, exists message, Server.sessionRun env l q = Server.Rejected message.

(** What is left of a generation that does not give a graph: the LLM call
    is rejected, or its text is not JSON. *)
Definition generationFails
    (env : Server.Env) (l : list Server.Event) (prompt : Server.Prompt) : Prop :=
  match Server.generateContent env l prompt with
  | Server.Fulfilled text => Server.JSON_parse env text = None
  | Server.Rejected _ => True
  | Server.Pending => False
  end.

(** The graph that the load handler builds from the store, in a state [s]
    reached after the query has been answered. *)
Definition loadGraph (env : Server.Env) (s : Server.State) : GraphData :=
  match
    Server.loadRecords (Server.matchAllConcepts (Server.db s)) (∅, ∅) env s
  with
  | (Server.Returned acc, _) =>
      {| nodes := Server.Object_values acc.1;
         edges := Server.Object_values acc.2 |}
  | _ => {| nodes := []; edges := [] |}
  end.

(** The edge of the wire format that a relationship stands for. *)
Definition relationshipEdge (r : Server.Relationship) : Edge.t :=
  {| Edge.id := Server.rel_id r;
     Edge.source := Server.rel_start r;
     Edge.target := Server.rel_end r;
     Edge.data := {| label := Server.rel_label r |} |}.

(** * Properties of the client (App.tsx) *)

Section MergeLoop.

(** The shape shared by the two [forEach] loops of [handleExpandNode]: a
    fold that appends the elements whose key is not in a fixed set. *)
Context {A : Type} (key : A -> string).

Lemma push_unless_filter (existingIds : gset string) (additions updated : list A) :
  fold_left
    (fun acc a =>
       if bool_decide (key a ∈ existingIds) then acc else acc ++ [a])
    additions updated
  = updated ++ filter (fun a => key a ∉ existingIds) additions.
Proof.
  revert updated.
  induction additions as [|a additions IH]; intros updated; simpl.
  - by rewrite app_nil_r.
  - rewrite IH, filter_cons.
    case_bool_decide; destruct (decide (key a ∉ existingIds)); try done.
    by rewrite <- app_assoc.
Qed.

Lemma filter_by_list_to_set (existing additions : list A) :
  filter (fun a => key a ∉ (list_to_set (key <$> existing) : gset string))
         additions
  = filter (fun a => key a ∉ key <$> existing) additions.
Proof.
  apply list_filter_iff. intros a. by rewrite elem_of_list_to_set.
Qed.

(** A key already present in [existing] cannot occur among the additions
    that pass the test. *)
Lemma filter_fresh_keys (existing additions : list A) (a : A) :
  a ∈ filter (fun a => key a ∉ key <$> existing) additions ->
  key a ∉ key <$> existing.
Proof. rewrite list_elem_of_filter. tauto. Qed.

Lemma filter_fresh_all_present (existing additions : list A) :
  (forall a, a ∈ additions -> key a ∈ key <$> existing) ->
  filter (fun a => key a ∉ key <$> existing) additions = [].
Proof.
  intros Hall. induction additions as [|a additions IH]; [done|].
  rewrite filter_cons_False.
  - apply IH. intros b Hb. apply Hall. by right.
  - intros Hfresh. apply Hfresh, Hall. by left.
Qed.

Lemma NoDup_fmap_filter (P : A -> Prop) `{!forall a, Decision (P a)} (l : list A) :
  NoDup (key <$> l) -> NoDup (key <$> filter P l).
Proof.
  induction l as [|a l IH]; [done|].
  rewrite fmap_cons, NoDup_cons. intros [Hnotin Hnodup].
  rewrite filter_cons. destruct (decide (P a)); [|by apply IH].
  rewrite fmap_cons, NoDup_cons. split; [|by apply IH].
  intros Hin. apply Hnotin.
  apply list_elem_of_fmap in Hin as (b & -> & Hb).
  apply list_elem_of_fmap_2. by apply list_elem_of_filter in Hb as [_ ?].
Qed.

End MergeLoop.

Lemma mergeNodes_eq (existing additions : list Node.t) :
  App.mergeNodes existing additions
  = existing
      ++ filter (fun n => Node.id n ∉ nodeIds existing) additions.
Proof.
  unfold App.mergeNodes, nodeIds.
  by rewrite (push_unless_filter Node.id), filter_by_list_to_set.
Qed.

Lemma mergeEdges_eq (existing additions : list Edge.t) :
  App.mergeEdges existing additions
  = existing
      ++ filter (fun e => Edge.id e ∉ edgeIds existing) additions.
Proof.
  unfold App.mergeEdges, edgeIds.
  by rewrite (push_unless_filter Edge.id), filter_by_list_to_set.
Qed.

Lemma mergeNodes_again (existing additions : list Node.t) :
  App.mergeNodes (App.mergeNodes existing additions) additions
  = App.mergeNodes existing additions.
Proof.
  rewrite (mergeNodes_eq (App.mergeNodes _ _)).
  rewrite (filter_fresh_all_present Node.id); [by rewrite app_nil_r|].
  intros n Hn. rewrite mergeNodes_eq.
  destruct (decide (Node.id n ∈ nodeIds existing)) as [Hold|Hnew].
  - rewrite fmap_app, elem_of_app. by left.
  - apply list_elem_of_fmap_2, elem_of_app. right.
    by apply list_elem_of_filter.
Qed.

Lemma mergeEdges_again (existing additions : list Edge.t) :
  App.mergeEdges (App.mergeEdges existing additions) additions
  = App.mergeEdges existing additions.
Proof.
  rewrite (mergeEdges_eq (App.mergeEdges _ _)).
  rewrite (filter_fresh_all_present Edge.id); [by rewrite app_nil_r|].
  intros e He. rewrite mergeEdges_eq.
  destruct (decide (Edge.id e ∈ edgeIds existing)) as [Hold|Hnew].
  - rewrite fmap_app, elem_of_app. by left.
  - apply list_elem_of_fmap_2, elem_of_app. right.
    by apply list_elem_of_filter.
Qed.

Lemma mergeNodes_NoDup (existing additions : list Node.t) :
  NoDup (nodeIds existing) -> NoDup (nodeIds additions) ->
  NoDup (nodeIds (App.mergeNodes existing additions)).
Proof.
  intros HG HF. rewrite mergeNodes_eq. unfold nodeIds in *.
  rewrite fmap_app. apply NoDup_app. split; [done|]. split.
  - intros i Hi Hadd.
    apply list_elem_of_fmap in Hadd as (n & -> & Hn).
    by apply (filter_fresh_keys Node.id) in Hn.
  - by apply NoDup_fmap_filter.
Qed.

Lemma mergeEdges_NoDup (existing additions : list Edge.t) :
  NoDup (edgeIds existing) -> NoDup (edgeIds additions) ->
  NoDup (edgeIds (App.mergeEdges existing additions)).
Proof.
  intros HG HF. rewrite mergeEdges_eq. unfold edgeIds in *.
  rewrite fmap_app. apply NoDup_app. split; [done|]. split.
  - intros i Hi Hadd.
    apply list_elem_of_fmap in Hadd as (e & -> & He).
    by apply (filter_fresh_keys Edge.id) in He.
  - by apply NoDup_fmap_filter.
Qed.

Example merge_scenario_expand :
  App.merge
    {| nodes := [mkNode "1" "Photosynthesis"]; edges := [] |}
    (App.fragment
       {| nodes := [mkNode "2" "Chlorophyll"; mkNode "1" "Renamed"];
          edges := [mkEdge "e1" "1" "2" "uses"] |})
  = {| nodes := [mkNode "1" "Photosynthesis"; mkNode "2" "Chlorophyll"];
       edges := [mkEdge "e1" "1" "2" "uses"] |}.
Proof. vm_compute. reflexivity. Qed.

(** C1. Merge is first-write-wins deduplication by identifier: the merged
    node list is the existing list followed by exactly those nodes of the
    fragment whose id does not occur in the existing graph, so a node of the
    result whose id was already present is an existing node, label
    included; the same rule holds for edges. *)
Theorem merge_first_write_wins (G F : GraphData) :
  nodes (App.merge G (App.fragment F))
    = nodes G ++ filter (fun n => Node.id n ∉ nodeIds (nodes G)) (nodes F)
  ∧ edges (App.merge G (App.fragment F))
    = edges G ++ filter (fun e => Edge.id e ∉ edgeIds (edges G)) (edges F)
  ∧ (forall n, n ∈ nodes (App.merge G (App.fragment F)) ->
               Node.id n ∈ nodeIds (nodes G) -> n ∈ nodes G)
  ∧ (forall e, e ∈ edges (App.merge G (App.fragment F)) ->
               Edge.id e ∈ edgeIds (edges G) -> e ∈ edges G).
Proof.
  unfold App.merge, App.fragment; simpl.
  rewrite mergeNodes_eq, mergeEdges_eq. repeat split.
  - intros n [Hn|Hn]%elem_of_app Hid; [done|].
    by apply (filter_fresh_keys Node.id) in Hn.
  - intros e [He|He]%elem_of_app Hid; [done|].
    by apply (filter_fresh_keys Edge.id) in He.
Qed.

(** C2. Deleting node [d] keeps exactly the nodes whose id differs from [d]
    and exactly the edges whose source and target both differ from [d];
    what is kept is unchanged and in its original order. *)
Theorem delete_node_exact (s : App.State) (d : string) :
  (forall n, n ∈ App.st_nodes (App.handleDeleteNode s d)
             <-> n ∈ App.st_nodes s ∧ Node.id n ≠ d)
  ∧ (forall e, e ∈ App.st_edges (App.handleDeleteNode s d)
               <-> e ∈ App.st_edges s ∧ Edge.source e ≠ d ∧ Edge.target e ≠ d)
  ∧ App.st_nodes (App.handleDeleteNode s d) `sublist_of` App.st_nodes s
  ∧ App.st_edges (App.handleDeleteNode s d) `sublist_of` App.st_edges s.
Proof.
  simpl. split_and!.
  - intros n. rewrite list_elem_of_filter. tauto.
  - intros e. rewrite list_elem_of_filter. tauto.
  - apply sublist_filter.
  - apply sublist_filter.
Qed.

Example delete_scenario :
  let s := {| App.st_nodes := [mkNode "1" "a"; mkNode "2" "b"; mkNode "3" "c"];
              App.st_edges := [mkEdge "e1" "1" "2" "x"; mkEdge "e2" "2" "3" "y";
                               mkEdge "e3" "3" "1" "z"];
              App.selectedNode := Some (mkNode "2" "b");
              App.isLoading := false; App.error := None |} in
  App.workingGraph (App.handleDeleteNode s "2")
  = {| nodes := [mkNode "1" "a"; mkNode "3" "c"];
       edges := [mkEdge "e3" "3" "1" "z"] |}.
Proof. vm_compute. reflexivity. Qed.

(** C4 (as stated, refuted). A fragment that repeats an id absent from the
    graph is pushed twice, and duplicates already in the graph are kept. *)
Lemma merge_duplicate_ids :
  ¬ NoDup (nodeIds (nodes (App.merge
             {| nodes := []; edges := [] |}
             (App.fragment {| nodes := [mkNode "1" "a"; mkNode "1" "b"];
                              edges := [] |}))))
  ∧ ¬ NoDup (nodeIds (nodes (App.merge
             {| nodes := [mkNode "1" "a"; mkNode "1" "b"]; edges := [] |}
             (App.fragment {| nodes := []; edges := [] |}))))
  ∧ ¬ NoDup (edgeIds (edges (App.merge
             {| nodes := []; edges := [] |}
             (App.fragment {| nodes := [];
                              edges := [mkEdge "e" "1" "2" "x";
                                        mkEdge "e" "2" "1" "y"] |})))).
Proof.
  repeat split; vm_compute; intros H;
    apply NoDup_cons in H as [Hin _]; apply Hin; by left.
Qed.

(** C4 (amended). Merging a fragment a second time changes nothing; and
    when neither the graph nor the fragment repeats an id, the result has
    no two nodes and no two edges with the same id. *)
Theorem merge_idempotent (G F : GraphData) :
  App.merge (App.merge G (App.fragment F)) (App.fragment F)
    = App.merge G (App.fragment F)
  ∧ (NoDup (nodeIds (nodes G)) -> NoDup (nodeIds (nodes F)) ->
     NoDup (nodeIds (nodes (App.merge G (App.fragment F)))))
  ∧ (NoDup (edgeIds (edges G)) -> NoDup (edgeIds (edges F)) ->
     NoDup (edgeIds (edges (App.merge G (App.fragment F))))).
Proof.
  unfold App.merge, App.fragment; simpl. repeat split.
  - by rewrite mergeNodes_again, mergeEdges_again.
  - apply mergeNodes_NoDup.
  - apply mergeEdges_NoDup.
Qed.

Lemma merge_idempotent_witness :
  let G := {| nodes := [mkNode "1" "Photosynthesis"]; edges := [] |} in
  let F := {| nodes := [mkNode "2" "Chlorophyll"; mkNode "1" "Renamed"];
              edges := [mkEdge "e1" "1" "2" "uses"] |} in
  NoDup (nodeIds (nodes (App.merge G (App.fragment F))))
  ∧ NoDup (edgeIds (edges (App.merge G (App.fragment F)))).
Proof.
  intros G F.
  destruct (merge_idempotent G F) as (_ & Hn & He).
  split.
  - apply Hn; apply (bool_decide_unpack _); vm_compute; reflexivity.
  - apply He; apply (bool_decide_unpack _); vm_compute; reflexivity.
Defined.

(** C5. Merge is monotone: whatever the response carries, the existing
    nodes and edges are an unchanged prefix of the merged lists, so each of
    them is still present and the counts do not decrease. *)
Theorem merge_monotone (G : GraphData) (R : App.ExpandResponse) :
  nodes G `prefix_of` nodes (App.merge G R)
  ∧ edges G `prefix_of` edges (App.merge G R)
  ∧ (forall n, n ∈ nodes G -> n ∈ nodes (App.merge G R))
  ∧ (forall e, e ∈ edges G -> e ∈ edges (App.merge G R))
  ∧ length (nodes G) <= length (nodes (App.merge G R))
  ∧ length (edges G) <= length (edges (App.merge G R)).
Proof.
  unfold App.merge; simpl. rewrite mergeNodes_eq, mergeEdges_eq.
  repeat split.
  - by apply prefix_app_r.
  - by apply prefix_app_r.
  - intros n Hn. apply elem_of_app. by left.
  - intros e He. apply elem_of_app. by left.
  - rewrite length_app. lia.
  - rewrite length_app. lia.
Qed.

(** [handleExpandNode] lays out the merged graph when the request
    succeeds and keeps the working graph when it fails. *)
Lemma handleExpandNode_ok getLayoutedElements s data :
  App.workingGraph
    (App.handleExpandNode getLayoutedElements s (App.AxiosOk data))
  = getLayoutedElements
      (nodes (App.merge (App.workingGraph s) data))
      (edges (App.merge (App.workingGraph s) data)) App.TB.
Proof.
  unfold App.workingGraph, App.handleExpandNode. simpl.
  by destruct (getLayoutedElements _ _ _).
Qed.

Lemma handleExpandNode_error getLayoutedElements s :
  App.workingGraph (App.handleExpandNode getLayoutedElements s App.AxiosError)
  = App.workingGraph s.
Proof. reflexivity. Qed.

(** * Properties of the server (server.js) *)

Import Server.

Lemma appendLog_nil (s : State) : appendLog s [] = s.
Proof. destruct s. unfold appendLog; simpl. by rewrite app_nil_r. Qed.

Lemma appendLog_appendLog (s : State) (l1 l2 : list Event) :
  appendLog (appendLog s l1) l2 = appendLog s (l1 ++ l2).
Proof. unfold appendLog; simpl. by rewrite app_assoc. Qed.

(** Two states that differ only in how their logs are bracketed. *)
Ltac same_state :=
  unfold appendLog; simpl; rewrite <- ?app_assoc; simpl; reflexivity.

Lemma emit_run (ev : Event) (env : Env) (s : State) :
  emit ev env s = (Returned tt, appendLog s [ev]).
Proof. reflexivity. Qed.

Lemma find_no_match (sid : string) (ns : list Node.t) :
  (forall n, n ∈ ns -> Node.id n ≠ sid) ->
  List.find (fun n => bool_decide (Node.id n = sid)) ns = None.
Proof.
  induction ns as [|n ns IH]; intros Hall; simpl; [done|].
  rewrite bool_decide_eq_false_2 by (apply Hall; by left).
  apply IH. intros m Hm. apply Hall. by right.
Qed.

Lemma handle_promptOf (request : Request) (prompt : Prompt) :
  promptOf request = Some prompt ->
  handle request = generateAndRespond prompt.
Proof.
  destruct request as [topic|[fullGraph|] selectedNodeId|]; simpl; try done.
  - unfold post_generate. destruct (falsy topic); [done|]. by intros [= <-].
  - unfold post_expand. destruct (falsy selectedNodeId); [done|].
    destruct (List.find _ _); simpl; [|done]. by intros [= <-].
Qed.

(** ** generateGraph *)

Lemma generateGraph_parsed env s prompt text graphData :
  generateContent env (log s) prompt = Fulfilled text ->
  JSON_parse env text = Some graphData ->
  generateGraph prompt env s
  = (Returned graphData, appendLog s [GenerateContent prompt]).
Proof.
  intros Hllm Hparse.
  unfold generateGraph, try_catch, bind, await_generateContent, bind.
  rewrite emit_run, Hllm. simpl. unfold ret. by rewrite Hparse.
Qed.

Lemma generateGraph_unparseable env s prompt text :
  generateContent env (log s) prompt = Fulfilled text ->
  JSON_parse env text = None ->
  generateGraph prompt env s
  = (Threw "Failed to generate graph from API.",
     appendLog s [GenerateContent prompt;
                  ConsoleError "Error generating graph:"]).
Proof.
  intros Hllm Hparse.
  unfold generateGraph, try_catch, bind, await_generateContent, bind.
  rewrite emit_run, Hllm. simpl. unfold throw. rewrite Hparse.
  same_state.
Qed.

(** ** How saveGraphToNeo4j can end *)

Lemma session_close_run env s :
  session_close env s
  = match sessionClose env (log s) with
    | Fulfilled _ => (Returned tt, appendLog s [SessionClose])
    | Rejected e => (Threw e, appendLog s [SessionClose])
    | Pending => (Stuck, appendLog s [SessionClose])
    end.
Proof.
  unfold session_close, bind. rewrite emit_run.
  by destruct (sessionClose env (log s)) as [[]|e|].
Qed.

(** Errors of the loops are caught: the save either waits for ever inside
    the loops, or reaches [session.close()] and ends as that call does. *)
Lemma saveGraphToNeo4j_outcome env s ns es :
  exists s',
    saveGraphToNeo4j ns es env s = (Stuck, s')
    ∨ saveGraphToNeo4j ns es env s
      = match sessionClose env (log s') with
        | Fulfilled _ => (Returned tt, appendLog s' [SessionClose])
        | Rejected e => (Threw e, appendLog s' [SessionClose])
        | Pending => (Stuck, appendLog s' [SessionClose])
        end.
Proof.
  destruct (saveGraphToNeo4j ns es env s) as [o s2] eqn:Hrun.
  revert Hrun. unfold saveGraphToNeo4j, bind at 1. rewrite emit_run.
  unfold try_finally, try_catch.
  destruct (bind _ _ env _) as [[[]|e|] s1]; simpl.
  - rewrite session_close_run. intros <-. exists s1. right.
    by destruct (sessionClose env (log s1)) as [[]|e|].
  - rewrite session_close_run. intros <-.
    exists (appendLog s1 [ConsoleError "Error saving graph to Neo4j:"]).
    right. simpl.
    by destruct (sessionClose env _) as [[]|e'|].
  - intros [= <- <-]. exists s1. by left.
Qed.

(** C3 (as stated, refuted). An empty [selectedNodeId] matches no node of
    the supplied graph, and the handler answers 400, not 404. *)
Lemma expand_empty_id_not_404 :
  (forall n, n ∈ nodes sampleFragment -> Node.id n ≠ "")
  ∧ post_expand (Some sampleFragment) (Some "") sampleEnv initialState
    = (Returned tt,
       appendLog initialState
         [Respond 400
            (ErrorBody "Full graph and selected node ID are required")]).
Proof.
  split; [|reflexivity].
  intros n Hn. vm_compute in Hn.
  apply elem_of_cons in Hn as [->|Hn]; [done|].
  apply elem_of_cons in Hn as [->|Hn]; [done|].
  by apply not_elem_of_nil in Hn.
Qed.

(** C3 (amended). When [selectedNodeId] is a non-empty string that matches
    no node of the supplied [fullGraph], the handler answers 404 and the
    only event of the run is that response: the LLM is not called and the
    database is not touched.  (An empty [selectedNodeId] is answered 400 by
    the guard before the lookup, again without any call.) *)
Theorem expand_unknown_node env s (fullGraph : GraphData) (selectedNodeId : string) :
  (forall n, n ∈ nodes fullGraph -> Node.id n ≠ selectedNodeId) ->
  post_expand (Some fullGraph) (Some selectedNodeId) env s
  = (Returned tt,
     appendLog s
       [if bool_decide (selectedNodeId = "")
        then Respond 400
               (ErrorBody "Full graph and selected node ID are required")
        else Respond 404 (ErrorBody "Selected node not found in the graph")]).
Proof.
  intros Hnone. unfold post_expand, falsy. simpl.
  case_bool_decide; [done|].
  by rewrite find_no_match.
Qed.

Lemma expand_unknown_node_witness :
  post_expand (Some sampleFragment) (Some "7") sampleEnv initialState
  = (Returned tt,
     appendLog initialState
       [Respond 404 (ErrorBody "Selected node not found in the graph")]).
Proof.
  apply (expand_unknown_node sampleEnv initialState sampleFragment "7").
  intros n Hn. vm_compute in Hn.
  apply elem_of_cons in Hn as [->|Hn]; [done|].
  apply elem_of_cons in Hn as [->|Hn]; [done|].
  by apply not_elem_of_nil in Hn.
Defined.

(** C6 (as stated, refuted). On an LLM answer that is not JSON the body of
    the 500 response carries the message with its final full stop; no
    response carries the message without it. *)
Lemma prose_answer_message :
  JSON_parse proseEnv "Sure! Here is your graph:" = None
  ∧ post_generate (Some "Photosynthesis") proseEnv initialState
    = (Returned tt,
       appendLog initialState
         [GenerateContent (GeneratePrompt "Photosynthesis");
          ConsoleError "Error generating graph:";
          Respond 500 (ErrorBody "Failed to generate graph from API.")])
  ∧ Respond 500 (ErrorBody "Failed to generate graph from API")
      ∉ log (post_generate (Some "Photosynthesis") proseEnv initialState).2.
Proof.
  split; [reflexivity|]. split; [reflexivity|].
  vm_compute. intros H.
  repeat (apply elem_of_cons in H as [H|H]; [discriminate H|]).
  by apply not_elem_of_nil in H.
Qed.

(** C6 (amended). When the LLM answer is not parseable as JSON,
    [generateGraph] throws an error whose message is
    "Failed to generate graph from API." (with the full stop), and
    [/api/generate] answers 500 with [{error}] carrying that message. *)
Theorem generate_unparseable env s (topic text : string) :
  topic ≠ "" ->
  generateContent env (log s) (GeneratePrompt topic) = Fulfilled text ->
  JSON_parse env text = None ->
  generateGraph (GeneratePrompt topic) env s
  = (Threw "Failed to generate graph from API.",
     appendLog s [GenerateContent (GeneratePrompt topic);
                  ConsoleError "Error generating graph:"])
  ∧ post_generate (Some topic) env s
    = (Returned tt,
       appendLog s
         [GenerateContent (GeneratePrompt topic);
          ConsoleError "Error generating graph:";
          Respond 500 (ErrorBody "Failed to generate graph from API.")]).
Proof.
  intros Htopic Hllm Hparse.
  split; [by eapply generateGraph_unparseable|].
  unfold post_generate, falsy. rewrite bool_decide_eq_false_2 by done. simpl.
  unfold try_catch, bind at 1.
  rewrite (generateGraph_unparseable _ _ _ text) by done.
  unfold respond. rewrite emit_run. by rewrite appendLog_appendLog.
Qed.

Lemma generate_unparseable_witness :
  post_generate (Some "Photosynthesis") proseEnv initialState
  = (Returned tt,
     appendLog initialState
       [GenerateContent (GeneratePrompt "Photosynthesis");
        ConsoleError "Error generating graph:";
        Respond 500 (ErrorBody "Failed to generate graph from API.")]).
Proof.
  apply (generate_unparseable proseEnv initialState "Photosynthesis"
           "Sure! Here is your graph:").
  - discriminate.
  - reflexivity.
  - reflexivity.
Defined.

(** ** Computations that settle *)

Section Settles.

Context (env : Env).

Lemma settles_ret {A} (a : A) : settlesOn env (ret a).
Proof. by intros s. Qed.

Lemma settles_emit ev : settlesOn env (emit ev).
Proof. by intros s. Qed.

Lemma settles_bind {A B} (m : M A) (k : A -> M B) :
  settlesOn env m -> (forall a, settlesOn env (k a)) ->
  settlesOn env (bind m k).
Proof.
  intros Hm Hk s. unfold bind. specialize (Hm s).
  destruct (m env s) as [[a|e|] s1]; simpl in *; [apply Hk|done|done].
Qed.

Lemma settles_try_catch {A} (body : M A) (handler : string -> M A) :
  settlesOn env body -> (forall e, settlesOn env (handler e)) ->
  settlesOn env (try_catch body handler).
Proof.
  intros Hb Hh s. unfold try_catch. specialize (Hb s).
  destruct (body env s) as [[a|e|] s1]; simpl in *; [done|apply Hh|done].
Qed.

Lemma settles_try_finally {A} (body : M A) (final : M unit) :
  settlesOn env body -> settlesOn env final ->
  settlesOn env (try_finally body final).
Proof.
  intros Hb Hf s. unfold try_finally. specialize (Hb s).
  destruct (body env s) as [[a|e|] s1]; simpl in *; [| |done];
    specialize (Hf s1); by destruct (final env s1) as [[[]|e'|] s2].
Qed.

Lemma settles_forEach {A} (l : list A) (f : A -> M unit) :
  (forall a, settlesOn env (f a)) -> settlesOn env (forEach l f).
Proof.
  intros Hf. induction l as [|a l IH]; simpl.
  - apply settles_ret.
  - apply settles_bind; [apply Hf|done].
Qed.

Lemma settles_getEmbedding text :
  embeddingSettles env -> settlesOn env (getEmbedding text).
Proof.
  intros Hemb s.
  unfold getEmbedding, try_catch, await_embedContent, bind.
  rewrite emit_run. specialize (Hemb (log s) text).
  by destruct (embedContent env (log s) text).
Qed.

Lemma settles_session_run q :
  dbSettles env -> settlesOn env (session_run q).
Proof.
  intros Hdb s. unfold session_run, bind. rewrite emit_run.
  specialize (Hdb (log s) q).
  destruct (sessionRun env (log s) q); simpl; [|done|done].
  by destruct (execute q _).
Qed.

Lemma settles_session_close :
  sessionCloses env -> settlesOn env session_close.
Proof. intros Hclose s. by rewrite session_close_run, Hclose. Qed.

Lemma settles_saveGraphToNeo4j ns es :
  embeddingSettles env -> dbSettles env -> sessionCloses env ->
  settlesOn env (saveGraphToNeo4j ns es).
Proof.
  intros Hemb Hdb Hclose. unfold saveGraphToNeo4j.
  apply settles_bind; [apply settles_emit|intros _].
  apply settles_try_finally; [|by apply settles_session_close].
  apply settles_try_catch; [|intros; apply settles_emit].
  apply settles_bind; [|intros _; apply settles_bind].
  - apply settles_forEach. intros n. unfold saveNode.
    apply settles_bind; [by apply settles_getEmbedding|intros emb].
    apply settles_bind; [by apply settles_session_run|intros; apply settles_ret].
  - apply settles_forEach. intros e. unfold saveEdge.
    apply settles_bind; [by apply settles_session_run|intros; apply settles_ret].
  - intros _. apply settles_emit.
Qed.

End Settles.

Lemma saveGraphToNeo4j_returns env s ns es :
  embeddingSettles env -> dbSettles env -> sessionCloses env ->
  exists s',
    saveGraphToNeo4j ns es env s = (Returned tt, appendLog s' [SessionClose]).
Proof.
  intros Hemb Hdb Hclose.
  destruct (saveGraphToNeo4j_outcome env s ns es) as [s' [Hstuck|Hend]].
  - pose proof (settles_saveGraphToNeo4j env ns es Hemb Hdb Hclose s) as Hs.
    by rewrite Hstuck in Hs.
  - exists s'. by rewrite Hend, Hclose.
Qed.

Lemma generateAndRespond_run env s prompt text graphData :
  generateContent env (log s) prompt = Fulfilled text ->
  JSON_parse env text = Some graphData ->
  generateAndRespond prompt env s
  = match saveGraphToNeo4j (nodes graphData) (edges graphData) env
            (appendLog s [GenerateContent prompt]) with
    | (Returned _, s') =>
        (Returned tt, appendLog s' [Respond 200 (GraphBody graphData)])
    | (Threw e, s') => (Returned tt, appendLog s' [Respond 500 (ErrorBody e)])
    | (Stuck, s') => (Stuck, s')
    end.
Proof.
  intros Hllm Hparse. unfold generateAndRespond, try_catch, bind at 1.
  rewrite (generateGraph_parsed _ _ _ text graphData) by done.
  unfold bind.
  by destruct (saveGraphToNeo4j _ _ env _) as [[[]|e|] s1].
Qed.

Example generate_despite_rejected_upserts :
  post_generate (Some "Photosynthesis") failingDbEnv initialState
  = (Returned tt,
     appendLog initialState
       [GenerateContent (GeneratePrompt "Photosynthesis");
        SessionOpen;
        EmbedContent "Photosynthesis";
        SessionRun (MergeConcept "1" "Photosynthesis" [(1 # 2)%Q; (1 # 4)%Q]);
        ConsoleError "Error saving graph to Neo4j:";
        SessionClose;
        Respond 200 (GraphBody sampleFragment)]).
Proof. reflexivity. Qed.

(** C7 (as stated, refuted). After a successful generation, a database that
    never answers leaves the handler waiting inside the save: the run ends
    without any response. *)
Lemma generate_waits_for_persistence :
  generateGraph (GeneratePrompt "Photosynthesis") hangingDbEnv initialState
  = (Returned sampleFragment,
     appendLog initialState [GenerateContent (GeneratePrompt "Photosynthesis")])
  ∧ post_generate (Some "Photosynthesis") hangingDbEnv initialState
    = (Stuck,
       appendLog initialState
         [GenerateContent (GeneratePrompt "Photosynthesis");
          SessionOpen;
          EmbedContent "Photosynthesis";
          SessionRun (MergeConcept "1" "Photosynthesis"
                        [(1 # 2)%Q; (1 # 4)%Q])]).
Proof. split; reflexivity. Qed.

(** C7 (amended). On every successful generation or expansion the handler
    awaits the persistence step and responds afterwards.  Either the save
    never settles and no response is sent, or the save has reached
    [session.close()] and the response is the next event: 200 with the
    fragment when the save returned, 500 when closing the session failed.
    Success of the upserts is not required: when the embedding service and
    the database settle their calls, rejected or not, and the session
    closes, the fragment is returned. *)
Theorem response_awaits_persistence env s request prompt text graphData :
  promptOf request = Some prompt ->
  generateContent env (log s) prompt = Fulfilled text ->
  JSON_parse env text = Some graphData ->
  (exists s',
     (saveGraphToNeo4j (nodes graphData) (edges graphData) env
        (appendLog s [GenerateContent prompt])
      = (Stuck, s')
      ∧ handle request env s = (Stuck, s'))
     ∨ (saveGraphToNeo4j (nodes graphData) (edges graphData) env
          (appendLog s [GenerateContent prompt])
        = (Returned tt, appendLog s' [SessionClose])
        ∧ handle request env s
          = (Returned tt,
             appendLog s' [SessionClose; Respond 200 (GraphBody graphData)]))
     ∨ (exists e,
          saveGraphToNeo4j (nodes graphData) (edges graphData) env
            (appendLog s [GenerateContent prompt])
          = (Threw e, appendLog s' [SessionClose])
          ∧ handle request env s
            = (Returned tt,
               appendLog s' [SessionClose; Respond 500 (ErrorBody e)])))
  ∧ (embeddingSettles env -> dbSettles env -> sessionCloses env ->
     exists s',
       handle request env s
       = (Returned tt,
          appendLog s' [SessionClose; Respond 200 (GraphBody graphData)])).
Proof.
  intros Hprompt Hllm Hparse.
  rewrite (handle_promptOf _ _ Hprompt).
  rewrite (generateAndRespond_run _ _ _ text graphData) by done.
  split.
  - destruct (saveGraphToNeo4j_outcome env
                (appendLog s [GenerateContent prompt])
                (nodes graphData) (edges graphData)) as [s' [Hsave|Hsave]].
    + exists s'. left. by rewrite Hsave.
    + destruct (sessionClose env (log s')) as [[]|e|].
      * exists s'. right. left. rewrite Hsave.
        by rewrite appendLog_appendLog.
      * exists s'. right. right. exists e. rewrite Hsave.
        by rewrite appendLog_appendLog.
      * exists (appendLog s' [SessionClose]). left. by rewrite Hsave.
  - intros Hemb Hdb Hclose.
    destruct (saveGraphToNeo4j_returns env
                (appendLog s [GenerateContent prompt])
                (nodes graphData) (edges graphData) Hemb Hdb Hclose)
      as [s' Hsave].
    exists s'. rewrite Hsave. by rewrite appendLog_appendLog.
Qed.

Lemma response_awaits_persistence_witness :
  exists s',
    handle (PostExpand (Some sampleFragment) (Some "2")) failingDbEnv initialState
    = (Returned tt,
       appendLog s' [SessionClose; Respond 200 (GraphBody sampleFragment)]).
Proof.
  refine (proj2 (response_awaits_persistence failingDbEnv initialState
                   (PostExpand (Some sampleFragment) (Some "2"))
                   (ExpandPrompt sampleFragment (mkNode "2" "Chlorophyll"))
                   "fragment" sampleFragment _ _ _) _ _ _).
  - reflexivity.
  - reflexivity.
  - reflexivity.
  - intros l text. discriminate.
  - intros l q. discriminate.
  - intros l. reflexivity.
Defined.

(** ** saveGraphToNeo4j on a database that accepts every statement *)

Lemma getEmbedding_run env s text :
  getEmbedding text env s
  = match embedContent env (log s) text with
    | Fulfilled values => (Returned values, appendLog s [EmbedContent text])
    | Rejected _ =>
        (Returned [],
         appendLog s [EmbedContent text;
                      ConsoleError "Error generating embedding:"])
    | Pending => (Stuck, appendLog s [EmbedContent text])
    end.
Proof.
  unfold getEmbedding, try_catch, await_embedContent, bind.
  rewrite emit_run.
  destruct (embedContent env (log s) text); simpl; try done.
  f_equal. same_state.
Qed.

Lemma session_run_accepted env s q :
  sessionRun env (log s) q = Fulfilled tt ->
  session_run q env s
  = (Returned (execute q (db s)).2,
     {| log := log s ++ [SessionRun q];
        db := (execute q (db s)).1;
        randomCalls := randomCalls s |}).
Proof.
  intros Hq. unfold session_run, bind. rewrite emit_run, Hq. simpl.
  by destruct (execute q (db s)).
Qed.

Lemma saveNode_rejected_embedding env s node message :
  embedContent env (log s) (label (Node.data node)) = Rejected message ->
  saveNode node env s
  = (session_run
       (MergeConcept (Node.id node) (label (Node.data node)) []) >> ret tt)%js
      env
      (appendLog s [EmbedContent (label (Node.data node));
                    ConsoleError "Error generating embedding:"]).
Proof.
  intros Hemb. unfold saveNode, bind at 1.
  by rewrite getEmbedding_run, Hemb.
Qed.

Lemma saveNode_accepted env s node :
  embeddingSettles env -> dbAccepts env ->
  exists events,
    saveNode node env s
    = (Returned tt,
       {| log :=
            log s ++ events ++
              [SessionRun
                 (MergeConcept (Node.id node) (label (Node.data node))
                    (embeddingOr
                       (embedContent env (log s) (label (Node.data node)))))];
          db :=
            mergeConcept (Node.id node) (label (Node.data node))
              (embeddingOr
                 (embedContent env (log s) (label (Node.data node))))
              (db s);
          randomCalls := randomCalls s |}).
Proof.
  intros Hemb Hdb. unfold saveNode, bind at 1. rewrite getEmbedding_run.
  specialize (Hemb (log s) (label (Node.data node))).
  destruct (embedContent env (log s) (label (Node.data node)))
    as [values|message|]; [| |done]; unfold bind;
    rewrite session_run_accepted by apply Hdb; simpl;
    eexists; unfold ret; f_equal; f_equal; rewrite <- app_assoc; reflexivity.
Qed.

Lemma saveNodes_accepted env ns :
  embeddingSettles env -> dbAccepts env ->
  forall s,
  exists (upserts : list (Node.t * list number)) events,
    upserts.*1 = ns
    ∧ forEach ns saveNode env s
      = (Returned tt,
         {| log := log s ++ events;
            db := upsertNodes upserts (db s);
            randomCalls := randomCalls s |})
    ∧ (forall node embedding, (node, embedding) ∈ upserts ->
         SessionRun
           (MergeConcept (Node.id node) (label (Node.data node)) embedding)
           ∈ events
         ∧ (embeddingFails env (label (Node.data node)) -> embedding = [])).
Proof.
  intros Hemb Hdb.
  induction ns as [|n ns IH]; intros s.
  - exists [], []. split; [done|]. split.
    + simpl. unfold ret. f_equal. destruct s; simpl. by rewrite app_nil_r.
    + intros node embedding Hin. by apply not_elem_of_nil in Hin.
  - destruct (saveNode_accepted env s n Hemb Hdb) as [ev1 Hnode].
    simpl. unfold bind at 1. rewrite Hnode.
    match goal with
    | |- context [forEach ns saveNode env ?s1] =>
        destruct (IH s1) as (upserts & ev2 & Hfst & Hrun & Hall)
    end.
    rewrite Hrun. simpl.
    set (emb := embeddingOr (embedContent env (log s) (label (Node.data n)))).
    exists ((n, emb) :: upserts),
      (ev1 ++ [SessionRun (MergeConcept (Node.id n) (label (Node.data n)) emb)]
           ++ ev2).
    split; [by rewrite fmap_cons, Hfst|]. split.
    + f_equal. f_equal. by rewrite <- !app_assoc.
    + intros node embedding [[= -> ->]|Hin]%elem_of_cons.
      * split.
        { rewrite !elem_of_app. right. left. by apply list_elem_of_singleton. }
        intros Hfail. subst emb. destruct (Hfail (log s)) as [m ->]. done.
      * destruct (Hall _ _ Hin) as [Hev Hemp]. split; [|done].
        rewrite !elem_of_app. by do 2 right.
Qed.

Lemma saveEdges_accepted env es :
  dbAccepts env ->
  forall s,
    forEach es saveEdge env s
    = (Returned tt,
       {| log := log s ++ (SessionRun ∘ edgeStatement <$> es);
          db := upsertEdges es (db s);
          randomCalls := randomCalls s |}).
Proof.
  intros Hdb. induction es as [|e es IH]; intros s.
  - simpl. unfold ret. f_equal. destruct s; simpl. by rewrite app_nil_r.
  - simpl. unfold saveEdge at 1, bind.
    rewrite session_run_accepted by apply Hdb.
    unfold ret. rewrite IH. simpl. f_equal. f_equal.
    by rewrite <- app_assoc.
Qed.

Lemma upsertEdges_concepts es d :
  concepts (upsertEdges es d) = concepts d.
Proof.
  revert d. induction es as [|e es IH]; intros d; [done|].
  simpl. unfold upsertEdges in IH. rewrite IH.
  simpl. unfold mergeRelatesTo. by repeat case_match.
Qed.

Lemma upsertNodes_snoc upserts node embedding d :
  upsertNodes (upserts ++ [(node, embedding)]) d
  = mergeConcept (Node.id node) (label (Node.data node)) embedding
      (upsertNodes upserts d).
Proof. unfold upsertNodes. by rewrite fold_left_app. Qed.

Lemma upsertNodes_present upserts d node embedding :
  (node, embedding) ∈ upserts ->
  is_Some (concepts (upsertNodes upserts d) !! Node.id node).
Proof.
  induction upserts as [|[n emb] upserts IH] using rev_ind;
    [by intros ?%not_elem_of_nil|].
  rewrite upsertNodes_snoc. simpl.
  intros [Hin|[= <- <-]%list_elem_of_singleton]%elem_of_app.
  - destruct (decide (Node.id n = Node.id node)) as [->|Hne].
    + rewrite lookup_insert_eq. by eexists.
    + rewrite lookup_insert_ne by done. by apply IH.
  - rewrite lookup_insert_eq. by eexists.
Qed.

(** When all upserts for an id carry the same label and embedding, that is
    what the store holds for the id. *)
Lemma upsertNodes_agree upserts d node embedding :
  (node, embedding) ∈ upserts ->
  (forall node' embedding',
     (node', embedding') ∈ upserts -> Node.id node' = Node.id node ->
     label (Node.data node') = label (Node.data node)
     ∧ embedding' = embedding) ->
  concepts (upsertNodes upserts d) !! Node.id node
  = Some {| c_label := label (Node.data node); c_embedding := embedding |}.
Proof.
  induction upserts as [|[n emb] upserts IH] using rev_ind;
    [by intros ?%not_elem_of_nil|].
  rewrite upsertNodes_snoc. simpl. intros Hin Hagree.
  destruct (decide (Node.id n = Node.id node)) as [Hid|Hne].
  - destruct (Hagree n emb) as [-> ->];
      [apply elem_of_app; right; by apply list_elem_of_singleton|done|].
    rewrite Hid. by rewrite lookup_insert_eq.
  - rewrite lookup_insert_ne by done.
    apply elem_of_app in Hin as [Hin|[= <- <-]%list_elem_of_singleton];
      [|done].
    apply IH; [done|]. intros node' embedding' Hin'. apply Hagree.
    apply elem_of_app. by left.
Qed.

Lemma saveGraphToNeo4j_accepted env s ns es :
  embeddingSettles env -> dbAccepts env -> sessionCloses env ->
  exists (upserts : list (Node.t * list number)) events,
    upserts.*1 = ns
    ∧ saveGraphToNeo4j ns es env s
      = (Returned tt,
         {| log :=
              log s ++ [SessionOpen] ++ events
                ++ (SessionRun ∘ edgeStatement <$> es)
                ++ [ConsoleLog "Graph data saved to Neo4j."; SessionClose];
            db := upsertEdges es (upsertNodes upserts (db s));
            randomCalls := randomCalls s |})
    ∧ (forall node embedding, (node, embedding) ∈ upserts ->
         SessionRun
           (MergeConcept (Node.id node) (label (Node.data node)) embedding)
           ∈ events
         ∧ (embeddingFails env (label (Node.data node)) -> embedding = [])).
Proof.
  intros Hemb Hdb Hclose.
  destruct (saveNodes_accepted env ns Hemb Hdb (appendLog s [SessionOpen]))
    as (upserts & events & Hfst & Hnodes & Hall).
  exists upserts, events. split; [done|]. split; [|done].
  unfold saveGraphToNeo4j, bind at 1. rewrite emit_run.
  unfold try_finally, try_catch, bind at 1. rewrite Hnodes.
  unfold bind. rewrite (saveEdges_accepted env es Hdb). simpl.
  rewrite session_close_run, Hclose. unfold appendLog. simpl.
  f_equal. f_equal. by rewrite <- !app_assoc.
Qed.

(** C8. A failing embedding call degrades to the empty vector: the upsert
    of the node is issued with [embedding = []] exactly as if the call had
    returned it, and, on a database that accepts the statements, the save
    runs to its end, issuing the upsert of every node and of every edge;
    the node is stored with a zero-length embedding (unless another node
    of the list reuses its id). *)
Theorem save_survives_embedding_failure env s ns es (node : Node.t) :
  node ∈ ns ->
  embeddingFails env (label (Node.data node)) ->
  (forall s0,
     getEmbedding (label (Node.data node)) env s0
     = (Returned [],
        appendLog s0 [EmbedContent (label (Node.data node));
                      ConsoleError "Error generating embedding:"])
     ∧ saveNode node env s0
       = (session_run
            (MergeConcept (Node.id node) (label (Node.data node)) [])
          >> ret tt)%js
           env
           (appendLog s0 [EmbedContent (label (Node.data node));
                          ConsoleError "Error generating embedding:"]))
  ∧ (embeddingSettles env -> dbAccepts env -> sessionCloses env ->
     exists s' events,
       saveGraphToNeo4j ns es env s = (Returned tt, s')
       ∧ log s' = log s ++ events
       ∧ SessionRun (MergeConcept (Node.id node) (label (Node.data node)) [])
           ∈ events
       ∧ (forall n, n ∈ ns ->
            exists embedding,
              SessionRun
                (MergeConcept (Node.id n) (label (Node.data n)) embedding)
                ∈ events)
       ∧ (forall e, e ∈ es -> SessionRun (edgeStatement e) ∈ events)
       ∧ ConsoleLog "Graph data saved to Neo4j." ∈ events
       ∧ (forall n, n ∈ ns -> is_Some (concepts (db s') !! Node.id n))
       ∧ ((forall n, n ∈ ns -> Node.id n = Node.id node -> n = node) ->
          concepts (db s') !! Node.id node
          = Some {| c_label := label (Node.data node); c_embedding := [] |})).
Proof.
  intros Hin Hfail. split.
  - intros s0. destruct (Hfail (log s0)) as [message Hrej]. split.
    + by rewrite getEmbedding_run, Hrej.
    + by eapply saveNode_rejected_embedding.
  - intros Hemb Hdb Hclose.
    destruct (saveGraphToNeo4j_accepted env s ns es Hemb Hdb Hclose)
      as (upserts & events & Hfst & Hrun & Hall).
    assert (Hpair : forall n, n ∈ ns -> exists emb, (n, emb) ∈ upserts).
    { intros n Hn. rewrite <- Hfst in Hn.
      apply list_elem_of_fmap in Hn as ([n' emb] & -> & Hn). by exists emb. }
    assert (Hfirst : forall n emb, (n, emb) ∈ upserts -> n ∈ ns).
    { intros n emb Hn. rewrite <- Hfst.
      apply list_elem_of_fmap. by exists (n, emb). }
    eexists _,
      ([SessionOpen] ++ events ++ (SessionRun ∘ edgeStatement <$> es)
         ++ [ConsoleLog "Graph data saved to Neo4j."; SessionClose]).
    split; [exact Hrun|]. split; [reflexivity|].
    cbn [db]. split_and!.
    + destruct (Hpair node Hin) as [emb Hemb'].
      destruct (Hall _ _ Hemb') as [Hev Hempty].
      rewrite (Hempty Hfail) in Hev.
      rewrite !elem_of_app. right. by left.
    + intros n Hn. destruct (Hpair n Hn) as [emb Hemb'].
      exists emb. destruct (Hall _ _ Hemb') as [Hev _].
      rewrite !elem_of_app. right. by left.
    + intros e He. rewrite !elem_of_app. right. right. left.
      apply list_elem_of_fmap. by exists e.
    + rewrite !elem_of_app. do 3 right. by left.
    + intros n Hn. destruct (Hpair n Hn) as [emb Hemb'].
      rewrite upsertEdges_concepts. by eapply upsertNodes_present.
    + intros Hunique. rewrite upsertEdges_concepts.
      destruct (Hpair node Hin) as [emb Hemb'].
      destruct (Hall _ _ Hemb') as [_ Hempty].
      rewrite (Hempty Hfail) in Hemb'.
      apply upsertNodes_agree; [done|].
      intros n' emb' Hn' Hid.
      rewrite (Hunique n' (Hfirst _ _ Hn') Hid) in Hn' |- *.
      split; [done|]. by apply (Hall _ _ Hn').
Qed.

Lemma save_survives_embedding_failure_witness :
  exists s' events,
    saveGraphToNeo4j (nodes sampleFragment) (edges sampleFragment)
      noEmbeddingEnv initialState = (Returned tt, s')
    ∧ log s' = log initialState ++ events
    ∧ SessionRun (MergeConcept "2" "Chlorophyll" []) ∈ events
    ∧ SessionRun (MergeRelatesTo "1" "2" "e1" "uses") ∈ events
    ∧ concepts (db s') !! "2"
      = Some {| c_label := "Chlorophyll"; c_embedding := [] |}.
Proof.
  destruct (save_survives_embedding_failure noEmbeddingEnv initialState
              (nodes sampleFragment) (edges sampleFragment)
              (mkNode "2" "Chlorophyll")) as [_ Hsave].
  - apply list_elem_of_further, list_elem_of_here.
  - intros l. exists "quota exceeded". reflexivity.
  - destruct Hsave as (s' & events & Hrun & Hlog & Hnode & _ & Hedges & _ & _ & Hdb).
    + intros l text. simpl. case_bool_decide; discriminate.
    + intros l q. reflexivity.
    + intros l. reflexivity.
    + exists s', events. split_and!; try done.
      * apply (Hedges (mkEdge "e1" "1" "2" "uses")).
        apply list_elem_of_here.
      * apply Hdb. intros n Hn Hid. vm_compute in Hn.
        apply elem_of_cons in Hn as [->|Hn]; [discriminate Hid|].
        apply elem_of_cons in Hn as [->|Hn]; [done|].
        by apply not_elem_of_nil in Hn.
Defined.

(** ** The relationships written by the server *)

Section PreservesDb.

Context (I : Neo4j -> Prop).

Lemma preserves_ret {A} (a : A) : preservesDb I (ret a).
Proof. by intros env s. Qed.

Lemma preserves_throw {A} e : preservesDb I (@throw A e).
Proof. by intros env s. Qed.

Lemma preserves_emit ev : preservesDb I (emit ev).
Proof. by intros env s. Qed.

Lemma preserves_settle {A} (r : Settled A) : preservesDb I (settle r).
Proof. intros env s. by destruct r. Qed.

Lemma preserves_random : preservesDb I random.
Proof. by intros env s. Qed.

Lemma preserves_bind {A B} (m : M A) (k : A -> M B) :
  preservesDb I m -> (forall a, preservesDb I (k a)) ->
  preservesDb I (bind m k).
Proof.
  intros Hm Hk env s HI. unfold bind. specialize (Hm env s HI).
  destruct (m env s) as [[a|e|] s1]; simpl in *; [by apply Hk|done|done].
Qed.

Lemma preserves_try_catch {A} (body : M A) (handler : string -> M A) :
  preservesDb I body -> (forall e, preservesDb I (handler e)) ->
  preservesDb I (try_catch body handler).
Proof.
  intros Hb Hh env s HI. unfold try_catch. specialize (Hb env s HI).
  destruct (body env s) as [[a|e|] s1]; simpl in *; [done|by apply Hh|done].
Qed.

Lemma preserves_try_finally {A} (body : M A) (final : M unit) :
  preservesDb I body -> preservesDb I final ->
  preservesDb I (try_finally body final).
Proof.
  intros Hb Hf env s HI. unfold try_finally. specialize (Hb env s HI).
  destruct (body env s) as [[a|e|] s1]; simpl in *; [| |done];
    specialize (Hf env s1 Hb); by destruct (final env s1) as [[[]|e'|] s2].
Qed.

Lemma preserves_forEach {A} (l : list A) (f : A -> M unit) :
  (forall a, preservesDb I (f a)) -> preservesDb I (forEach l f).
Proof.
  intros Hf. induction l as [|a l IH]; simpl.
  - apply preserves_ret.
  - apply preserves_bind; [apply Hf|done].
Qed.

Lemma preserves_generateGraph prompt : preservesDb I (generateGraph prompt).
Proof.
  intros env s HI.
  unfold generateGraph, try_catch, bind, await_generateContent, bind.
  rewrite emit_run.
  destruct (generateContent env (log s) prompt) as [text|e|]; simpl; try done.
  unfold ret, throw. by destruct (JSON_parse env text).
Qed.

Lemma preserves_getEmbedding text : preservesDb I (getEmbedding text).
Proof.
  intros env s HI. rewrite getEmbedding_run.
  by destruct (embedContent env (log s) text).
Qed.

Lemma preserves_session_run q :
  (forall d, I d -> I (execute q d).1) -> preservesDb I (session_run q).
Proof.
  intros Hq env s HI. unfold session_run, bind. rewrite emit_run.
  destruct (sessionRun env (log s) q); simpl; try done.
  specialize (Hq (db s) HI). by destruct (execute q (db s)).
Qed.

Lemma preserves_session_close : preservesDb I session_close.
Proof.
  intros env s HI. rewrite session_close_run.
  by destruct (sessionClose env (log s)).
Qed.

Lemma preserves_saveGraphToNeo4j ns es :
  (forall q d, I d -> I (execute q d).1) ->
  preservesDb I (saveGraphToNeo4j ns es).
Proof.
  intros Hq. unfold saveGraphToNeo4j.
  apply preserves_bind; [apply preserves_emit|intros _].
  apply preserves_try_finally; [|apply preserves_session_close].
  apply preserves_try_catch; [|intros; apply preserves_emit].
  apply preserves_bind; [|intros _; apply preserves_bind].
  - apply preserves_forEach. intros n. unfold saveNode.
    apply preserves_bind; [apply preserves_getEmbedding|intros emb].
    apply preserves_bind; [|intros; apply preserves_ret].
    apply preserves_session_run, Hq.
  - apply preserves_forEach. intros e. unfold saveEdge.
    apply preserves_bind; [|intros; apply preserves_ret].
    apply preserves_session_run, Hq.
  - intros _. apply preserves_emit.
Qed.

Lemma preserves_generateAndRespond prompt :
  (forall q d, I d -> I (execute q d).1) ->
  preservesDb I (generateAndRespond prompt).
Proof.
  intros Hq. unfold generateAndRespond.
  apply preserves_try_catch; [|intros; apply preserves_emit].
  apply preserves_bind; [apply preserves_generateGraph|intros g].
  apply preserves_bind; [by apply preserves_saveGraphToNeo4j|].
  intros _. apply preserves_emit.
Qed.

Lemma preserves_loadRecords rows acc : preservesDb I (loadRecords rows acc).
Proof.
  revert acc. induction rows as [|row rows IH]; intros acc; simpl.
  - apply preserves_ret.
  - apply preserves_bind; [|intros; apply IH].
    destruct acc as [ns es]. unfold loadRecord.
    apply preserves_bind; [apply preserves_random|intros rx].
    apply preserves_bind; [apply preserves_random|intros ry].
    destruct (row_r row), (row_m row); apply preserves_ret.
Qed.

Lemma preserves_get_neo4j_all :
  (forall q d, I d -> I (execute q d).1) ->
  preservesDb I get_neo4j_all.
Proof.
  intros Hq. unfold get_neo4j_all.
  apply preserves_bind; [apply preserves_emit|intros _].
  apply preserves_try_finally; [|apply preserves_session_close].
  apply preserves_try_catch.
  - apply preserves_bind; [apply preserves_session_run, Hq|intros rows].
    apply preserves_bind; [apply preserves_loadRecords|intros acc].
    apply preserves_emit.
  - intros e. apply preserves_bind; [apply preserves_emit|intros _].
    apply preserves_emit.
Qed.

Lemma preserves_handle request :
  (forall q d, I d -> I (execute q d).1) ->
  preservesDb I (handle request).
Proof.
  intros Hq.
  destruct request as [topic|fullGraph selectedNodeId|]; simpl.
  - unfold post_generate. destruct (falsy topic); [apply preserves_emit|].
    by apply preserves_generateAndRespond.
  - unfold post_expand. destruct fullGraph as [g|]; [|apply preserves_emit].
    destruct (falsy selectedNodeId); [apply preserves_emit|].
    destruct (List.find _ _); [|apply preserves_emit].
    by apply preserves_generateAndRespond.
  - by apply preserves_get_neo4j_all.
Qed.

End PreservesDb.

Lemma execute_plainRelationships q d :
  plainRelationships d -> plainRelationships (execute q d).1.
Proof.
  intros Hd. destruct q as [id lbl emb|src tgt eid lbl|]; simpl; try done.
  unfold mergeRelatesTo. repeat case_match; try done.
  intros r [Hr|Hr%list_elem_of_singleton]%elem_of_app;
    [by apply Hd|by subst r].
Qed.

Lemma reachable_plainRelationships s :
  reachable s -> plainRelationships (db s).
Proof.
  induction 1 as [|s env request outcome s' _ IH Hrun].
  - intros r Hr. by apply not_elem_of_nil in Hr.
  - pose proof (preserves_handle plainRelationships request
                  execute_plainRelationships env s IH) as Hs.
    by rewrite Hrun in Hs.
Qed.

(** ** The rows of the load query *)

Lemma rowsOf_row d id c row :
  row ∈ rowsOf d id c ->
  row_n row = conceptNode id c
  ∧ (forall rel m,
       row_r row = Some rel -> row_m row = Some m ->
       rel ∈ relationships d ∧ is_Some (concepts d !! n_id m)).
Proof.
  unfold rowsOf.
  set (matched := omap _ (relationships d)).
  assert (Hmatched : forall r, r ∈ matched ->
            row_n r = conceptNode id c
            ∧ (forall rel m,
                 row_r r = Some rel -> row_m r = Some m ->
                 rel ∈ relationships d ∧ is_Some (concepts d !! n_id m))).
  { intros r (rel & Hrel & Hr)%list_elem_of_omap.
    case_bool_decide; [|done].
    destruct (concepts d !! rel_end rel) as [m|] eqn:Hm; [|done].
    simpl in Hr. injection Hr as <-. simpl. split; [done|].
    intros rel' m' [= <-] [= <-]. simpl. split; [done|]. by eexists. }
  destruct matched as [|r0 matched'] eqn:Heq.
  - intros ->%list_elem_of_singleton. simpl. split; [done|]. by intros.
  - intros Hrow. by apply Hmatched.
Qed.

Lemma rowsOf_first d id c :
  exists row, row ∈ rowsOf d id c ∧ n_id (row_n row) = id.
Proof.
  destruct (rowsOf d id c) as [|row rows] eqn:Hrows.
  - unfold rowsOf in Hrows. by destruct (omap _ _).
  - exists row. split; [by left|].
    destruct (rowsOf_row d id c row) as [-> _]; [|done].
    rewrite Hrows. by left.
Qed.

Lemma matchAllConcepts_row d row :
  row ∈ matchAllConcepts d ->
  is_Some (concepts d !! n_id (row_n row))
  ∧ (forall rel m,
       row_r row = Some rel -> row_m row = Some m ->
       rel ∈ relationships d ∧ is_Some (concepts d !! n_id m)).
Proof.
  unfold matchAllConcepts.
  intros ([id c] & Hrow & Hconcept)%list_elem_of_bind.
  apply elem_of_map_to_list in Hconcept.
  destruct (rowsOf_row d id c row Hrow) as [Hn Hrel].
  split; [|done]. rewrite Hn. simpl. by eexists.
Qed.

Lemma matchAllConcepts_covers d id :
  is_Some (concepts d !! id) ->
  id ∈ (n_id ∘ row_n) <$> matchAllConcepts d.
Proof.
  intros [c Hc].
  destruct (rowsOf_first d id c) as (row & Hrow & Hid).
  apply list_elem_of_fmap. exists row. split; [done|].
  unfold matchAllConcepts. apply list_elem_of_bind.
  exists (id, c). split; [done|]. by apply elem_of_map_to_list.
Qed.

(** ** Building the response of the load endpoint *)

Lemma lookup_setProperty_Some {A} key (value : A) o k v :
  setProperty key value o !! k = Some v
  <-> (key ≠ "__proto__" ∧ key = k ∧ value = v)
      ∨ ((key = "__proto__" ∨ key ≠ k) ∧ o !! k = Some v).
Proof.
  unfold setProperty. case_bool_decide as Hkey.
  - split; [intros ?; right; split; [by left|done]|].
    by intros [(? & _)|[_ ?]].
  - rewrite lookup_insert_Some. split.
    + intros [[-> ->]|[? ?]]; [by left|right; split; [by right|done]].
    + intros [(_ & -> & ->)|[[?|?] ?]]; [by left|done|by right].
Qed.

Lemma lookup_setProperty_is_Some {A} key (value : A) o k :
  is_Some (setProperty key value o !! k)
  <-> (key ≠ "__proto__" ∧ key = k) ∨ is_Some (o !! k).
Proof.
  unfold setProperty. case_bool_decide as Hkey.
  - split; [by right|]. by intros [[? _]|?].
  - rewrite lookup_insert_is_Some'. split.
    + intros [->|?]; [by left|by right].
    + intros [[_ ->]|?]; [by left|by right].
Qed.

Lemma loadRecord_run acc row env s :
  loadRecord acc row env s
  = (Returned
       (setProperty (n_id (row_n row))
          (loadedNode (row_n row)
             (Math_random env (randomCalls s))
             (Math_random env (S (randomCalls s))))
          acc.1,
        match row_r row, row_m row with
        | Some rel, Some m =>
            setProperty (rel_id rel) (loadedEdge (row_n row) rel m) acc.2
        | _, _ => acc.2
        end),
     {| log := log s; db := db s; randomCalls := S (S (randomCalls s)) |}).
Proof.
  destruct acc as [ns es]. unfold loadRecord, bind, random, ret. simpl.
  by destruct (row_r row), (row_m row).
Qed.

Lemma loadRecords_run rows :
  forall acc env s,
  exists acc',
    loadRecords rows acc env s
    = (Returned acc',
       {| log := log s; db := db s;
          randomCalls := 2 * length rows + randomCalls s |})
    ∧ (forall k, is_Some (acc'.1 !! k)
                 <-> is_Some (acc.1 !! k)
                     ∨ (k ≠ "__proto__" ∧ k ∈ (n_id ∘ row_n) <$> rows))
    ∧ ((forall k v, acc.1 !! k = Some v -> Node.id v = k) ->
       forall k v, acc'.1 !! k = Some v -> Node.id v = k)
    ∧ (forall k e, acc'.2 !! k = Some e ->
         acc.2 !! k = Some e
         ∨ exists row rel m,
             row ∈ rows ∧ row_r row = Some rel ∧ row_m row = Some m
             ∧ e = loadedEdge (row_n row) rel m).
Proof.
  induction rows as [|row rows IH]; intros acc env s.
  - exists acc. split_and!.
    + simpl. unfold ret. by destruct s.
    + intros k. rewrite fmap_nil, elem_of_nil. tauto.
    + done.
    + intros k e He. by left.
  - simpl. unfold bind. rewrite loadRecord_run.
    match goal with
    | |- context [loadRecords rows ?acc1 env ?s1] =>
        destruct (IH acc1 env s1) as (acc' & Hrun & Hdom & Hids & Hedges)
    end.
    exists acc'. rewrite Hrun. cbn [fst snd] in *. split_and!.
    + f_equal. f_equal. simpl. lia.
    + intros k. rewrite Hdom, lookup_setProperty_is_Some, elem_of_cons.
      simpl. intuition congruence.
    + intros Hacc. apply Hids. intros k v.
      rewrite lookup_setProperty_Some.
      intros [(_ & <- & <-)|[_ Hk]]; [done|].
      by apply Hacc.
    + intros k e He. destruct (Hedges k e He) as [Hold|Hnew].
      * destruct (row_r row) as [rel|] eqn:Hr;
          [destruct (row_m row) as [m|] eqn:Hm|]; [|by left|by left].
        apply lookup_setProperty_Some in Hold as [(_ & <- & <-)|[_ Hk]];
          [|by left].
        right. exists row, rel, m. split_and!; [by left|done..].
      * right. destruct Hnew as (row' & rel & m & Hin & Hr & Hm & ->).
        exists row', rel, m. split_and!; [by right|done..].
Qed.

Lemma Object_values_id (o : gmap string Node.t) k :
  (forall k v, o !! k = Some v -> Node.id v = k) ->
  is_Some (o !! k) -> k ∈ nodeIds (Object_values o).
Proof.
  intros Hids [v Hv]. unfold nodeIds, Object_values.
  apply list_elem_of_fmap. exists v. split; [by rewrite (Hids k v)|].
  apply list_elem_of_fmap. exists (k, v). split; [done|].
  by apply elem_of_map_to_list.
Qed.

Lemma Object_values_lookup {A} (o : gmap string A) v :
  v ∈ Object_values o -> exists k, o !! k = Some v.
Proof.
  unfold Object_values.
  intros ([k v'] & -> & Hkv)%list_elem_of_fmap.
  exists k. by apply elem_of_map_to_list.
Qed.

Lemma orElse_None b : orElse None b = b.
Proof. reflexivity. Qed.

(** The graph assembled from the rows of a store whose relationships carry
    no [source] or [target] property and in which no concept has the id
    [__proto__] has no dangling edge. *)
Lemma loadRecords_noDangling d env s acc' s' :
  plainRelationships d ->
  concepts d !! "__proto__" = None ->
  loadRecords (matchAllConcepts d) (∅, ∅) env s = (Returned acc', s') ->
  noDanglingEdges
    {| nodes := Object_values acc'.1; edges := Object_values acc'.2 |}.
Proof.
  intros Hplain Hproto Hrun.
  destruct (loadRecords_run (matchAllConcepts d) (∅, ∅) env s)
    as (acc & Hrun' & Hdom & Hids & Hedges).
  rewrite Hrun in Hrun'. injection Hrun' as -> _.
  assert (Hnode : forall id, is_Some (concepts d !! id) ->
                             id ∈ nodeIds (Object_values acc.1)).
  { intros id Hid. apply Object_values_id.
    - apply Hids. intros k v. cbn [fst]. by rewrite lookup_empty.
    - apply Hdom. right. split; [|by apply matchAllConcepts_covers].
      intros ->. rewrite Hproto in Hid. by destruct Hid. }
  intros e He. simpl in *.
  apply Object_values_lookup in He as [k He].
  destruct (Hedges k e He) as [Hold|(row & rel & m & Hrow & Hr & Hm & ->)].
  { simpl in Hold. by rewrite lookup_empty in Hold. }
  destruct (matchAllConcepts_row d row Hrow) as [Hn Hrel].
  destruct (Hrel rel m Hr Hm) as [Hin Htarget].
  destruct (Hplain rel Hin) as [Hsrc Htgt].
  simpl. rewrite Hsrc, Htgt, !orElse_None. split; by apply Hnode.
Qed.

Lemma get_neo4j_all_plain env s :
  plainRelationships (db s) ->
  concepts (db s) !! "__proto__" = None ->
  exists events,
    log (get_neo4j_all env s).2 = log s ++ events
    ∧ (forall status g,
         Respond status (GraphBody g) ∈ events -> noDanglingEdges g)
    ∧ (forall u,
         sessionRun env (log s ++ [SessionOpen]) MatchAllConcepts = Fulfilled u ->
         exists g, Respond 200 (GraphBody g) ∈ events).
Proof.
  intros Hplain Hproto.
  destruct (get_neo4j_all env s) as [o s'] eqn:Hall. revert Hall.
  unfold get_neo4j_all, bind at 1. rewrite emit_run.
  unfold try_finally, try_catch, bind at 1.
  unfold session_run, bind at 1. rewrite emit_run.
  change (log (appendLog s [SessionOpen])) with (log s ++ [SessionOpen]).
  destruct (sessionRun env (log s ++ [SessionOpen]) MatchAllConcepts)
    as [u|e|]; simpl.
  - unfold bind at 1.
    match goal with
    | |- context [loadRecords _ _ env ?s1] =>
        destruct (loadRecords_run (matchAllConcepts (db s)) (∅, ∅) env s1)
          as (acc' & Hrun & _);
        pose proof (loadRecords_noDangling (db s) env s1 acc' _
                      Hplain Hproto Hrun)
          as Hgraph;
        rewrite Hrun
    end.
    simpl. rewrite session_close_run. intros Hall.
    exists [SessionOpen; SessionRun MatchAllConcepts;
            Respond 200
              (GraphBody {| nodes := Object_values acc'.1;
                            edges := Object_values acc'.2 |});
            SessionClose].
    split_and!.
    + destruct (sessionClose env _) as [[]|e|]; injection Hall as _ <-;
        simpl; by rewrite <- !app_assoc.
    + intros status g Hin.
      repeat (apply elem_of_cons in Hin as [Hin|Hin]; [try discriminate Hin|]).
      * by simplify_eq.
      * by apply not_elem_of_nil in Hin.
    + intros u' _. eexists. do 2 right. by left.
  - rewrite session_close_run. intros Hall.
    exists [SessionOpen; SessionRun MatchAllConcepts;
            ConsoleError "Error fetching all graph data from Neo4j:";
            Respond 500
              (ErrorBody "Failed to fetch all graph data from Neo4j.");
            SessionClose].
    split_and!.
    + destruct (sessionClose env _) as [[]|e'|]; injection Hall as _ <-;
        simpl; by rewrite <- !app_assoc.
    + intros status g Hin.
      repeat (apply elem_of_cons in Hin as [Hin|Hin]; [discriminate Hin|]).
      by apply not_elem_of_nil in Hin.
    + done.
  - intros [= <- <-].
    exists [SessionOpen; SessionRun MatchAllConcepts].
    split_and!.
    + simpl. by rewrite <- !app_assoc.
    + intros status g Hin.
      repeat (apply elem_of_cons in Hin as [Hin|Hin]; [discriminate Hin|]).
      by apply not_elem_of_nil in Hin.
    + done.
Qed.

Example load_scenario :
  let s := (post_generate (Some "Photosynthesis") sampleEnv initialState).2 in
  log (get_neo4j_all sampleEnv s).2
  = log s ++
      [SessionOpen; SessionRun MatchAllConcepts;
       Respond 200
         (GraphBody
            {| nodes :=
                 [loadedNode {| n_id := "1"; n_label := "Photosynthesis" |}
                    (1 # 2)%Q (1 # 2)%Q;
                  loadedNode {| n_id := "2"; n_label := "Chlorophyll" |}
                    (1 # 2)%Q (1 # 2)%Q];
               edges := [mkEdge "e1" "1" "2" "uses"] |});
       SessionClose].
Proof. vm_compute. reflexivity. Qed.

(** Two runs of the load endpoint that return a dangling edge.  In the
    first the stored relationship carries a [target] property, which the
    handler prefers to the id of the matched node.  In the second the store
    was written by the generate handler and holds a concept with the id
    [__proto__]: the assignment to that key adds no property to [nodes], so
    the concept is missing from the response while its edge is there. *)
Lemma load_dangling_edge :
  (let s := {| log := []; db := retargetedDb; randomCalls := 0 |} in
   let g :=
     {| nodes :=
          [loadedNode {| n_id := "1"; n_label := "Photosynthesis" |}
             (1 # 2)%Q (1 # 2)%Q;
           loadedNode {| n_id := "2"; n_label := "Chlorophyll" |}
             (1 # 2)%Q (1 # 2)%Q];
        edges := [mkEdge "e1" "1" "3" "uses"] |} in
   log (get_neo4j_all sampleEnv s).2
   = [SessionOpen; SessionRun MatchAllConcepts;
      Respond 200 (GraphBody g); SessionClose]
   ∧ ¬ noDanglingEdges g)
  ∧ (let s := (post_generate (Some "JavaScript") protoEnv initialState).2 in
     let g :=
       {| nodes :=
            [loadedNode {| n_id := "1"; n_label := "Object" |}
               (1 # 2)%Q (1 # 2)%Q];
          edges := [mkEdge "e1" "1" "__proto__" "inherits from"] |} in
     reachable s
     ∧ plainRelationships (db s)
     ∧ log (get_neo4j_all protoEnv s).2
       = log s ++
           [SessionOpen; SessionRun MatchAllConcepts;
            Respond 200 (GraphBody g); SessionClose]
     ∧ ¬ noDanglingEdges g).
Proof.
  assert (Hnot : forall ns (target : string) lbl,
            target ∉ nodeIds ns ->
            ¬ noDanglingEdges
                {| nodes := ns; edges := [mkEdge "e1" "1" target lbl] |}).
  { intros ns target lbl Hno Hgraph.
    destruct (Hgraph (mkEdge "e1" "1" target lbl)) as [_ Htarget];
      [by left|done]. }
  split; [|assert (Hreach :
             reachable
               (post_generate (Some "JavaScript") protoEnv initialState).2)].
  - split; [vm_compute; reflexivity|].
    apply Hnot. apply (bool_decide_unpack _). vm_compute. reflexivity.
  - eapply (reachable_request initialState protoEnv
              (PostGenerate (Some "JavaScript"))).
    + apply reachable_initial.
    + apply surjective_pairing.
  - split_and!.
    + exact Hreach.
    + by apply reachable_plainRelationships.
    + vm_compute. reflexivity.
    + apply Hnot. apply (bool_decide_unpack _). vm_compute. reflexivity.
Qed.

(** C9, as amended.  Every store written by the handlers of the server has
    relationships without [source] and [target] properties.  On a store
    with such relationships in which no concept has the id [__proto__],
    each relationship yields an edge whose source and target are the ids of
    the two matched [Concept] nodes, and every graph returned by the load
    endpoint has both end points of every edge among its nodes; when the
    database answers the query, such a graph is returned. *)
Theorem load_has_no_dangling_edge env s :
  (reachable s -> plainRelationships (db s))
  ∧ (plainRelationships (db s) ->
     concepts (db s) !! "__proto__" = None ->
     (forall node rel m,
        rel ∈ relationships (db s) ->
        Edge.source (loadedEdge node rel m) = n_id node
        ∧ Edge.target (loadedEdge node rel m) = n_id m)
     ∧ exists events,
         log (get_neo4j_all env s).2 = log s ++ events
         ∧ (forall status g,
              Respond status (GraphBody g) ∈ events -> noDanglingEdges g)
         ∧ (forall u,
              sessionRun env (log s ++ [SessionOpen]) MatchAllConcepts
                = Fulfilled u ->
              exists g, Respond 200 (GraphBody g) ∈ events)).
Proof.
  split; [apply reachable_plainRelationships|].
  intros Hplain Hproto. split.
  - intros node rel m Hrel. destruct (Hplain rel Hrel) as [Hsrc Htgt].
    simpl. by rewrite Hsrc, Htgt.
  - by apply get_neo4j_all_plain.
Qed.

Lemma load_has_no_dangling_edge_witness :
  let s := (post_generate (Some "Photosynthesis") sampleEnv initialState).2 in
  exists events,
    log (get_neo4j_all sampleEnv s).2 = log s ++ events
    ∧ (forall status g,
         Respond status (GraphBody g) ∈ events -> noDanglingEdges g)
    ∧ exists g, Respond 200 (GraphBody g) ∈ events.
Proof.
  intros s.
  destruct (load_has_no_dangling_edge sampleEnv s) as [Hwritten Hload].
  assert (Hreach : reachable s).
  { eapply (reachable_request initialState sampleEnv
              (PostGenerate (Some "Photosynthesis"))).
    - apply reachable_initial.
    - apply surjective_pairing. }
  destruct (Hload (Hwritten Hreach)) as (_ & events & Hlog & Hgraph & Hok).
  { reflexivity. }
  exists events. split; [exact Hlog|]. split; [exact Hgraph|].
  exact (Hok tt eq_refl).
Defined.

(** * Properties of the 3D view (GraphCanvas3D.tsx) *)

Import GraphCanvas3D.

Lemma createNodes_meshes (layoutedNodes : list Node.t) :
  (createNodes layoutedNodes).1 = nodeMesh <$> layoutedNodes.
Proof.
  unfold createNodes.
  assert (Hgen : forall ns acc,
            (fold_left
               (fun '(nodeMeshes, nodeGroup) node =>
                  (nodeMeshes ++ [nodeMesh node],
                   nodeGroup ++ [NodeMesh (nodeMesh node); nodeLabel node]))
               ns acc).1
            = acc.1 ++ (nodeMesh <$> ns)).
  { induction ns as [|n ns IH]; intros [meshes group]; simpl.
    - by rewrite app_nil_r.
    - rewrite IH. simpl. by rewrite <- app_assoc. }
  by rewrite Hgen.
Qed.

Lemma findMesh_Some (ns : list Node.t) (id : string) :
  is_Some (findMesh (nodeMesh <$> ns) id) <-> id ∈ nodeIds ns.
Proof.
  unfold findMesh, nodeIds.
  induction ns as [|n ns IH]; simpl.
  - rewrite elem_of_nil. split; [by intros [? ?]|done].
  - rewrite elem_of_cons. case_bool_decide as Hid; simpl in Hid.
    + split; [by left|by eexists].
    + rewrite IH. split; [by right|]. by intros [->|?].
Qed.

Lemma createEdge_line nodeMeshes scene edge :
  createEdge nodeMeshes scene edge = Some (scene ++ edgeLine nodeMeshes edge).
Proof.
  unfold createEdge, edgeLine.
  destruct (findMesh nodeMeshes (Edge.source edge)) as [a|],
           (findMesh nodeMeshes (Edge.target edge)) as [b|]; simpl;
    try done; by rewrite app_nil_r.
Qed.

Lemma createEdges_lines nodeMeshes edges :
  forall scene,
    createEdges nodeMeshes scene edges
    = Some (scene ++ (edges ≫= edgeLine nodeMeshes)).
Proof.
  induction edges as [|e edges IH]; intros scene; simpl.
  - by rewrite app_nil_r.
  - rewrite createEdge_line. simpl. rewrite IH. by rewrite <- app_assoc.
Qed.

Example render_dangling_edge :
  render keepPositions
    [mkNode "1" "a"; mkNode "2" "b"]
    [mkEdge "e1" "1" "2" "x"; mkEdge "e2" "2" "9" "y"; mkEdge "e3" "8" "1" "z"]
  = Some
      [Group [NodeMesh (nodeMesh (mkNode "1" "a")); nodeLabel (mkNode "1" "a");
              NodeMesh (nodeMesh (mkNode "2" "b")); nodeLabel (mkNode "2" "b")];
       Line [position (nodeMesh (mkNode "1" "a"));
             position (nodeMesh (mkNode "2" "b"))]].
Proof. reflexivity. Qed.

(** C10. Whatever the layout returns, building the scene never fails: the
    scene is the node group followed by the lines of the edges in order,
    where an edge contributes a line exactly when a mesh exists for its
    source and for its target (that is, when both ids are ids of layouted
    nodes) and contributes nothing otherwise. *)
Theorem render_skips_dangling_edges
    (getLayoutedElements : list Node.t -> list Edge.t -> App.Direction -> GraphData)
    (props_nodes : list Node.t) (props_edges : list Edge.t) :
  let layoutedNodes :=
    nodes (getLayoutedElements props_nodes props_edges App.LR) in
  let nodeMeshes := (createNodes layoutedNodes).1 in
  render getLayoutedElements props_nodes props_edges
    = Some (Group (createNodes layoutedNodes).2
              :: (props_edges ≫= edgeLine nodeMeshes))
  ∧ (forall id, is_Some (findMesh nodeMeshes id) <-> id ∈ nodeIds layoutedNodes)
  ∧ (forall edge,
       Edge.source edge ∈ nodeIds layoutedNodes ->
       Edge.target edge ∈ nodeIds layoutedNodes ->
       exists sourceNodeMesh targetNodeMesh,
         findMesh nodeMeshes (Edge.source edge) = Some sourceNodeMesh
         ∧ findMesh nodeMeshes (Edge.target edge) = Some targetNodeMesh
         ∧ edgeLine nodeMeshes edge
           = [Line [position sourceNodeMesh; position targetNodeMesh]])
  ∧ (forall edge,
       Edge.source edge ∉ nodeIds layoutedNodes
       ∨ Edge.target edge ∉ nodeIds layoutedNodes ->
       edgeLine nodeMeshes edge = []).
Proof.
  intros layoutedNodes nodeMeshes.
  assert (Hfind : forall id,
            is_Some (findMesh nodeMeshes id) <-> id ∈ nodeIds layoutedNodes).
  { intros id. unfold nodeMeshes. rewrite createNodes_meshes.
    apply findMesh_Some. }
  split_and!.
  - unfold render. fold layoutedNodes. subst nodeMeshes.
    destruct (createNodes layoutedNodes) as [meshes group].
    by rewrite createEdges_lines.
  - done.
  - intros edge [a Ha]%Hfind [b Hb]%Hfind. exists a, b.
    unfold edgeLine. by rewrite Ha, Hb.
  - intros edge Hmissing. unfold edgeLine.
    destruct (findMesh nodeMeshes (Edge.source edge)) as [a|] eqn:Ha; [|done].
    destruct (findMesh nodeMeshes (Edge.target edge)) as [b|] eqn:Hb; [|done].
    destruct Hmissing as [Hs|Ht]; [destruct Hs|destruct Ht];
      apply Hfind; by eexists.
Qed.

(** * Further properties of the client *)

Lemma filter_all {A} (P : A -> Prop) `{!forall a, Decision (P a)} (l : list A) :
  (forall a, a ∈ l -> P a) -> filter P l = l.
Proof.
  intros Hall. induction l as [|a l IH]; [done|].
  rewrite filter_cons_True by (apply Hall; by left).
  f_equal. apply IH. intros b Hb. apply Hall. by right.
Qed.

(** Deleting a node keeps the graph free of dangling edges: an edge that
    survives touches neither end [d], so the nodes it refers to survive. *)
Theorem delete_keeps_noDangling (s : App.State) (d : string) :
  noDanglingEdges (App.workingGraph s) ->
  noDanglingEdges (App.workingGraph (App.handleDeleteNode s d)).
Proof.
  intros Hgraph e. simpl.
  rewrite list_elem_of_filter. intros [[Hsrc Htgt] He].
  destruct (Hgraph e He) as [Hs Ht]. simpl in Hs, Ht.
  unfold nodeIds in *. split.
  - apply list_elem_of_fmap in Hs as (n & Hid & Hn).
    apply list_elem_of_fmap. exists n. split; [done|].
    apply list_elem_of_filter. split; [congruence|done].
  - apply list_elem_of_fmap in Ht as (n & Hid & Hn).
    apply list_elem_of_fmap. exists n. split; [done|].
    apply list_elem_of_filter. split; [congruence|done].
Qed.

Lemma delete_keeps_noDangling_witness :
  let s := {| App.st_nodes := [mkNode "1" "a"; mkNode "2" "b"; mkNode "3" "c"];
              App.st_edges := [mkEdge "e1" "1" "2" "x"; mkEdge "e2" "2" "3" "y";
                               mkEdge "e3" "3" "1" "z"];
              App.selectedNode := Some (mkNode "2" "b");
              App.isLoading := false; App.error := None |} in
  noDanglingEdges (App.workingGraph (App.handleDeleteNode s "2")).
Proof.
  intros s. apply (delete_keeps_noDangling s "2").
  intros e He. simpl in He.
  repeat (apply elem_of_cons in He as [->|He];
          [split; apply (bool_decide_unpack _); vm_compute; reflexivity|]).
  by apply not_elem_of_nil in He.
Defined.

(** Deletions commute, and deleting the same id twice is deleting it
    once. *)
Theorem delete_commutes (s : App.State) (a b : string) :
  App.handleDeleteNode (App.handleDeleteNode s a) b
  = App.handleDeleteNode (App.handleDeleteNode s b) a
  ∧ App.handleDeleteNode (App.handleDeleteNode s a) a
    = App.handleDeleteNode s a.
Proof.
  unfold App.handleDeleteNode; simpl. split; f_equal.
  - rewrite !list_filter_filter. apply list_filter_iff. tauto.
  - rewrite !list_filter_filter. apply list_filter_iff. tauto.
  - rewrite list_filter_filter. apply list_filter_iff. tauto.
  - rewrite list_filter_filter. apply list_filter_iff. tauto.
Qed.

(** Deleting an id carried by no node and touched by no edge leaves the
    working graph as it is; deleting the id of a node makes the node list
    strictly shorter. *)
Theorem delete_absent_or_present (s : App.State) (d : string) :
  (d ∉ nodeIds (App.st_nodes s) ->
   (forall e, e ∈ App.st_edges s -> Edge.source e ≠ d ∧ Edge.target e ≠ d) ->
   App.workingGraph (App.handleDeleteNode s d) = App.workingGraph s)
  ∧ (d ∈ nodeIds (App.st_nodes s) ->
     length (App.st_nodes (App.handleDeleteNode s d))
     < length (App.st_nodes s)).
Proof.
  split.
  - intros Hnode Hedge. unfold App.workingGraph. simpl. f_equal.
    + apply filter_all. intros n Hn Hid. apply Hnode.
      apply list_elem_of_fmap. by exists n.
    + by apply filter_all.
  - intros (n & -> & Hn)%list_elem_of_fmap. simpl.
    apply (length_filter_lt _ _ n); [done|]. by intros H.
Qed.

Lemma delete_absent_or_present_witness :
  let s := {| App.st_nodes := [mkNode "1" "a"; mkNode "2" "b"];
              App.st_edges := [mkEdge "e1" "1" "2" "x"];
              App.selectedNode := None;
              App.isLoading := false; App.error := None |} in
  App.workingGraph (App.handleDeleteNode s "7") = App.workingGraph s
  ∧ length (App.st_nodes (App.handleDeleteNode s "2")) < length (App.st_nodes s).
Proof.
  intros s. split.
  - apply (proj1 (delete_absent_or_present s "7")).
    + apply (bool_decide_unpack _). vm_compute. reflexivity.
    + intros e He. simpl in He.
      apply elem_of_cons in He as [->|He]; [by split|].
      by apply not_elem_of_nil in He.
  - apply (proj2 (delete_absent_or_present s "2")).
    apply (bool_decide_unpack _). vm_compute. reflexivity.
Defined.

(** Edge cases of the merge: a response without arrays, or with empty
    arrays, leaves the graph as it is; merging into the empty graph gives
    the fragment as received, repeated ids included. *)
Theorem merge_empty_cases (G F : GraphData) :
  App.merge G {| App.newNodes := None; App.newEdges := None |} = G
  ∧ App.merge G (App.fragment {| nodes := []; edges := [] |}) = G
  ∧ App.merge {| nodes := []; edges := [] |} (App.fragment F) = F.
Proof.
  destruct G as [ns es], F as [fn fe]. unfold App.merge; simpl. split_and!.
  - done.
  - done.
  - rewrite mergeNodes_eq, mergeEdges_eq. simpl. f_equal.
    + apply filter_all. intros n _. apply not_elem_of_nil.
    + apply filter_all. intros e _. apply not_elem_of_nil.
Qed.

Lemma merge_ids_union (G F : GraphData) :
  (forall i, i ∈ nodeIds (nodes (App.merge G (App.fragment F)))
             <-> i ∈ nodeIds (nodes G) ∨ i ∈ nodeIds (nodes F))
  ∧ (forall i, i ∈ edgeIds (edges (App.merge G (App.fragment F)))
               <-> i ∈ edgeIds (edges G) ∨ i ∈ edgeIds (edges F)).
Proof.
  unfold App.merge, App.fragment; simpl.
  rewrite mergeNodes_eq, mergeEdges_eq. unfold nodeIds, edgeIds. split.
  - intros i. rewrite fmap_app, elem_of_app. split.
    + intros [?|(n & -> & Hn)%list_elem_of_fmap]; [by left|].
      right. apply list_elem_of_fmap_2.
      by apply list_elem_of_filter in Hn as [_ ?].
    + intros [?|(n & -> & Hn)%list_elem_of_fmap]; [by left|].
      destruct (decide (Node.id n ∈ Node.id <$> nodes G)); [by left|].
      right. apply list_elem_of_fmap_2. by apply list_elem_of_filter.
  - intros i. rewrite fmap_app, elem_of_app. split.
    + intros [?|(e & -> & He)%list_elem_of_fmap]; [by left|].
      right. apply list_elem_of_fmap_2.
      by apply list_elem_of_filter in He as [_ ?].
    + intros [?|(e & -> & He)%list_elem_of_fmap]; [by left|].
      destruct (decide (Edge.id e ∈ Edge.id <$> edges G)); [by left|].
      right. apply list_elem_of_fmap_2. by apply list_elem_of_filter.
Qed.

(** After a merge the ids of the graph are those of the old graph together
    with those of the fragment: no id that the fragment mentions is
    missing. *)
Theorem merge_ids (G F : GraphData) :
  (forall i, i ∈ nodeIds (nodes (App.merge G (App.fragment F)))
             <-> i ∈ nodeIds (nodes G) ∨ i ∈ nodeIds (nodes F))
  ∧ (forall i, i ∈ edgeIds (edges (App.merge G (App.fragment F)))
               <-> i ∈ edgeIds (edges G) ∨ i ∈ edgeIds (edges F)).
Proof. apply merge_ids_union. Qed.

(** A merge keeps the graph free of dangling edges when each edge of the
    fragment refers to nodes of the old graph or of the fragment. *)
Theorem merge_keeps_noDangling (G F : GraphData) :
  noDanglingEdges G ->
  (forall e, e ∈ edges F ->
     (Edge.source e ∈ nodeIds (nodes G) ∨ Edge.source e ∈ nodeIds (nodes F))
     ∧ (Edge.target e ∈ nodeIds (nodes G) ∨ Edge.target e ∈ nodeIds (nodes F))) ->
  noDanglingEdges (App.merge G (App.fragment F)).
Proof.
  intros HG HF e He.
  destruct (merge_ids_union G F) as [Hids _]. rewrite !Hids.
  unfold App.merge, App.fragment in He; simpl in He.
  rewrite mergeEdges_eq in He.
  apply elem_of_app in He as [He|He].
  - destruct (HG e He). split; by left.
  - apply list_elem_of_filter in He as [_ He]. by apply HF.
Qed.

Lemma merge_keeps_noDangling_witness :
  noDanglingEdges
    (App.merge
       {| nodes := [mkNode "1" "Photosynthesis"]; edges := [] |}
       (App.fragment
          {| nodes := [mkNode "2" "Chlorophyll"];
             edges := [mkEdge "e1" "1" "2" "uses"] |})).
Proof.
  apply merge_keeps_noDangling.
  - intros e He. by apply not_elem_of_nil in He.
  - intros e He. simpl in He.
    apply elem_of_cons in He as [->|He]; [|by apply not_elem_of_nil in He].
    split; [left|right]; apply (bool_decide_unpack _); vm_compute; reflexivity.
Defined.

(** * Further properties of the server *)

(** ** Events appended by a computation *)

Lemma count_app f (l1 l2 : list Event) :
  count f (l1 ++ l2) = count f l1 + count f l2.
Proof. unfold count. by rewrite List.filter_app, length_app. Qed.

Lemma count_calls (l : list Event) :
  Forall (fun ev => isCall ev = true) l ->
  count isRespond l = 0 ∧ count isSessionOpen l = 0
  ∧ count isSessionClose l = 0.
Proof.
  unfold count. induction 1 as [|ev l Hev _ IH]; [done|].
  simpl. by destruct ev.
Qed.

Section EmitsOnly.

Context (f : Event -> bool) (Hf : forall ev, isCall ev = true -> f ev = true).

Lemma emitsOnly_ret {A} (a : A) : emitsOnly f (ret a).
Proof. intros env s. exists []. by rewrite app_nil_r. Qed.

Lemma emitsOnly_throw {A} e : emitsOnly f (@throw A e).
Proof. intros env s. exists []. by rewrite app_nil_r. Qed.

Lemma emitsOnly_settle {A} (r : Settled A) : emitsOnly f (settle r).
Proof. intros env s. exists []. rewrite app_nil_r. by destruct r. Qed.

Lemma emitsOnly_random : emitsOnly f random.
Proof. intros env s. exists []. by rewrite app_nil_r. Qed.

Lemma emitsOnly_emit ev : f ev = true -> emitsOnly f (emit ev).
Proof. intros Hev env s. exists [ev]. split; [done|]. by constructor. Qed.

Lemma emitsOnly_bind {A B} (m : M A) (k : A -> M B) :
  emitsOnly f m -> (forall a, emitsOnly f (k a)) -> emitsOnly f (bind m k).
Proof.
  intros Hm Hk env s. unfold bind.
  destruct (Hm env s) as (ev1 & Hlog1 & Hall1).
  destruct (m env s) as [[a|e|] s1]; simpl in *; [|by exists ev1..].
  destruct (Hk a env s1) as (ev2 & Hlog2 & Hall2).
  exists (ev1 ++ ev2). split; [by rewrite Hlog2, Hlog1, app_assoc|].
  by apply Forall_app.
Qed.

Lemma emitsOnly_try_catch {A} (body : M A) (handler : string -> M A) :
  emitsOnly f body -> (forall e, emitsOnly f (handler e)) ->
  emitsOnly f (try_catch body handler).
Proof.
  intros Hb Hh env s. unfold try_catch.
  destruct (Hb env s) as (ev1 & Hlog1 & Hall1).
  destruct (body env s) as [[a|e|] s1]; simpl in *; [by exists ev1| |by exists ev1].
  destruct (Hh e env s1) as (ev2 & Hlog2 & Hall2).
  exists (ev1 ++ ev2). split; [by rewrite Hlog2, Hlog1, app_assoc|].
  by apply Forall_app.
Qed.

Lemma emitsOnly_forEach {A} (l : list A) (k : A -> M unit) :
  (forall a, emitsOnly f (k a)) -> emitsOnly f (forEach l k).
Proof.
  intros Hk. induction l as [|a l IH]; simpl.
  - apply emitsOnly_ret.
  - apply emitsOnly_bind; [apply Hk|done].
Qed.

Lemma emitsOnly_getEmbedding text : emitsOnly f (getEmbedding text).
Proof.
  intros env s. rewrite getEmbedding_run.
  destruct (embedContent env (log s) text); simpl; eexists;
    (split; [reflexivity|]); repeat constructor; by apply Hf.
Qed.

Lemma emitsOnly_session_run q : emitsOnly f (session_run q).
Proof.
  intros env s. unfold session_run, bind. rewrite emit_run.
  exists [SessionRun q]. split; [|repeat constructor; by apply Hf].
  destruct (sessionRun env (log s) q); simpl; [|done|done].
  by destruct (execute q _).
Qed.

Lemma emitsOnly_saveLoops ns es :
  emitsOnly f
    (try_catch
       (forEach ns saveNode >> forEach es saveEdge >>
        emit (ConsoleLog "Graph data saved to Neo4j."))%js
       (fun error => emit (ConsoleError "Error saving graph to Neo4j:"))).
Proof.
  apply emitsOnly_try_catch; [|intros; by apply emitsOnly_emit, Hf].
  apply emitsOnly_bind; [|intros _; apply emitsOnly_bind].
  - apply emitsOnly_forEach. intros n. unfold saveNode.
    apply emitsOnly_bind; [apply emitsOnly_getEmbedding|intros emb].
    apply emitsOnly_bind; [apply emitsOnly_session_run|].
    intros; apply emitsOnly_ret.
  - apply emitsOnly_forEach. intros e. unfold saveEdge.
    apply emitsOnly_bind; [apply emitsOnly_session_run|].
    intros; apply emitsOnly_ret.
  - intros _. by apply emitsOnly_emit, Hf.
Qed.

Lemma emitsOnly_loadRecords rows acc : emitsOnly f (loadRecords rows acc).
Proof.
  revert acc. induction rows as [|row rows IH]; intros acc; simpl.
  - apply emitsOnly_ret.
  - apply emitsOnly_bind; [|intros; apply IH].
    destruct acc as [ns es]. unfold loadRecord.
    apply emitsOnly_bind; [apply emitsOnly_random|intros rx].
    apply emitsOnly_bind; [apply emitsOnly_random|intros ry].
    destruct (row_r row), (row_m row); apply emitsOnly_ret.
Qed.

End EmitsOnly.

(** ** generateGraph in all its cases *)

Lemma generateGraph_run env s prompt :
  generateGraph prompt env s
  = match generateContent env (log s) prompt with
    | Fulfilled text =>
        match JSON_parse env text with
        | Some graphData =>
            (Returned graphData, appendLog s [GenerateContent prompt])
        | None =>
            (Threw "Failed to generate graph from API.",
             appendLog s [GenerateContent prompt;
                          ConsoleError "Error generating graph:"])
        end
    | Rejected _ =>
        (Threw "Failed to generate graph from API.",
         appendLog s [GenerateContent prompt;
                      ConsoleError "Error generating graph:"])
    | Pending => (Stuck, appendLog s [GenerateContent prompt])
    end.
Proof.
  destruct (generateContent env (log s) prompt) as [text|e|] eqn:Hllm.
  - destruct (JSON_parse env text) as [g|] eqn:Hparse.
    + by apply (generateGraph_parsed env s prompt text).
    + by apply (generateGraph_unparseable env s prompt text).
  - unfold generateGraph, try_catch, bind, await_generateContent, bind.
    rewrite emit_run, Hllm. simpl. same_state.
  - unfold generateGraph, try_catch, bind, await_generateContent, bind.
    by rewrite emit_run, Hllm.
Qed.

(** ** The events of saveGraphToNeo4j *)

Lemma saveGraphToNeo4j_events env s ns es :
  exists inner,
    Forall (fun ev => isCall ev = true) inner
    ∧ (((saveGraphToNeo4j ns es env s).1 = Stuck
        ∧ log (saveGraphToNeo4j ns es env s).2
          = log s ++ SessionOpen :: inner)
       ∨ log (saveGraphToNeo4j ns es env s).2
         = log s ++ SessionOpen :: inner ++ [SessionClose]).
Proof.
  destruct (saveGraphToNeo4j ns es env s) as [o s2] eqn:Hrun.
  revert Hrun. unfold saveGraphToNeo4j, bind at 1. rewrite emit_run.
  unfold try_finally.
  destruct (emitsOnly_saveLoops isCall (fun ev H => H) ns es env
              (appendLog s [SessionOpen])) as (inner & Hlog & Hinner).
  destruct (try_catch _ _ env _) as [[[]|e|] s1]; simpl in Hlog.
  - rewrite session_close_run. intros Hrun. exists inner. split; [done|].
    right. destruct (sessionClose env (log s1)) as [[]|e|];
      injection Hrun as _ <-; simpl; rewrite Hlog, <- !app_assoc; done.
  - rewrite session_close_run. intros Hrun. exists inner. split; [done|].
    right. destruct (sessionClose env (log s1)) as [[]|e'|];
      injection Hrun as _ <-; simpl; rewrite Hlog, <- !app_assoc; done.
  - intros [= <- <-]. exists inner. split; [done|]. left.
    split; [done|]. simpl. by rewrite Hlog, <- app_assoc.
Qed.

Lemma calls_no_response (l : list Event) status body :
  Forall (fun ev => isCall ev = true) l -> Respond status body ∉ l.
Proof.
  intros Hall Hin. by apply (proj1 (Forall_forall _ _) Hall) in Hin.
Qed.

Lemma count_cons f ev (l : list Event) :
  count f (ev :: l) = (if f ev then 1 else 0) + count f l.
Proof. unfold count. simpl. by destruct (f ev). Qed.

Ltac tally Hcalls Hinner :=
  try destruct (count_calls _ Hcalls) as (? & ? & ?);
  try destruct (count_calls _ Hinner) as (? & ? & ?);
  repeat (rewrite count_app || rewrite count_cons);
  repeat match goal with
         | H : count _ _ = 0 |- _ => rewrite ?H; clear H
         end;
  unfold count; simpl; try lia.


Lemma Trace_sessions outcome events :
  Trace outcome events ->
  count isSessionClose events <= count isSessionOpen events
  ∧ count isSessionOpen events <= 1
  ∧ (outcome ≠ Stuck ->
     count isSessionOpen events = count isSessionClose events).
Proof.
  destruct 1 as [calls Hc|calls st b Hc _|calls inner Hc Hi|calls inner Hc Hi
                |calls inner st b Hc Hi _|o inner st b Hi _];
    split_and!; intros; try done; tally Hc Hi.
Qed.

(** Case analysis on the membership of a response in a list of events
    whose unknown parts are calls. *)
Ltac find_response :=
  repeat match goal with
         | H : _ ∈ _ ++ _ |- _ => apply elem_of_app in H as [H|H]
         | H : _ ∈ _ :: _ |- _ => apply elem_of_cons in H as [H|H]
         | H : _ ∈ [] |- _ => by apply not_elem_of_nil in H
         | H : Respond _ _ ∈ ?l, Hc : Forall _ ?l |- _ =>
             by apply calls_no_response in H
         | H : Respond _ _ = _ |- _ =>
             first [discriminate H | injection H as ? ?; subst]
         end.


Ltac all_calls := repeat constructor; done.

Ltac generation_failed prompt :=
  unfold respond; rewrite emit_run; intros [= <- <-];
  exists [ConsoleError "Error generating graph:";
          Respond 500 (ErrorBody "Failed to generate graph from API.")];
  simpl; split_and!;
  [ by rewrite <- app_assoc
  | apply (trace_answered
             [GenerateContent prompt; ConsoleError "Error generating graph:"]);
      [all_calls|set_solver]
  | done
  | intros body; split; intros Hin; find_response ].

Lemma generateAndRespond_trace prompt env s :
  exists rest,
    log (generateAndRespond prompt env s).2
      = log s ++ GenerateContent prompt :: rest
    ∧ Trace (generateAndRespond prompt env s).1
            (GenerateContent prompt :: rest)
    ∧ (forall e, (generateAndRespond prompt env s).1 ≠ Threw e)
    ∧ (forall body, (Respond 400 body ∉ rest) ∧ (Respond 404 body ∉ rest)).
Proof.
  destruct (generateAndRespond prompt env s) as [o s'] eqn:Hrun.
  simpl. revert Hrun.
  unfold generateAndRespond, try_catch, bind at 1.
  rewrite generateGraph_run.
  destruct (generateContent env (log s) prompt) as [text|e|];
    [|generation_failed prompt|].
  - destruct (JSON_parse env text) as [g|]; [|generation_failed prompt].
    unfold bind.
    destruct (saveGraphToNeo4j_events env
                (appendLog s [GenerateContent prompt]) (nodes g) (edges g))
      as (inner & Hinner & Hsave).
    destruct (saveGraphToNeo4j (nodes g) (edges g) env _) as [o2 s2].
    simpl in Hsave.
    destruct Hsave as [[-> Hlog]|Hlog].
    + intros [= <- <-].
      exists (SessionOpen :: inner). simpl. split_and!.
      * by rewrite Hlog, <- app_assoc.
      * apply (trace_in_session [GenerateContent prompt] inner);
          [all_calls|done].
      * done.
      * intros body. split; intros Hin; find_response.
    + destruct o2 as [[]|e|]; unfold respond; rewrite ?emit_run;
        intros [= <- <-]; simpl.
      * exists (SessionOpen :: inner
                  ++ [SessionClose; Respond 200 (GraphBody g)]).
        split_and!.
        -- rewrite Hlog, <- !app_assoc. simpl. by rewrite <- app_assoc.
        -- apply (trace_saved_answered [GenerateContent prompt] inner);
             [all_calls|done|set_solver].
        -- done.
        -- intros body. split; intros Hin; find_response.
      * exists (SessionOpen :: inner
                  ++ [SessionClose; Respond 500 (ErrorBody e)]).
        split_and!.
        -- rewrite Hlog, <- !app_assoc. simpl. by rewrite <- app_assoc.
        -- apply (trace_saved_answered [GenerateContent prompt] inner);
             [all_calls|done|set_solver].
        -- done.
        -- intros body. split; intros Hin; find_response.
      * exists (SessionOpen :: inner ++ [SessionClose]).
        split_and!.
        -- by rewrite Hlog, <- !app_assoc.
        -- apply (trace_closing [GenerateContent prompt] inner);
             [all_calls|done].
        -- done.
        -- intros body. split; intros Hin; find_response.
  - intros [= <- <-]. exists []. split_and!; [done| |done|].
    + apply (trace_waiting [GenerateContent prompt]). all_calls.
    + intros body. split; apply not_elem_of_nil.
Qed.

(** ** The load handler in all its cases *)

Lemma get_neo4j_all_events env s :
  db (get_neo4j_all env s).2 = db s
  ∧ match sessionRun env (log s ++ [SessionOpen]) MatchAllConcepts with
    | Fulfilled _ =>
        log (get_neo4j_all env s).2
        = log s ++
            [SessionOpen; SessionRun MatchAllConcepts;
             Respond 200
               (GraphBody
                  (loadGraph env
                     (appendLog s [SessionOpen; SessionRun MatchAllConcepts])));
             SessionClose]
    | Rejected _ =>
        log (get_neo4j_all env s).2
        = log s ++
            [SessionOpen; SessionRun MatchAllConcepts;
             ConsoleError "Error fetching all graph data from Neo4j:";
             Respond 500
               (ErrorBody "Failed to fetch all graph data from Neo4j.");
             SessionClose]
    | Pending =>
        get_neo4j_all env s
        = (Stuck, appendLog s [SessionOpen; SessionRun MatchAllConcepts])
    end.
Proof.
  destruct (get_neo4j_all env s) as [o s'] eqn:Hall. revert Hall.
  unfold get_neo4j_all, bind at 1. rewrite emit_run.
  unfold try_finally, try_catch, bind at 1.
  unfold session_run, bind at 1. rewrite emit_run.
  change (log (appendLog s [SessionOpen])) with (log s ++ [SessionOpen]).
  destruct (sessionRun env (log s ++ [SessionOpen]) MatchAllConcepts)
    as [u|e|]; simpl.
  - unfold bind at 1, loadGraph.
    change (db (appendLog s [SessionOpen; SessionRun MatchAllConcepts]))
      with (db s).
    match goal with
    | |- context [loadRecords _ _ env ?s1] =>
        destruct (loadRecords_run (matchAllConcepts (db s)) (∅, ∅) env s1)
          as (acc1 & Hrun1 & _); rewrite Hrun1
    end.
    destruct (loadRecords_run (matchAllConcepts (db s)) (∅, ∅) env
                (appendLog s [SessionOpen; SessionRun MatchAllConcepts]))
      as (acc2 & Hrun2 & _).
    rewrite Hrun2.
    assert (acc1 = acc2) as ->.
    { unfold appendLog in Hrun2. cbn [log db randomCalls] in Hrun1, Hrun2.
      rewrite <- !app_assoc in Hrun1. cbn [app] in Hrun1.
      rewrite Hrun2 in Hrun1. by injection Hrun1. }
    simpl. rewrite session_close_run. intros Hall.
    destruct (sessionClose env _) as [[]|e|]; injection Hall as _ <-;
      (split; [done|]); simpl; by rewrite <- !app_assoc.
  - rewrite session_close_run. intros Hall.
    destruct (sessionClose env _) as [[]|e'|]; injection Hall as _ <-;
      (split; [done|]); simpl; by rewrite <- !app_assoc.
  - intros [= <- <-]. split; [done|]. f_equal. same_state.
Qed.

(** ** One response, one session *)

Lemma handle_trace request env s :
  exists events,
    log (handle request env s).2 = log s ++ events
    ∧ Trace (handle request env s).1 events
    ∧ (request ≠ GetNeo4jAll -> forall e, (handle request env s).1 ≠ Threw e).
Proof.
  assert (Hinvalid : forall status message,
            status ∈ [400; 404; 500] ->
            exists events,
              log (respond status (ErrorBody message) env s).2
                = log s ++ events
              ∧ Trace (respond status (ErrorBody message) env s).1 events
              ∧ (forall e,
                   (respond status (ErrorBody message) env s).1 ≠ Threw e)).
  { intros status message Hst. exists [Respond status (ErrorBody message)].
    split_and!; [done| |done].
    by apply (trace_answered [] status (ErrorBody message)). }
  assert (Hprompt : forall prompt,
            exists events,
              log (generateAndRespond prompt env s).2 = log s ++ events
              ∧ Trace (generateAndRespond prompt env s).1 events
              ∧ (forall e, (generateAndRespond prompt env s).1 ≠ Threw e)).
  { intros prompt.
    destruct (generateAndRespond_trace prompt env s)
      as (rest & Hlog & Htrace & Hthrow & _).
    by exists (GenerateContent prompt :: rest). }
  destruct request as [topic|fullGraph selectedNodeId|]; simpl.
  - unfold post_generate. destruct (falsy topic).
    + destruct (Hinvalid 400 "Topic is required") as (ev & ? & ? & ?);
        [set_solver|]. by exists ev.
    + destruct (Hprompt (GeneratePrompt (default "" topic)))
        as (ev & ? & ? & ?). by exists ev.
  - unfold post_expand. destruct fullGraph as [g|].
    + destruct (falsy selectedNodeId).
      * destruct (Hinvalid 400 "Full graph and selected node ID are required")
          as (ev & ? & ? & ?); [set_solver|]. by exists ev.
      * destruct (List.find _ _) as [n|].
        -- destruct (Hprompt (ExpandPrompt g n)) as (ev & ? & ? & ?).
           by exists ev.
        -- destruct (Hinvalid 404 "Selected node not found in the graph")
             as (ev & ? & ? & ?); [set_solver|]. by exists ev.
    + destruct (Hinvalid 400 "Full graph and selected node ID are required")
        as (ev & ? & ? & ?); [set_solver|]. by exists ev.
  - destruct (get_neo4j_all_events env s) as [_ Hcases].
    destruct (sessionRun env (log s ++ [SessionOpen]) MatchAllConcepts)
      as [u|e|].
    + eexists. split; [exact Hcases|]. split; [|done].
      refine (trace_answered_closed (get_neo4j_all env s).1
                [SessionRun MatchAllConcepts] 200 _ _ _);
        [all_calls|set_solver].
    + eexists. split; [exact Hcases|]. split; [|done].
      refine (trace_answered_closed (get_neo4j_all env s).1
                [SessionRun MatchAllConcepts;
                 ConsoleError "Error fetching all graph data from Neo4j:"]
                500 _ _ _);
        [all_calls|set_solver].
    + rewrite Hcases. exists [SessionOpen; SessionRun MatchAllConcepts].
      split; [done|]. split; [|done].
      apply (trace_in_session [] [SessionRun MatchAllConcepts]);
        [done|all_calls].
Qed.

(** ** The handlers on arbitrary JSON bodies *)




(** Bodies that make the lookup of the expand handler throw, and one on
    which it finds the node. *)
Example lookup_examples :
  let known := Wire.JObject [("id", Wire.JString "1")] in
  Wire.lookupSelected (Wire.JObject []) (Wire.JString "1") = Wire.TypeError
  ∧ Wire.lookupSelected (Wire.JObject [("nodes", Wire.JString "1")]) (Wire.JString "1")
    = Wire.TypeError
  ∧ Wire.lookupSelected (Wire.JObject [("nodes", Wire.JArray [Wire.JNull; known])])
      (Wire.JString "1")
    = Wire.TypeError
  ∧ Wire.lookupSelected (Wire.JObject [("nodes", Wire.JArray [known; Wire.JNull])])
      (Wire.JString "1")
    = Wire.Normal (Some known)
  ∧ Wire.lookupSelected (Wire.JObject [("nodes", Wire.JArray [known])])
      (Wire.JNumber (1 # 1)%Q)
    = Wire.Normal None.
Proof. by split_and!. Qed.


Lemma find_ofNode (ns : list Node.t) (sid : string) :
  Wire.findSelected (Wire.ofNode <$> ns) (Wire.JString sid)
  = Wire.Normal
      (Wire.ofNode
         <$> List.find (fun n => bool_decide (Node.id n = sid)) ns).
Proof.
  induction ns as [|n ns IH]; [done|]. simpl.
  case_bool_decide; [done|]. exact IH.
Qed.

Lemma toGraph_ofGraph (g : GraphData) : Wire.toGraph (Wire.ofGraph g) = g.
Proof.
  destruct g as [ns es]. unfold Wire.toGraph. simpl. f_equal.
  - induction ns as [|[i [l] [px py]] ns IH]; [done|].
    rewrite !fmap_cons. by rewrite IH.
  - induction es as [|[i src tgt [l]] es IH]; [done|].
    rewrite !fmap_cons. by rewrite IH.
Qed.

Lemma toNode_ofNode (n : Node.t) : Wire.toNode (Wire.ofNode n) = n.
Proof. by destruct n as [i [l] [px py]]. Qed.

(** On the bodies that the client sends (a topic that is a string, a graph
    of the wire format with the id of the selected node), the handlers on
    JSON bodies behave as the handlers on the wire format. *)
Theorem wire_handle_typed interpolate expandPrompt (request : Request) :
  (forall text, interpolate (Wire.JString text) = text) ->
  (forall g n, expandPrompt (Wire.ofGraph g) (Wire.ofNode n) = ExpandPrompt g n) ->
  forall env s,
    Wire.handle_json interpolate expandPrompt (Wire.ofRequest request) env s
    = handle request env s.
Proof.
  intros Htext Hprompt env s.
  destruct request as [[topic|]|[g|] [sid|]|]; simpl; try done.
  - unfold post_generate, falsy. rewrite Htext.
    by case_bool_decide.
  - unfold falsy. case_bool_decide as Hsid; simpl; [done|].
    unfold Wire.lookupSelected. simpl. rewrite find_ofNode.
    destruct (List.find _ (nodes g)) as [n|]; simpl; [|done].
    by rewrite Hprompt.
Qed.

Lemma wire_handle_typed_witness :
  let request := PostExpand (Some sampleFragment) (Some "2") in
  Wire.handle_json Wire.sampleInterpolate Wire.samplePrompt
    (Wire.ofRequest request) sampleEnv initialState
  = handle request sampleEnv initialState.
Proof.
  intros request.
  apply (wire_handle_typed Wire.sampleInterpolate Wire.samplePrompt request).
  - reflexivity.
  - intros g n. unfold Wire.samplePrompt.
    by rewrite toGraph_ofGraph, toNode_ofNode.
Defined.

(** Every run of a handler opens at most one database session, and a run
    that is not left waiting on a service has closed the session it
    opened. *)
Theorem handlers_close_sessions request env s :
  exists events,
    log (handle request env s).2 = log s ++ events
    ∧ count isSessionOpen events <= 1
    ∧ count isSessionClose events <= count isSessionOpen events
    ∧ ((handle request env s).1 ≠ Stuck ->
       count isSessionOpen events = count isSessionClose events).
Proof.
  destruct (handle_trace request env s) as (events & Hlog & Htrace & _).
  exists events. split; [done|].
  destruct (Trace_sessions _ _ Htrace) as (? & ? & ?). by split_and!.
Qed.

(** A POST request that fails the checks at the head of its handler is
    answered 400 or 404 and nothing else happens: no call to the LLM or to
    the embedding model, no database session. *)
Theorem invalid_request_no_effect request env s :
  request ≠ GetNeo4jAll ->
  promptOf request = None ->
  exists status message,
    (status = 400 ∨ status = 404)
    ∧ handle request env s
      = (Returned tt, appendLog s [Respond status (ErrorBody message)]).
Proof.
  destruct request as [topic|[g|] selectedNodeId|]; simpl; try done;
    intros _.
  - unfold post_generate. destruct (falsy topic); [|done]. intros _.
    exists 400, "Topic is required". by split; [left|].
  - unfold post_expand. destruct (falsy selectedNodeId).
    + intros _. exists 400, "Full graph and selected node ID are required".
      by split; [left|].
    + destruct (List.find _ _); [done|]. intros _.
      exists 404, "Selected node not found in the graph". by split; [right|].
  - intros _. exists 400, "Full graph and selected node ID are required".
    by split; [left|].
Qed.

Lemma invalid_request_no_effect_witness :
  exists status message,
    (status = 400 ∨ status = 404)
    ∧ handle (PostGenerate None) sampleEnv initialState
      = (Returned tt,
         appendLog initialState [Respond status (ErrorBody message)]).
Proof.
  apply (invalid_request_no_effect (PostGenerate None) sampleEnv initialState).
  - discriminate.
  - reflexivity.
Defined.

(** When the generation gives no graph, because the LLM call is rejected or
    because its text is not JSON, both POST handlers answer 500 with the
    fixed message, whatever the cause was, and do not open a database
    session. *)
Theorem failed_generation_persists_nothing request prompt env s :
  promptOf request = Some prompt ->
  generationFails env (log s) prompt ->
  handle request env s
  = (Returned tt,
     appendLog s
       [GenerateContent prompt;
        ConsoleError "Error generating graph:";
        Respond 500 (ErrorBody "Failed to generate graph from API.")]).
Proof.
  intros Hprompt Hfail. rewrite (handle_promptOf _ _ Hprompt).
  unfold generateAndRespond, try_catch, bind at 1.
  rewrite generateGraph_run. unfold generationFails in Hfail.
  destruct (generateContent env (log s) prompt) as [text|e|]; [| |done].
  - rewrite Hfail. unfold respond. rewrite emit_run. f_equal. same_state.
  - unfold respond. rewrite emit_run. f_equal. same_state.
Qed.

Lemma failed_generation_persists_nothing_witness :
  handle (PostExpand (Some sampleFragment) (Some "1")) proseEnv initialState
  = (Returned tt,
     appendLog initialState
       [GenerateContent
          (ExpandPrompt sampleFragment (mkNode "1" "Photosynthesis"));
        ConsoleError "Error generating graph:";
        Respond 500 (ErrorBody "Failed to generate graph from API.")]).
Proof.
  apply (failed_generation_persists_nothing
           (PostExpand (Some sampleFragment) (Some "1"))
           (ExpandPrompt sampleFragment (mkNode "1" "Photosynthesis"))
           proseEnv initialState).
  - reflexivity.
  - reflexivity.
Defined.

(** ** A database that rejects the statements *)

Lemma session_run_rejected env s q message :
  sessionRun env (log s) q = Rejected message ->
  session_run q env s = (Threw message, appendLog s [SessionRun q]).
Proof.
  intros Hq. unfold session_run, bind. by rewrite emit_run, Hq.
Qed.

Lemma bind_returned {A B} (m : M A) (k : A -> M B) env s a s1 :
  m env s = (Returned a, s1) -> bind m k env s = k a env s1.
Proof. intros Hm. unfold bind. by rewrite Hm. Qed.

Lemma bind_threw {A B} (m : M A) (k : A -> M B) env s e s1 :
  m env s = (Threw e, s1) -> bind m k env s = (Threw e, s1).
Proof. intros Hm. unfold bind. by rewrite Hm. Qed.

Lemma saveEdge_rejected env s edge :
  dbRejects env ->
  exists message,
    saveEdge edge env s
    = (Threw message, appendLog s [SessionRun (edgeStatement edge)]).
Proof.
  intros Hdb. destruct (Hdb (log s) (edgeStatement edge)) as [message Hq].
  exists message. unfold saveEdge. apply bind_threw.
  by apply session_run_rejected.
Qed.

Lemma saveNode_rejected env s node :
  dbRejects env -> embeddingSettles env ->
  exists message,
    saveNode node env s
    = (Threw message,
       appendLog s
         ([EmbedContent (label (Node.data node))]
            ++ match embedContent env (log s) (label (Node.data node)) with
               | Rejected _ => [ConsoleError "Error generating embedding:"]
               | _ => []
               end
            ++ [SessionRun
                  (MergeConcept (Node.id node) (label (Node.data node))
                     (embeddingOr
                        (embedContent env (log s)
                           (label (Node.data node)))))])).
Proof.
  intros Hdb Hemb. unfold saveNode.
  pose proof (getEmbedding_run env s (label (Node.data node))) as Hget.
  specialize (Hemb (log s) (label (Node.data node))).
  destruct (embedContent env (log s) (label (Node.data node)))
    as [values|m|]; [| |done].
  - rewrite (bind_returned _ _ _ _ _ _ Hget).
    destruct (Hdb (log (appendLog s [EmbedContent (label (Node.data node))]))
                (MergeConcept (Node.id node) (label (Node.data node)) values))
      as [message Hq].
    exists message.
    rewrite (bind_threw _ _ _ _ _ _ (session_run_rejected _ _ _ _ Hq)).
    f_equal. same_state.
  - rewrite (bind_returned _ _ _ _ _ _ Hget).
    destruct (Hdb (log (appendLog s
                          [EmbedContent (label (Node.data node));
                           ConsoleError "Error generating embedding:"]))
                (MergeConcept (Node.id node) (label (Node.data node)) []))
      as [message Hq].
    exists message.
    rewrite (bind_threw _ _ _ _ _ _ (session_run_rejected _ _ _ _ Hq)).
    f_equal. same_state.
Qed.

Lemma ends_as_close (m : M unit) env s s1 attempted :
  m env s = session_close env s1 ->
  log s1 = log s ++ attempted -> db s1 = db s ->
  (m env s).1
  = match sessionClose env (log s ++ attempted) with
    | Fulfilled _ => Returned tt
    | Rejected e => Threw e
    | Pending => Stuck
    end
  ∧ log (m env s).2 = log s ++ attempted ++ [SessionClose]
  ∧ db (m env s).2 = db s.
Proof.
  intros -> Hlog Hdb1. rewrite session_close_run, Hlog.
  destruct (sessionClose env (log s ++ attempted)) as [[]|e|];
    cbn [fst snd log db appendLog];
    by rewrite Hlog, Hdb1, <- app_assoc.
Qed.

(** When the database rejects the statements, a save stops at the first
    one: no later upsert is attempted, the error is logged and not thrown
    again, so that the save ends as [session.close()] does, normally when
    the session closes; the store is as before. *)
Theorem rejected_statement_aborts_save env s ns es :
  dbRejects env ->
  embeddingSettles env ->
  let attempted :=
    match ns, es with
    | node :: _, _ =>
        [SessionOpen; EmbedContent (label (Node.data node))]
          ++ match embedContent env (log s ++ [SessionOpen])
                     (label (Node.data node)) with
             | Rejected _ => [ConsoleError "Error generating embedding:"]
             | _ => []
             end
          ++ [SessionRun
                (MergeConcept (Node.id node) (label (Node.data node))
                   (embeddingOr
                      (embedContent env (log s ++ [SessionOpen])
                         (label (Node.data node)))));
              ConsoleError "Error saving graph to Neo4j:"]
    | [], edge :: _ =>
        [SessionOpen; SessionRun (edgeStatement edge);
         ConsoleError "Error saving graph to Neo4j:"]
    | [], [] => [SessionOpen; ConsoleLog "Graph data saved to Neo4j."]
    end in
  (saveGraphToNeo4j ns es env s).1
  = match sessionClose env (log s ++ attempted) with
    | Fulfilled _ => Returned tt
    | Rejected e => Threw e
    | Pending => Stuck
    end
  ∧ log (saveGraphToNeo4j ns es env s).2 = log s ++ attempted ++ [SessionClose]
  ∧ db (saveGraphToNeo4j ns es env s).2 = db s.
Proof.
  intros Hdb Hemb attempted.
  destruct ns as [|n ns]; [destruct es as [|e es]|].
  - apply (ends_as_close (saveGraphToNeo4j [] []) env s
             (appendLog (appendLog s [SessionOpen])
                [ConsoleLog "Graph data saved to Neo4j."]) attempted);
      [|same_state|done].
    unfold saveGraphToNeo4j.
    rewrite (bind_returned _ _ _ _ _ _ (emit_run SessionOpen env s)).
    unfold try_finally, try_catch. simpl.
    rewrite !session_close_run. cbn [log db randomCalls appendLog].
    by destruct (sessionClose env _) as [[]|e|].
  - destruct (saveEdge_rejected env (appendLog s [SessionOpen]) e Hdb)
      as [message Hedge].
    apply (ends_as_close (saveGraphToNeo4j [] (e :: es)) env s
             (appendLog (appendLog (appendLog s [SessionOpen])
                           [SessionRun (edgeStatement e)])
                [ConsoleError "Error saving graph to Neo4j:"]) attempted);
      [|same_state|done].
    unfold saveGraphToNeo4j.
    rewrite (bind_returned _ _ _ _ _ _ (emit_run SessionOpen env s)).
    unfold try_finally, try_catch.
    change (forEach [] saveNode) with (@ret unit tt).
    rewrite (bind_returned (ret tt) _ _ _ tt (appendLog s [SessionOpen]))
      by done.
    rewrite (bind_threw (forEach (e :: es) saveEdge) _ _ _ message
               (appendLog (appendLog s [SessionOpen])
                  [SessionRun (edgeStatement e)]));
      [|simpl; by apply bind_threw].
    rewrite emit_run, !session_close_run. cbn [log db randomCalls appendLog].
    by destruct (sessionClose env _) as [[]|e'|].
  - destruct (saveNode_rejected env (appendLog s [SessionOpen]) n Hdb Hemb)
      as [message Hnode].
    change (log (appendLog s [SessionOpen])) with (log s ++ [SessionOpen])
      in Hnode.
    match type of Hnode with
    | _ = (_, ?s1) =>
        apply (ends_as_close (saveGraphToNeo4j (n :: ns) es) env s
                 (appendLog s1 [ConsoleError "Error saving graph to Neo4j:"])
                 attempted)
    end; [| |done].
    2: { subst attempted. unfold appendLog. cbn [log].
         destruct (embedContent env _ _); simpl;
           rewrite <- ?app_assoc; simpl; reflexivity. }
    unfold saveGraphToNeo4j.
    rewrite (bind_returned _ _ _ _ _ _ (emit_run SessionOpen env s)).
    unfold try_finally, try_catch.
    erewrite (bind_threw (forEach (n :: ns) saveNode));
      [|simpl; apply bind_threw; exact Hnode].
    rewrite emit_run, !session_close_run. cbn [log db randomCalls appendLog].
    by destruct (sessionClose env _) as [[]|e'|].
Qed.

Lemma rejected_statement_aborts_save_witness :
  (saveGraphToNeo4j (nodes sampleFragment) (edges sampleFragment)
     failingDbEnv initialState).1 = Returned tt
  ∧ log (saveGraphToNeo4j (nodes sampleFragment) (edges sampleFragment)
           failingDbEnv initialState).2
    = [SessionOpen; EmbedContent "Photosynthesis";
       SessionRun (MergeConcept "1" "Photosynthesis" [(1 # 2)%Q; (1 # 4)%Q]);
       ConsoleError "Error saving graph to Neo4j:"; SessionClose]
  ∧ db (saveGraphToNeo4j (nodes sampleFragment) (edges sampleFragment)
          failingDbEnv initialState).2 = emptyDb.
Proof.
  apply (rejected_statement_aborts_save failingDbEnv initialState
           (nodes sampleFragment) (edges sampleFragment)).
  - intros l q. by exists "ServiceUnavailable".
  - intros l text. discriminate.
Defined.

(** ** What the load endpoint returns *)

Lemma rowsOf_link d id c row rel m :
  row ∈ rowsOf d id c ->
  row_r row = Some rel -> row_m row = Some m ->
  rel ∈ relationships d
  ∧ rel_start rel = id ∧ n_id m = rel_end rel
  ∧ is_Some (concepts d !! rel_end rel).
Proof.
  unfold rowsOf.
  set (matched := omap _ (relationships d)).
  assert (Hmatched : forall r, r ∈ matched ->
            row_r r = Some rel -> row_m r = Some m ->
            rel ∈ relationships d
            ∧ rel_start rel = id ∧ n_id m = rel_end rel
            ∧ is_Some (concepts d !! rel_end rel)).
  { intros r (rel' & Hrel & Hr)%list_elem_of_omap.
    case_bool_decide as Hstart; [|done].
    destruct (concepts d !! rel_end rel') as [m'|] eqn:Hm; [|done].
    simpl in Hr. injection Hr as <-. simpl.
    intros [= <-] [= <-]. simpl. by split_and!. }
  destruct matched as [|r0 matched'] eqn:Heq.
  - intros ->%list_elem_of_singleton. done.
  - intros Hrow. by apply Hmatched.
Qed.

Lemma matchAllConcepts_node d row :
  row ∈ matchAllConcepts d ->
  exists c,
    concepts d !! n_id (row_n row) = Some c
    ∧ n_label (row_n row) = c_label c
    ∧ (forall rel m,
         row_r row = Some rel -> row_m row = Some m ->
         rel ∈ relationships d
         ∧ rel_start rel = n_id (row_n row) ∧ n_id m = rel_end rel).
Proof.
  unfold matchAllConcepts.
  intros ([id c] & Hrow & Hconcept)%list_elem_of_bind.
  apply elem_of_map_to_list in Hconcept.
  destruct (rowsOf_row d id c row Hrow) as [Hn _].
  exists c. rewrite Hn. simpl. split_and!; try done.
  intros rel m Hr Hm.
  destruct (rowsOf_link d id c row rel m Hrow Hr Hm) as (? & ? & ? & _).
  by split_and!.
Qed.

Lemma matchAllConcepts_relationship d rel :
  rel ∈ relationships d ->
  is_Some (concepts d !! rel_start rel) ->
  is_Some (concepts d !! rel_end rel) ->
  exists row m,
    row ∈ matchAllConcepts d ∧ row_r row = Some rel ∧ row_m row = Some m.
Proof.
  intros Hrel [c Hc] [c' Hc'].
  set (row := {| row_n := conceptNode (rel_start rel) c;
                 row_r := Some rel;
                 row_m := Some (conceptNode (rel_end rel) c') |}).
  exists row, (conceptNode (rel_end rel) c'). split_and!; try done.
  unfold matchAllConcepts. apply list_elem_of_bind.
  exists (rel_start rel, c). split; [|by apply elem_of_map_to_list].
  unfold rowsOf.
  set (matched := omap _ (relationships d)).
  assert (Hin : row ∈ matched).
  { apply list_elem_of_omap. exists rel. split; [done|].
    rewrite bool_decide_eq_true_2 by done. by rewrite Hc'. }
  destruct matched; [by apply not_elem_of_nil in Hin|done].
Qed.

Lemma loadRecords_values rows :
  forall acc env s acc' s',
    loadRecords rows acc env s = (Returned acc', s') ->
    (forall k v, acc'.1 !! k = Some v ->
       acc.1 !! k = Some v
       ∨ exists row k1 k2,
           row ∈ rows ∧ k = n_id (row_n row)
           ∧ v = loadedNode (row_n row)
                   (Math_random env k1) (Math_random env k2))
    ∧ ((forall k e, acc.2 !! k = Some e -> Edge.id e = k) ->
       forall k e, acc'.2 !! k = Some e -> Edge.id e = k)
    ∧ (forall row rel m,
         row ∈ rows -> row_r row = Some rel -> row_m row = Some m ->
         rel_id rel ≠ "__proto__" ->
         is_Some (acc'.2 !! rel_id rel))
    ∧ (forall k, is_Some (acc.2 !! k) -> is_Some (acc'.2 !! k))
    ∧ (acc.1 !! "__proto__" = None -> acc'.1 !! "__proto__" = None)
    ∧ (acc.2 !! "__proto__" = None -> acc'.2 !! "__proto__" = None).
Proof.
  induction rows as [|row rows IH]; intros acc env s acc' s' Hrun.
  - simpl in Hrun. injection Hrun as <- _. split_and!; try done.
    + intros k v Hv. by left.
    + intros row rel m Hin. by apply not_elem_of_nil in Hin.
  - simpl in Hrun. unfold bind in Hrun. rewrite loadRecord_run in Hrun.
    apply IH in Hrun as (Hnodes & Hids & Hcover & Hmono & Hpn & Hpe).
    cbn [fst snd] in *. split_and!.
    + intros k v Hv. destruct (Hnodes k v Hv) as [Hold|Hnew].
      * apply lookup_setProperty_Some in Hold as [(_ & <- & <-)|[_ Hold]];
          [|by left].
        right. eexists row, _, _. split_and!; [by left|done..].
      * destruct Hnew as (row' & k1 & k2 & Hin & -> & ->).
        right. exists row', k1, k2. split_and!; [by right|done..].
    + intros Hacc. apply Hids. intros k e.
      destruct (row_r row) as [rel|]; [destruct (row_m row) as [m|]|];
        try apply Hacc.
      rewrite lookup_setProperty_Some.
      intros [(_ & <- & <-)|[_ Hk]]; [done|].
      by apply Hacc.
    + intros row' rel m [->|Hin]%elem_of_cons Hr Hm Hid.
      * apply Hmono. rewrite Hr, Hm.
        apply lookup_setProperty_is_Some. by left.
      * by eapply Hcover.
    + intros k Hk. apply Hmono.
      destruct (row_r row) as [rel|]; [destruct (row_m row) as [m|]|];
        try done.
      apply lookup_setProperty_is_Some. by right.
    + intros Hacc. apply Hpn.
      apply eq_None_not_Some. rewrite lookup_setProperty_is_Some.
      intros [[? ?]|[? Hsome]]; [done|]. by rewrite Hacc in Hsome.
    + intros Hacc. apply Hpe.
      destruct (row_r row) as [rel|]; [destruct (row_m row) as [m|]|];
        try done.
      apply eq_None_not_Some. rewrite lookup_setProperty_is_Some.
      intros [[? ?]|[? Hsome]]; [done|]. by rewrite Hacc in Hsome.
Qed.

Lemma Object_values_keys {A} (key : A -> string) (o : gmap string A) :
  (forall k v, o !! k = Some v -> key v = k) ->
  key <$> Object_values o = (map_to_list o).*1.
Proof.
  intros Hkeys. unfold Object_values. rewrite <- list_fmap_compose.
  apply list_fmap_ext. intros i [k v] Hkv. simpl.
  apply Hkeys. apply elem_of_map_to_list.
  by apply list_elem_of_lookup_2 in Hkv.
Qed.

Lemma Object_values_NoDup {A} (key : A -> string) (o : gmap string A) :
  (forall k v, o !! k = Some v -> key v = k) ->
  NoDup (key <$> Object_values o).
Proof.
  intros Hkeys. rewrite (Object_values_keys key o Hkeys).
  apply NoDup_fst_map_to_list.
Qed.

Lemma Object_values_elem {A} (o : gmap string A) v :
  v ∈ Object_values o <-> exists k, o !! k = Some v.
Proof.
  split; [apply Object_values_lookup|].
  intros [k Hk]. unfold Object_values.
  apply list_elem_of_fmap. exists (k, v). split; [done|].
  by apply elem_of_map_to_list.
Qed.

(** The accumulators at the end of the loop of the load handler, started
    on the rows of the store. *)
Lemma loadGraph_maps env s :
  exists acc,
    loadGraph env s
    = {| nodes := Object_values acc.1; edges := Object_values acc.2 |}
    ∧ (forall k v, acc.1 !! k = Some v -> Node.id v = k)
    ∧ (forall k e, acc.2 !! k = Some e -> Edge.id e = k)
    ∧ (forall k, is_Some (acc.1 !! k)
                 <-> k ≠ "__proto__" ∧ is_Some (concepts (db s) !! k))
    ∧ acc.2 !! "__proto__" = None
    ∧ (forall k v, acc.1 !! k = Some v ->
         exists c k1 k2,
           concepts (db s) !! k = Some c
           ∧ v = loadedNode (conceptNode k c)
                   (Math_random env k1) (Math_random env k2))
    ∧ (forall k e, acc.2 !! k = Some e ->
         exists rel,
           rel ∈ relationships (db s) ∧ rel_id rel = k
           ∧ Edge.source e = orElse (prop_source rel) (rel_start rel)
           ∧ Edge.target e = orElse (prop_target rel) (rel_end rel)
           ∧ label (Edge.data e) = rel_label rel)
    ∧ (forall rel,
         rel ∈ relationships (db s) ->
         is_Some (concepts (db s) !! rel_start rel) ->
         is_Some (concepts (db s) !! rel_end rel) ->
         rel_id rel ≠ "__proto__" ->
         is_Some (acc.2 !! rel_id rel)).
Proof.
  unfold loadGraph.
  destruct (loadRecords_run (matchAllConcepts (db s)) (∅, ∅) env s)
    as (acc & Hrun & Hdom & Hids & Hedges).
  destruct (loadRecords_values _ _ _ _ _ _ Hrun)
    as (Hnodes & Heids & Hcover & _ & _ & Hproto).
  rewrite Hrun. exists acc. cbn [fst snd] in *. split_and!.
  - done.
  - apply Hids. intros k v. by rewrite lookup_empty.
  - apply Heids. intros k v. by rewrite lookup_empty.
  - intros k. rewrite Hdom. split.
    + intros [[? Hk]|[Hproto' Hk]]; [by rewrite lookup_empty in Hk|].
      split; [done|].
      apply list_elem_of_fmap in Hk as (row & -> & Hrow).
      by apply matchAllConcepts_row in Hrow as [? _].
    + intros [Hproto' Hk]. right. split; [done|].
      by apply matchAllConcepts_covers.
  - apply Hproto. apply lookup_empty.
  - intros k v Hv. destruct (Hnodes k v Hv) as [Hold|Hnew].
    { by rewrite lookup_empty in Hold. }
    destruct Hnew as (row & k1 & k2 & Hrow & -> & ->).
    destruct (matchAllConcepts_node _ _ Hrow) as (c & Hc & Hlbl & _).
    exists c, k1, k2. split; [done|].
    destruct (row_n row) as [i l]. simpl in *. by rewrite Hlbl.
  - intros k e He. destruct (Hedges k e He) as [Hold|Hnew].
    { by rewrite lookup_empty in Hold. }
    destruct Hnew as (row & rel & m & Hrow & Hr & Hm & ->).
    destruct (matchAllConcepts_node _ _ Hrow) as (c & _ & _ & Hlink).
    destruct (Hlink rel m Hr Hm) as (Hin & Hstart & Hend).
    exists rel. simpl. rewrite Hstart, <- Hend. split_and!; try done.
    apply Heids in He; [done|]. intros k' e'. by rewrite lookup_empty.
  - intros rel Hrel Hstart Hend Hid.
    destruct (matchAllConcepts_relationship _ _ Hrel Hstart Hend)
      as (row & m & Hrow & Hr & Hm).
    by eapply Hcover.
Qed.

Lemma get_neo4j_all_answered env s u :
  sessionRun env (log s ++ [SessionOpen]) MatchAllConcepts = Fulfilled u ->
  log (get_neo4j_all env s).2
  = log s ++
      [SessionOpen; SessionRun MatchAllConcepts;
       Respond 200
         (GraphBody
            (loadGraph env
               (appendLog s [SessionOpen; SessionRun MatchAllConcepts])));
       SessionClose]
  ∧ db (get_neo4j_all env s).2 = db s.
Proof.
  intros Hq. destruct (get_neo4j_all_events env s) as [Hdb Hlog].
  by rewrite Hq in Hlog.
Qed.

Lemma loadGraph_nodes env s :
  NoDup (nodeIds (nodes (loadGraph env s)))
  ∧ NoDup (edgeIds (edges (loadGraph env s)))
  ∧ (forall id lbl,
       (exists n, n ∈ nodes (loadGraph env s)
                  ∧ Node.id n = id ∧ label (Node.data n) = lbl)
       <-> id ≠ "__proto__"
           ∧ exists c, concepts (db s) !! id = Some c ∧ c_label c = lbl).
Proof.
  destruct (loadGraph_maps env s)
    as (acc & -> & Hnid & Heid & Hdom & _ & Hnodes & _).
  cbn [nodes edges]. split_and!.
  - by apply (Object_values_NoDup Node.id).
  - by apply (Object_values_NoDup Edge.id).
  - intros id lbl. split.
    + intros (n & [k Hk]%Object_values_elem & <- & <-).
      destruct (Hnodes k n Hk) as (c & k1 & k2 & Hc & ->). simpl.
      split; [|by exists c].
      apply (Hdom k). by eexists.
    + intros (Hid & c & Hc & <-).
      destruct (proj2 (Hdom id)) as [n Hn]; [split; [done|by eexists]|].
      exists n. split; [apply Object_values_elem; by exists id|].
      destruct (Hnodes id n Hn) as (c' & k1 & k2 & Hc' & ->).
      simpl in Hc'. rewrite Hc in Hc'. by injection Hc' as <-.
Qed.

(** When the database answers the query, the load endpoint returns the
    stored concepts whose id is not [__proto__], each exactly once and with
    its stored label, and edges with pairwise distinct ids; a concept with
    the id [__proto__] is not returned; the store itself is left as it
    was. *)
Theorem load_returns_the_store env s u :
  sessionRun env (log s ++ [SessionOpen]) MatchAllConcepts = Fulfilled u ->
  exists g,
    log (get_neo4j_all env s).2
    = log s ++
        [SessionOpen; SessionRun MatchAllConcepts;
         Respond 200 (GraphBody g); SessionClose]
    ∧ db (get_neo4j_all env s).2 = db s
    ∧ NoDup (nodeIds (nodes g))
    ∧ NoDup (edgeIds (edges g))
    ∧ (forall id lbl,
         (exists n, n ∈ nodes g ∧ Node.id n = id ∧ label (Node.data n) = lbl)
         <-> id ≠ "__proto__"
             ∧ exists c, concepts (db s) !! id = Some c ∧ c_label c = lbl).
Proof.
  intros Hq. destruct (get_neo4j_all_answered env s u Hq) as [Hlog Hdb].
  eexists. split; [exact Hlog|]. split; [done|].
  apply (loadGraph_nodes env
           (appendLog s [SessionOpen; SessionRun MatchAllConcepts])).
Qed.

Lemma load_returns_the_store_witness :
  let s := (post_generate (Some "JavaScript") protoEnv initialState).2 in
  exists g,
    log (get_neo4j_all protoEnv s).2
    = log s ++
        [SessionOpen; SessionRun MatchAllConcepts;
         Respond 200 (GraphBody g); SessionClose]
    ∧ NoDup (nodeIds (nodes g))
    ∧ NoDup (edgeIds (edges g))
    ∧ (forall id lbl,
         (exists n, n ∈ nodes g ∧ Node.id n = id ∧ label (Node.data n) = lbl)
         <-> id ≠ "__proto__"
             ∧ exists c, concepts (db s) !! id = Some c ∧ c_label c = lbl).
Proof.
  intros s.
  destruct (load_returns_the_store protoEnv s tt eq_refl)
    as (g & Hlog & _ & Hnodes & Hedges & Hstore).
  exists g. split; [exact Hlog|]. split; [exact Hnodes|].
  split; [exact Hedges|exact Hstore].
Defined.

(** ** Rounding to binary64 *)

Lemma Qlt_frac (q : Q) (A B : Z) :
  (0 < B)%Z ->
  (q < inject_Z A / inject_Z B)%Q
  <-> (Qnum q * B < A * Zpos (Qden q))%Z.
Proof.
  intros HB.
  assert (HBq : (0 < inject_Z B)%Q) by (unfold Qlt; simpl; lia).
  split.
  - intros H. apply (Qmult_lt_compat_r _ _ (inject_Z B)) in H; [|done].
    assert (Heq : (inject_Z A / inject_Z B * inject_Z B == inject_Z A)%Q).
    { field. intros H0. rewrite H0 in HBq. by apply Qlt_irrefl in HBq. }
    rewrite Heq in H. unfold Qlt in H. simpl in H. lia.
  - intros H. apply Qlt_shift_div_l; [done|].
    unfold Qlt. simpl. lia.
Qed.

Lemma Qle_frac (q : Q) (A B : Z) :
  (0 < B)%Z ->
  (inject_Z A / inject_Z B <= q)%Q
  <-> (A * Zpos (Qden q) <= Qnum q * B)%Z.
Proof.
  intros HB. rewrite <- Z.nlt_ge, <- (Qlt_frac q A B HB).
  split; [apply Qle_not_lt|apply Qnot_lt_le].
Qed.

Lemma pow2_frac (a b : Z) :
  (0 <= a)%Z -> (0 <= b)%Z ->
  ((2 # 1) ^ (a - b) == inject_Z (2 ^ a) / inject_Z (2 ^ b))%Q.
Proof.
  intros Ha Hb. rewrite Qpower_minus by done.
  by rewrite !Zpower_Qpower.
Qed.

Lemma binade_spec (q : Q) :
  (0 < q)%Q ->
  ((2 # 1) ^ binade q <= q)%Q ∧ (q < (2 # 1) ^ (binade q + 1))%Q.
Proof.
  intros Hq. unfold binade.
  assert (Hn : (0 < Qnum q)%Z) by (unfold Qlt in Hq; simpl in Hq; lia).
  pose proof (Z.log2_spec (Qnum q) Hn) as [Hn1 Hn2].
  pose proof (Z.log2_spec (Zpos (Qden q)) eq_refl) as [Hd1 Hd2].
  pose proof (Z.log2_nonneg (Qnum q)) as Ha.
  pose proof (Z.log2_nonneg (Zpos (Qden q))) as Hb.
  set (a := Z.log2 (Qnum q)) in *. set (b := Z.log2 (Zpos (Qden q))) in *.
  assert (Hpa : (0 < 2 ^ a)%Z) by (apply Z.pow_pos_nonneg; lia).
  assert (Hpb : (0 < 2 ^ b)%Z) by (apply Z.pow_pos_nonneg; lia).
  rewrite Z.pow_succ_r in Hn2, Hd2 by done.
  destruct (Qle_bool ((2 # 1) ^ (a - b)) q) eqn:Htest.
  - apply Qle_bool_iff in Htest. split; [done|].
    replace (a - b + 1)%Z with ((a + 1) - b)%Z by lia.
    rewrite pow2_frac by lia. apply Qlt_frac; [done|].
    rewrite Z.pow_add_r by lia. nia.
  - assert (Hlt : (q < (2 # 1) ^ (a - b))%Q).
    { apply Qnot_le_lt. intros H. apply Qle_bool_iff in H. congruence. }
    split; [|by replace (a - b - 1 + 1)%Z with (a - b)%Z by lia].
    replace (a - b - 1)%Z with (a - (b + 1))%Z by lia.
    rewrite pow2_frac by lia. apply Qle_frac; [apply Z.pow_pos_nonneg; lia|].
    rewrite Z.pow_add_r by lia. nia.
Qed.

Lemma roundHalfEven_near (t : Q) :
  (inject_Z (roundHalfEven t) <= t + (1 # 2))%Q
  ∧ (t - (1 # 2) <= inject_Z (roundHalfEven t))%Q
  ∧ (Qfloor t <= roundHalfEven t)%Z.
Proof.
  unfold roundHalfEven.
  pose proof (Qfloor_le t) as Hlo. pose proof (Qlt_floor t) as Hhi.
  set (f := Qfloor t) in *.
  rewrite inject_Z_plus in Hhi. change (inject_Z 1) with 1%Q in Hhi.
  destruct (Qcompare_spec (t - inject_Z f) (1 # 2)) as [Heq|Hlt|Hgt];
    [destruct (Z.even f)| |];
    rewrite ?inject_Z_plus; change (inject_Z 1) with 1%Q;
    split_and!; try lia; lra.
Qed.

Lemma round64_near (q : Q) :
  (0 < q)%Q ->
  (round64 q <= q + ulp q * (1 # 2))%Q ∧ (0 <= round64 q)%Q.
Proof.
  intros Hq. unfold round64.
  assert (Hu : (0 < ulp q)%Q) by (apply Qpower_0_lt; lra).
  destruct (Qeq_bool q (0 # 1)) eqn:Hzero.
  { apply Qeq_bool_iff in Hzero. lra. }
  destruct (roundHalfEven_near (q / ulp q)) as (Hup & _ & Hfloor).
  split.
  - apply (Qmult_le_compat_r _ _ (ulp q)) in Hup; [|lra].
    assert (Heq : ((q / ulp q + (1 # 2)) * ulp q == q + ulp q * (1 # 2))%Q).
    { field. lra. }
    by rewrite Heq in Hup.
  - apply Qmult_le_0_compat; [|lra].
    assert (H0 : (0 <= Qfloor (q / ulp q))%Z).
    { change 0%Z with (Qfloor 0). apply Qfloor_resp_le.
      apply Qle_shift_div_l; lra. }
    change 0%Q with (inject_Z 0). rewrite <- Zle_Qle. lia.
Qed.

Lemma binade_lt (q : Q) (e : Z) :
  (0 < q)%Q -> (q < (2 # 1) ^ e)%Q -> (binade q < e)%Z.
Proof.
  intros Hq Hlt. destruct (binade_spec q Hq) as [Hlo _].
  apply (Qpower_lt_compat_l_inv (2 # 1)); [|lra].
  by apply Qle_lt_trans with q.
Qed.

(** Scaling a number of the unit interval to the width of the view. *)
Lemma scaled_in_range (r : Q) :
  (0 <= r)%Q -> (r <= 1 - (2 # 1) ^ (-53))%Q ->
  (0 <= round64 (r * (500 # 1)))%Q ∧ (round64 (r * (500 # 1)) < 500 # 1)%Q.
Proof.
  intros Hr0 Hr1.
  destruct (Qeq_bool (r * (500 # 1)) (0 # 1)) eqn:Hzero.
  { unfold round64. rewrite Hzero. lra. }
  assert (Hy : (0 < r * (500 # 1))%Q).
  { apply Qeq_bool_neq in Hzero. lra. }
  set (y := (r * (500 # 1))%Q) in *.
  destruct (round64_near y Hy) as [Hup Hlo]. split; [done|].
  assert (Habs : Qabs y = y).
  { destruct y as [[|n|n] d]; try done. }
  assert (He : (binade y < 9)%Z).
  { apply binade_lt; [done|].
    change ((2 # 1) ^ 9)%Q with (512 # 1)%Q.
    change ((2 # 1) ^ (-53))%Q with (1 # 9007199254740992)%Q in Hr1.
    unfold y. lra. }
  assert (Hu : (ulp y <= (2 # 1) ^ (-44))%Q).
  { unfold ulp. rewrite Habs. apply Qpower_le_compat_l; [lia|lra]. }
  change ((2 # 1) ^ (-44))%Q with (1 # 17592186044416)%Q in Hu.
  change ((2 # 1) ^ (-53))%Q with (1 # 9007199254740992)%Q in Hr1.
  unfold y in *. lra.
Qed.

(** A binary64 number below 1 is at most [1 - 2^-53]. *)
Lemma binary64_below_one (r : Q) :
  (0 <= r)%Q -> (r < 1)%Q -> (round64 r == r)%Q ->
  (r <= 1 - (2 # 1) ^ (-53))%Q.
Proof.
  intros Hr0 Hr1. unfold round64.
  change ((2 # 1) ^ (-53))%Q with (1 # 9007199254740992)%Q.
  destruct (Qeq_bool r (0 # 1)) eqn:Hzero; [intros <-; lra|].
  assert (Hr : (0 < r)%Q).
  { apply Qeq_bool_neq in Hzero. lra. }
  assert (Habs : Qabs r = r).
  { destruct r as [[|n|n] d]; try done. }
  unfold ulp. rewrite Habs.
  destruct (binade_spec r Hr) as [Hlo Hhi].
  assert (He : (binade r < 0)%Z) by (apply binade_lt; [done|]; by simpl).
  destruct (Z.eq_dec (binade r) (-1)%Z) as [Heq|Hne].
  - rewrite Heq.
    replace (Z.max (-1) (-1022) - 52)%Z with (-53)%Z by lia.
    change ((2 # 1) ^ (-53))%Q with (1 # 9007199254740992)%Q.
    set (m := roundHalfEven (r / (1 # 9007199254740992))).
    intros Hm. rewrite <- Hm in Hr1 |- *.
    assert (Hmz : (m < 9007199254740992)%Z).
    { apply Z.nle_gt. intros Hge. rewrite Zle_Qle in Hge.
      change (inject_Z 9007199254740992) with (9007199254740992 # 1)%Q in Hge.
      lra. }
    assert (Hmq : (inject_Z m <= inject_Z (9007199254740992 - 1))%Q).
    { rewrite <- Zle_Qle. lia. }
    change (inject_Z (9007199254740992 - 1)) with (9007199254740991 # 1)%Q in Hmq.
    lra.
  - intros _.
    assert (Hhalf : ((2 # 1) ^ (binade r + 1) <= (2 # 1) ^ (-1))%Q).
    { apply Qpower_le_compat_l; [lia|lra]. }
    change ((2 # 1) ^ (-1))%Q with (1 # 2)%Q in Hhalf. lra.
Qed.

Example round64_examples :
  (round64 ((1 # 2) * (500 # 1)) == 250 # 1)%Q
  ∧ (round64 ((1 - (2 # 1) ^ (-53)) * (500 # 1))
     == (500 # 1) - (2 # 1) ^ (-44))%Q
  ∧ (round64 ((1 # 10) * (500 # 1)) == 50 # 1)%Q
  ∧ (round64 (1 # 3) == 6004799503160661 # 18014398509481984)%Q.
Proof. split_and!; vm_compute; reflexivity. Qed.

(** With [Math.random()] a binary64 number of the unit interval, every node
    returned by the load endpoint is placed in the square from 0, included,
    to 500, excluded: the rounded product stays below 500. *)
Theorem loaded_positions_in_range env s u :
  randomInUnitInterval env ->
  sessionRun env (log s ++ [SessionOpen]) MatchAllConcepts = Fulfilled u ->
  exists g,
    log (get_neo4j_all env s).2
    = log s ++
        [SessionOpen; SessionRun MatchAllConcepts;
         Respond 200 (GraphBody g); SessionClose]
    ∧ (forall n, n ∈ nodes g ->
         (0 <= x (Node.position n))%Q ∧ (x (Node.position n) < 500 # 1)%Q
         ∧ (0 <= y (Node.position n))%Q ∧ (y (Node.position n) < 500 # 1)%Q).
Proof.
  intros Hrandom Hq. destruct (get_neo4j_all_answered env s u Hq) as [Hlog _].
  eexists. split; [exact Hlog|].
  destruct (loadGraph_maps env
              (appendLog s [SessionOpen; SessionRun MatchAllConcepts]))
    as (acc & -> & _ & _ & _ & _ & Hnodes & _).
  cbn [nodes]. intros n [k Hk]%Object_values_elem.
  destruct (Hnodes k n Hk) as (c & k1 & k2 & _ & ->).
  cbn [Node.position loadedNode x y].
  assert (Hscale : forall j,
            (0 <= round64 (Math_random env j * (500 # 1)))%Q
            ∧ (round64 (Math_random env j * (500 # 1)) < 500 # 1)%Q).
  { intros j. destruct (Hrandom j) as (H0 & H1 & Hdouble).
    apply scaled_in_range; [done|]. by apply binary64_below_one. }
  destruct (Hscale k1), (Hscale k2). by split_and!.
Qed.

Lemma loaded_positions_in_range_witness :
  let s :=
    (post_generate (Some "Photosynthesis") largestRandomEnv initialState).2 in
  exists g,
    log (get_neo4j_all largestRandomEnv s).2
    = log s ++
        [SessionOpen; SessionRun MatchAllConcepts;
         Respond 200 (GraphBody g); SessionClose]
    ∧ (forall n, n ∈ nodes g ->
         (0 <= x (Node.position n))%Q ∧ (x (Node.position n) < 500 # 1)%Q
         ∧ (0 <= y (Node.position n))%Q ∧ (y (Node.position n) < 500 # 1)%Q).
Proof.
  intros s. apply (loaded_positions_in_range largestRandomEnv s tt).
  - intros k. split_and!; [discriminate|reflexivity|vm_compute; reflexivity].
  - reflexivity.
Defined.

(** ** Relationships of a store written by the server *)

Lemma execute_endsStored q d : endsStored d -> endsStored (execute q d).1.
Proof.
  intros Hd. destruct q as [id lbl emb|src tgt eid lbl|]; simpl; try done.
  - intros r Hr. destruct (Hd r Hr) as [Hs He]. simpl.
    rewrite !lookup_insert_is_Some'. by split; right.
  - unfold mergeRelatesTo.
    destruct (concepts d !! src) eqn:Hsrc; [|done].
    destruct (concepts d !! tgt) eqn:Htgt; [|done].
    case_bool_decide; [done|].
    intros r [Hr|Hr%list_elem_of_singleton]%elem_of_app; [by apply Hd|].
    subst r. simpl. rewrite Hsrc, Htgt. by split; eexists.
Qed.

Lemma reachable_endsStored s : reachable s -> endsStored (db s).
Proof.
  induction 1 as [|s env request outcome s' _ IH Hrun].
  - intros r Hr. by apply not_elem_of_nil in Hr.
  - pose proof (preserves_handle endsStored request
                  execute_endsStored env s IH) as Hs.
    by rewrite Hrun in Hs.
Qed.

Lemma edge_eq (e : Edge.t) (r : Relationship) :
  Edge.id e = rel_id r -> Edge.source e = rel_start r ->
  Edge.target e = rel_end r -> label (Edge.data e) = rel_label r ->
  e = relationshipEdge r.
Proof.
  destruct e as [i src tgt [lbl]]. simpl. by intros -> -> -> ->.
Qed.

(** On a server whose database was written by its own save path, the load
    endpoint returns the stored relationships whose id is not [__proto__]:
    every edge of the response is a stored relationship, with its id, its
    two ends and its label, and the id of every stored relationship, that
    one id apart, is the id of an edge of the response. *)
Theorem loaded_edges_are_relationships env s u :
  reachable s ->
  sessionRun env (log s ++ [SessionOpen]) MatchAllConcepts = Fulfilled u ->
  exists g,
    log (get_neo4j_all env s).2
    = log s ++
        [SessionOpen; SessionRun MatchAllConcepts;
         Respond 200 (GraphBody g); SessionClose]
    ∧ (forall e, e ∈ edges g ->
         Edge.id e ≠ "__proto__"
         ∧ exists rel, rel ∈ relationships (db s) ∧ e = relationshipEdge rel)
    ∧ (forall rel, rel ∈ relationships (db s) ->
         rel_id rel ≠ "__proto__" ->
         rel_id rel ∈ edgeIds (edges g)).
Proof.
  intros Hreach Hq.
  pose proof (reachable_plainRelationships s Hreach) as Hplain.
  pose proof (reachable_endsStored s Hreach) as Hends.
  destruct (get_neo4j_all_answered env s u Hq) as [Hlog _].
  eexists. split; [exact Hlog|].
  destruct (loadGraph_maps env
              (appendLog s [SessionOpen; SessionRun MatchAllConcepts]))
    as (acc & -> & _ & Heid & _ & Hproto & _ & Hedges & Hcover).
  cbn [nodes edges]. simpl in Hedges, Hcover. split.
  - intros e [k Hk]%Object_values_elem.
    destruct (Hedges k e Hk) as (rel & Hrel & Hid & Hsrc & Htgt & Hlbl).
    destruct (Hplain rel Hrel) as [Hps Hpt].
    rewrite Hps, orElse_None in Hsrc. rewrite Hpt, orElse_None in Htgt.
    split.
    + rewrite (Heid k e Hk). intros ->. by rewrite Hproto in Hk.
    + exists rel. split; [done|]. apply edge_eq; try done.
      rewrite Hid. by apply Heid.
  - intros rel Hrel Hid. destruct (Hends rel Hrel) as [Hs He].
    destruct (Hcover rel Hrel Hs He Hid) as [e Hedge].
    unfold edgeIds. apply list_elem_of_fmap. exists e.
    split; [by rewrite (Heid _ _ Hedge)|].
    apply Object_values_elem. by eexists.
Qed.

Lemma loaded_edges_are_relationships_witness :
  let s := (post_generate (Some "Photosynthesis") sampleEnv initialState).2 in
  exists g,
    log (get_neo4j_all sampleEnv s).2
    = log s ++
        [SessionOpen; SessionRun MatchAllConcepts;
         Respond 200 (GraphBody g); SessionClose]
    ∧ (forall rel, rel ∈ relationships (db s) ->
         rel_id rel ≠ "__proto__" ->
         rel_id rel ∈ edgeIds (edges g)).
Proof.
  intros s.
  assert (Hreach : reachable s).
  { eapply (reachable_request initialState sampleEnv
              (PostGenerate (Some "Photosynthesis"))).
    - apply reachable_initial.
    - apply surjective_pairing. }
  destruct (loaded_edges_are_relationships sampleEnv s tt Hreach eq_refl)
    as (g & Hlog & _ & Hrels).
  exists g. split; [exact Hlog|exact Hrels].
Defined.

(** ** Saving a graph and loading it back *)

Lemma NoDup_fmap_eq {A} (key : A -> string) (l : list A) (a b : A) :
  NoDup (key <$> l) -> a ∈ l -> b ∈ l -> key a = key b -> a = b.
Proof.
  induction l as [|c l IH]; [by intros _ ?%not_elem_of_nil|].
  rewrite fmap_cons, NoDup_cons. intros [Hc Hl].
  intros [->|Ha]%elem_of_cons [->|Hb]%elem_of_cons Hkey; [done| | |by apply IH].
  - destruct Hc. rewrite Hkey. by apply list_elem_of_fmap_2.
  - destruct Hc. rewrite <- Hkey. by apply list_elem_of_fmap_2.
Qed.

Lemma upsertNodes_relationships upserts d :
  relationships (upsertNodes upserts d) = relationships d.
Proof.
  induction upserts as [|[n emb] upserts IH] using rev_ind; [done|].
  by rewrite upsertNodes_snoc.
Qed.

Lemma upsertNodes_lookup upserts d k c :
  concepts (upsertNodes upserts d) !! k = Some c ->
  concepts d !! k = Some c
  ∨ exists node embedding,
      (node, embedding) ∈ upserts ∧ Node.id node = k
      ∧ c_label c = label (Node.data node).
Proof.
  induction upserts as [|[n emb] upserts IH] using rev_ind; [by left|].
  rewrite upsertNodes_snoc. simpl.
  rewrite lookup_insert_Some. intros [[<- <-]|[_ Hk]].
  - right. exists n, emb. split_and!; try done.
    apply elem_of_app. right. by apply list_elem_of_singleton.
  - destruct (IH Hk) as [?|(node & e & Hin & ? & ?)]; [by left|].
    right. exists node, e. split_and!; try done. apply elem_of_app. by left.
Qed.

Lemma upsertEdges_snoc es edge d :
  upsertEdges (es ++ [edge]) d
  = (execute (edgeStatement edge) (upsertEdges es d)).1.
Proof. unfold upsertEdges. by rewrite fold_left_app. Qed.

Lemma upsertEdges_relationships es d rel :
  rel ∈ relationships (upsertEdges es d) ->
  rel ∈ relationships d ∨ exists e, e ∈ es ∧ rel = edgeRelationship e.
Proof.
  induction es as [|e es IH] using rev_ind; [by left|].
  rewrite upsertEdges_snoc. simpl. unfold mergeRelatesTo.
  intros Hrel.
  assert (Hold : rel ∈ relationships (upsertEdges es d) ->
                 rel ∈ relationships d
                 ∨ exists e0, e0 ∈ es ++ [e] ∧ rel = edgeRelationship e0).
  { intros [?|(e0 & ? & ?)]%IH; [by left|].
    right. exists e0. split; [|done]. apply elem_of_app. by left. }
  destruct (concepts _ !! Edge.source e); [|by apply Hold].
  destruct (concepts _ !! Edge.target e); [|by apply Hold].
  case_bool_decide; [by apply Hold|].
  simpl in Hrel.
  apply elem_of_app in Hrel as [?|Hnew%list_elem_of_singleton];
    [by apply Hold|].
  subst rel. right. exists e. split; [|done].
  apply elem_of_app. right. by apply list_elem_of_singleton.
Qed.

Lemma upsertEdges_keeps es d rel :
  rel ∈ relationships d -> rel ∈ relationships (upsertEdges es d).
Proof.
  intros Hrel. induction es as [|e es IH] using rev_ind; [done|].
  rewrite upsertEdges_snoc. simpl. unfold mergeRelatesTo.
  repeat case_match; try done. simpl. apply elem_of_app. by left.
Qed.

Lemma upsertEdges_stored es d e :
  e ∈ es ->
  is_Some (concepts d !! Edge.source e) ->
  is_Some (concepts d !! Edge.target e) ->
  exists rel,
    rel ∈ relationships (upsertEdges es d)
    ∧ sameRelationship (Edge.source e) (Edge.target e) (Edge.id e)
        (label (Edge.data e)) rel.
Proof.
  intros Hin [cs Hs] [ct Ht].
  induction es as [|e0 es IH] using rev_ind; [by apply not_elem_of_nil in Hin|].
  apply elem_of_app in Hin as [Hin|Hin%list_elem_of_singleton];
    [|subst e0].
  - destruct (IH Hin) as (rel & Hrel & Hsame). exists rel. split; [|done].
    rewrite upsertEdges_snoc. simpl. unfold mergeRelatesTo.
    repeat case_match; try done. simpl. apply elem_of_app. by left.
  - rewrite upsertEdges_snoc. simpl. unfold mergeRelatesTo.
    rewrite !upsertEdges_concepts, Hs, Ht.
    case_bool_decide as Hex.
    + by apply Exists_exists in Hex.
    + exists (edgeRelationship e). split; [|done]. simpl.
      apply elem_of_app. right. by apply list_elem_of_singleton.
Qed.

Lemma relationshipEdge_edgeRelationship e :
  relationshipEdge (edgeRelationship e) = e.
Proof. by destruct e as [i src tgt [lbl]]. Qed.

(** The edges of [loadGraph] on a store whose relationships are plain and
    have their ends stored. *)
Lemma loadGraph_edges env s :
  plainRelationships (db s) -> endsStored (db s) ->
  (forall e, e ∈ edges (loadGraph env s) ->
     Edge.id e ≠ "__proto__"
     ∧ exists rel, rel ∈ relationships (db s) ∧ e = relationshipEdge rel)
  ∧ (forall rel, rel ∈ relationships (db s) ->
       rel_id rel ≠ "__proto__" ->
       exists e, e ∈ edges (loadGraph env s) ∧ Edge.id e = rel_id rel).
Proof.
  intros Hplain Hends.
  destruct (loadGraph_maps env s)
    as (acc & -> & _ & Heid & _ & Hproto & _ & Hedges & Hcover).
  cbn [nodes edges]. split.
  - intros e [k Hk]%Object_values_elem.
    destruct (Hedges k e Hk) as (rel & Hrel & Hid & Hsrc & Htgt & Hlbl).
    destruct (Hplain rel Hrel) as [Hps Hpt].
    rewrite Hps, orElse_None in Hsrc. rewrite Hpt, orElse_None in Htgt.
    split.
    + rewrite (Heid k e Hk). intros ->. by rewrite Hproto in Hk.
    + exists rel. split; [done|]. apply edge_eq; try done.
      rewrite Hid. by apply Heid.
  - intros rel Hrel Hid. destruct (Hends rel Hrel) as [Hs He].
    destruct (Hcover rel Hrel Hs He Hid) as [e Hedge].
    exists e. split; [|by apply Heid].
    apply Object_values_elem. by eexists.
Qed.

(** Round trip through the database.  A graph whose node ids and edge ids
    are pairwise distinct and whose edges have their ends among its nodes
    is saved into an empty store that accepts the statements; a load that
    the database answers then returns exactly the saved edges whose id is
    not [__proto__], and nodes with exactly the saved ids and labels, the
    id [__proto__] apart (positions are drawn anew).  A saved node or edge
    with the id [__proto__] is stored but not returned. *)
Theorem save_then_load env env' s ns es u :
  embeddingSettles env -> dbAccepts env -> sessionCloses env ->
  db s = emptyDb ->
  NoDup (nodeIds ns) -> NoDup (edgeIds es) ->
  noDanglingEdges {| nodes := ns; edges := es |} ->
  sessionRun env'
    (log (saveGraphToNeo4j ns es env s).2 ++ [SessionOpen]) MatchAllConcepts
    = Fulfilled u ->
  exists g,
    log (get_neo4j_all env' (saveGraphToNeo4j ns es env s).2).2
    = log (saveGraphToNeo4j ns es env s).2 ++
        [SessionOpen; SessionRun MatchAllConcepts;
         Respond 200 (GraphBody g); SessionClose]
    ∧ (forall e, e ∈ edges g <-> e ∈ es ∧ Edge.id e ≠ "__proto__")
    ∧ (forall id lbl,
         (exists n, n ∈ nodes g ∧ Node.id n = id ∧ label (Node.data n) = lbl)
         <-> id ≠ "__proto__"
             ∧ exists n, n ∈ ns ∧ Node.id n = id ∧ label (Node.data n) = lbl).
Proof.
  intros Hemb Hdb Hclose Hempty Hnids Heids Hgraph Hq.
  destruct (saveGraphToNeo4j_accepted env s ns es Hemb Hdb Hclose)
    as (upserts & events & Hfst & Hrun & _).
  assert (Hplain : plainRelationships (db (saveGraphToNeo4j ns es env s).2)).
  { apply (preserves_saveGraphToNeo4j plainRelationships ns es
             (fun q d => execute_plainRelationships q d)).
    rewrite Hempty. intros r Hr. by apply not_elem_of_nil in Hr. }
  assert (Hends : endsStored (db (saveGraphToNeo4j ns es env s).2)).
  { apply (preserves_saveGraphToNeo4j endsStored ns es
             (fun q d => execute_endsStored q d)).
    rewrite Hempty. intros r Hr. by apply not_elem_of_nil in Hr. }
  destruct (get_neo4j_all_answered env' _ u Hq) as [Hlog _].
  set (s1 := (saveGraphToNeo4j ns es env s).2) in *.
  set (g := loadGraph env'
              (appendLog s1 [SessionOpen; SessionRun MatchAllConcepts])) in *.
  destruct (loadGraph_nodes env'
              (appendLog s1 [SessionOpen; SessionRun MatchAllConcepts]))
    as (_ & _ & Hnodes).
  fold g in Hnodes. simpl in Hnodes.
  exists g. split; [done|].
  assert (Hdb1 : db s1 = upsertEdges es (upsertNodes upserts emptyDb)).
  { subst s1. by rewrite Hrun, <- Hempty. }
  assert (Hpair : forall n, n ∈ ns -> exists emb, (n, emb) ∈ upserts).
  { intros n Hn. rewrite <- Hfst in Hn.
    apply list_elem_of_fmap in Hn as ([n' emb] & -> & Hn). by exists emb. }
  assert (Hfirst : forall n emb, (n, emb) ∈ upserts -> n ∈ ns).
  { intros n emb Hn. rewrite <- Hfst.
    apply list_elem_of_fmap. by exists (n, emb). }
  assert (Hrels : forall rel, rel ∈ relationships (db s1) ->
                    exists e, e ∈ es ∧ rel = edgeRelationship e).
  { intros rel. rewrite Hdb1. intros [Hold|?]%upsertEdges_relationships;
      [|done].
    rewrite upsertNodes_relationships in Hold.
    by apply not_elem_of_nil in Hold. }
  assert (Hstored : forall n, n ∈ ns ->
                      is_Some (concepts (upsertNodes upserts emptyDb)
                               !! Node.id n)).
  { intros n Hn. destruct (Hpair n Hn) as [emb Hin].
    by eapply upsertNodes_present. }
  destruct (loadGraph_edges env'
              (appendLog s1 [SessionOpen; SessionRun MatchAllConcepts])
              Hplain Hends) as [Hfrom Hto].
  fold g in Hfrom, Hto. simpl in Hfrom, Hto.
  split.
  - intros e. split.
    + intros He. destruct (Hfrom e He) as (Hid & rel & Hrel & ->).
      destruct (Hrels rel Hrel) as (e0 & He0 & ->).
      split; [|done]. by rewrite relationshipEdge_edgeRelationship.
    + intros [He Hproto].
      destruct (Hgraph e He) as [Hs Ht]. simpl in Hs, Ht.
      apply list_elem_of_fmap in Hs as (ns0 & Hsid & Hns0).
      apply list_elem_of_fmap in Ht as (nt0 & Htid & Hnt0).
      assert (Hin : edgeRelationship e ∈ relationships (db s1)).
      { rewrite Hdb1.
        destruct (upsertEdges_stored es (upsertNodes upserts emptyDb) e He)
          as (rel' & Hrel' & Hsame).
        { rewrite Hsid. by apply Hstored. }
        { rewrite Htid. by apply Hstored. }
        rewrite <- Hdb1 in Hrel'.
        destruct (Hrels rel' Hrel') as (e1 & He1 & ->).
        destruct Hsame as (_ & _ & Hid & _). simpl in Hid.
        rewrite <- Hdb1.
        by rewrite <- (NoDup_fmap_eq Edge.id es e1 e Heids He1 He Hid). }
      destruct (Hto _ Hin Hproto) as (e' & He' & Hid').
      destruct (Hfrom e' He') as (_ & rel' & Hrel' & ->).
      destruct (Hrels rel' Hrel') as (e1 & He1 & ->).
      rewrite relationshipEdge_edgeRelationship in He', Hid'.
      simpl in Hid'.
      by rewrite <- (NoDup_fmap_eq Edge.id es e1 e Heids He1 He Hid').
  - intros id lbl. rewrite Hnodes, Hdb1, upsertEdges_concepts.
    apply and_iff_compat_l. split.
    + intros (c & Hc & <-).
      apply upsertNodes_lookup in Hc as [Hc|(n & emb & Hin & <- & Hlbl)].
      { simpl in Hc. by rewrite lookup_empty in Hc. }
      exists n. split_and!; [by eapply Hfirst|done|done].
    + intros (n & Hn & <- & <-).
      destruct (Hstored n Hn) as [c Hc]. exists c. split; [done|].
      apply upsertNodes_lookup in Hc as [Hc|(n' & emb & Hin & Hid & Hlbl)].
      { simpl in Hc. by rewrite lookup_empty in Hc. }
      rewrite Hlbl.
      by rewrite (NoDup_fmap_eq Node.id ns n' n Hnids (Hfirst _ _ Hin) Hn Hid).
Qed.

Lemma save_then_load_witness :
  let s := (saveGraphToNeo4j (nodes protoFragment) (edges protoFragment)
              sampleEnv initialState).2 in
  exists g,
    log (get_neo4j_all sampleEnv s).2
    = log s ++
        [SessionOpen; SessionRun MatchAllConcepts;
         Respond 200 (GraphBody g); SessionClose]
    ∧ (forall e, e ∈ edges g
                 <-> e ∈ edges protoFragment ∧ Edge.id e ≠ "__proto__")
    ∧ (forall id lbl,
         (exists n, n ∈ nodes g ∧ Node.id n = id ∧ label (Node.data n) = lbl)
         <-> id ≠ "__proto__"
             ∧ exists n, n ∈ nodes protoFragment
                         ∧ Node.id n = id ∧ label (Node.data n) = lbl).
Proof.
  intros s.
  apply (save_then_load sampleEnv sampleEnv initialState
           (nodes protoFragment) (edges protoFragment) tt).
  - intros l text. discriminate.
  - intros l q. reflexivity.
  - intros l. reflexivity.
  - reflexivity.
  - apply (bool_decide_unpack _). vm_compute. reflexivity.
  - apply (bool_decide_unpack _). vm_compute. reflexivity.
  - intros e He. simpl in He.
    apply elem_of_cons in He as [->|He]; [|by apply not_elem_of_nil in He].
    split; apply (bool_decide_unpack _); vm_compute; reflexivity.
  - reflexivity.
Defined.

(** ** Semantic search *)

Lemma getEmbedding_settled env s text :
  embedContent env (log s) text ≠ Pending ->
  getEmbedding text env s
  = (Returned (embeddingOr (embedContent env (log s) text)),
     (getEmbedding text env s).2).
Proof.
  intros Hemb. rewrite getEmbedding_run.
  by destruct (embedContent env (log s) text).
Qed.

Lemma getEmbedding_calls env s text :
  db (getEmbedding text env s).2 = db s
  ∧ exists calls,
      Forall (fun ev => isCall ev = true) calls
      ∧ log (getEmbedding text env s).2 = log s ++ calls.
Proof.
  rewrite getEmbedding_run.
  destruct (embedContent env (log s) text); (split; [done|]);
    eexists; (split; [|reflexivity]); all_calls.
Qed.

Lemma searchBody_run (queryNodes : Search.VectorIndex) query env s :
  embedContent env (log s) query ≠ Pending ->
  Search.searchBody queryNodes query env s
  = match
      queryNodes (log (getEmbedding query env s).2) 10
        (embeddingOr (embedContent env (log s) query))
    with
    | Fulfilled records =>
        (Returned (Search.Json records), (getEmbedding query env s).2)
    | Rejected _ =>
        (Returned
           (Search.Error 500
              "Failed to perform semantic search in Neo4j. Ensure vector index is created."),
         appendLog (getEmbedding query env s).2
           [ConsoleError "Error performing semantic search in Neo4j:"])
    | Pending => (Stuck, (getEmbedding query env s).2)
    end.
Proof.
  intros Hemb. unfold Search.searchBody, try_catch.
  rewrite (bind_returned _ _ _ _ _ _ (getEmbedding_settled env s query Hemb)).
  unfold bind.
  by destruct (queryNodes _ 10 _).
Qed.

(** A request without a query is answered 400 before anything else is done.
    A request with a query is answered as soon as the embedding service and
    the index settle: with the records of the index in their order (the
    index is asked for 10 records and is given the embedding of the query,
    or the empty vector when the embedding call was rejected), or with
    status 500 and a fixed message when the index rejects the query.  In
    both cases the session is closed and the store is untouched. *)
Theorem search_answers (queryNodes : Search.VectorIndex) (query : string) env s :
  Search.post_neo4j_search queryNodes None env s
    = (Returned tt, s, Some (Search.Error 400 "Search query is required"))
  ∧ Search.post_neo4j_search queryNodes (Some "") env s
    = (Returned tt, s, Some (Search.Error 400 "Search query is required"))
  ∧ (query ≠ "" ->
     embedContent env (log s ++ [SessionOpen]) query ≠ Pending ->
     let s1 := (getEmbedding query env (appendLog s [SessionOpen])).2 in
     let answer :=
       queryNodes (log s1) 10
         (embeddingOr (embedContent env (log s ++ [SessionOpen]) query)) in
     answer ≠ Pending ->
     (Search.post_neo4j_search queryNodes (Some query) env s).2
       = Some
           match answer with
           | Fulfilled records => Search.Json records
           | _ =>
               Search.Error 500
                 "Failed to perform semantic search in Neo4j. Ensure vector index is created."
           end
     ∧ db (Search.post_neo4j_search queryNodes (Some query) env s).1.2 = db s
     ∧ exists calls,
         Forall (fun ev => isCall ev = true) calls
         ∧ log (Search.post_neo4j_search queryNodes (Some query) env s).1.2
           = log s ++ SessionOpen :: calls ++ [SessionClose]).
Proof.
  split; [done|]. split; [done|].
  intros Hquery Hemb s1 answer Hanswer.
  unfold Search.post_neo4j_search, falsy.
  rewrite bool_decide_eq_false_2 by done.
  change (default "" (Some query)) with query.
  rewrite (bind_returned _ _ _ _ _ _ (emit_run SessionOpen env s)).
  rewrite searchBody_run by done.
  change (log (appendLog s [SessionOpen])) with (log s ++ [SessionOpen]).
  fold s1. fold answer.
  destruct (getEmbedding_calls env (appendLog s [SessionOpen]) query)
    as (Hdb & calls & Hcalls & Hlog).
  fold s1 in Hdb, Hlog. simpl in Hdb, Hlog.
  destruct answer as [records|m|]; [| |done]; rewrite session_close_run.
  - split_and!.
    + by destruct (sessionClose env (log s1)) as [[]|?|].
    + by destruct (sessionClose env (log s1)) as [[]|?|].
    + exists calls. split; [done|].
      destruct (sessionClose env (log s1)) as [[]|?|]; simpl;
        rewrite Hlog, <- !app_assoc; done.
  - split_and!.
    + by destruct (sessionClose env _) as [[]|?|].
    + by destruct (sessionClose env _) as [[]|?|].
    + exists (calls ++ [ConsoleError "Error performing semantic search in Neo4j:"]).
      split; [apply Forall_app; split; [done|all_calls]|].
      destruct (sessionClose env _) as [[]|?|]; simpl;
        rewrite Hlog, <- !app_assoc; done.
Qed.

Lemma search_answers_witness :
  (Search.post_neo4j_search Search.sampleIndex (Some "light")
     sampleEnv initialState).2
  = Some
      (Search.Json
         [{| Search.id := "2"; Search.label := "Chlorophyll";
             Search.score := (9 # 10)%Q |};
          {| Search.id := "1"; Search.label := "Photosynthesis";
             Search.score := (7 # 10)%Q |}]).
Proof.
  destruct (search_answers Search.sampleIndex "light" sampleEnv initialState)
    as (_ & _ & Hsearch).
  destruct Hsearch as (Hanswer & _); [discriminate..|].
  exact Hanswer.
Defined.

Example search_with_failed_embedding :
  (Search.post_neo4j_search Search.sampleIndex (Some "Chlorophyll")
     noEmbeddingEnv initialState)
  = (Returned tt,
     appendLog initialState
       [SessionOpen; EmbedContent "Chlorophyll";
        ConsoleError "Error generating embedding:";
        ConsoleError "Error performing semantic search in Neo4j:";
        SessionClose],
     Some
       (Search.Error 500
          "Failed to perform semantic search in Neo4j. Ensure vector index is created.")).
Proof. reflexivity. Qed.

(** * The client and the server together *)

Lemma find_match (sid : string) (ns : list Node.t) :
  sid ∈ nodeIds ns ->
  exists n,
    List.find (fun n => bool_decide (Node.id n = sid)) ns = Some n
    ∧ n ∈ ns ∧ Node.id n = sid.
Proof.
  unfold nodeIds. induction ns as [|n ns IH]; [by intros ?%not_elem_of_nil|].
  rewrite fmap_cons. simpl. intros Hin.
  case_bool_decide as Hid.
  - exists n. split_and!; [done|by left|done].
  - apply elem_of_cons in Hin as [Hin|Hin]; [done|].
    destruct (IH Hin) as (m & Hfind & Hm & Hmid).
    exists m. split_and!; [done|by right|done].
Qed.

(** An expand request for a non-empty id carried by a node of the supplied
    graph passes the checks: the LLM is called with the graph and the first
    node carrying that id (the result of [find]), and the response is
    neither 400 nor 404. *)
Theorem expand_known_node_calls_llm
    env s (fullGraph : GraphData) (selectedNodeId : string) :
  selectedNodeId ≠ "" ->
  selectedNodeId ∈ nodeIds (nodes fullGraph) ->
  exists selectedNode rest,
    List.find (fun n => bool_decide (Node.id n = selectedNodeId))
              (nodes fullGraph)
    = Some selectedNode
    ∧ selectedNode ∈ nodes fullGraph
    ∧ Node.id selectedNode = selectedNodeId
    ∧ log (post_expand (Some fullGraph) (Some selectedNodeId) env s).2
      = log s ++ GenerateContent (ExpandPrompt fullGraph selectedNode) :: rest
    ∧ (forall body, (Respond 400 body ∉ rest) ∧ (Respond 404 body ∉ rest)).
Proof.
  intros Hid Hin.
  destruct (find_match _ _ Hin) as (n & Hfind & Hn & Hnid).
  destruct (generateAndRespond_trace (ExpandPrompt fullGraph n) env s)
    as (rest & Hlog & _ & _ & Hno).
  exists n, rest. split_and!; try done.
  rewrite <- Hlog. f_equal.
  change (post_expand (Some fullGraph) (Some selectedNodeId))
    with (handle (PostExpand (Some fullGraph) (Some selectedNodeId))).
  rewrite (handle_promptOf _ (ExpandPrompt fullGraph n)); [done|].
  simpl. unfold falsy. rewrite bool_decide_eq_false_2 by done.
  simpl. by rewrite Hfind.
Qed.

Lemma expand_known_node_calls_llm_witness :
  let fullGraph :=
    {| nodes := [mkNode "1" "Photosynthesis"; mkNode "2" "Chlorophyll";
                 mkNode "2" "Light"];
       edges := [mkEdge "e1" "1" "2" "uses"] |} in
  exists selectedNode rest,
    List.find (fun n => bool_decide (Node.id n = "2")) (nodes fullGraph)
    = Some selectedNode
    ∧ selectedNode ∈ nodes fullGraph
    ∧ Node.id selectedNode = "2"
    ∧ log (post_expand (Some fullGraph) (Some "2") sampleEnv initialState).2
      = log initialState
          ++ GenerateContent (ExpandPrompt fullGraph selectedNode) :: rest
    ∧ (forall body, (Respond 400 body ∉ rest) ∧ (Respond 404 body ∉ rest)).
Proof.
  intros fullGraph.
  apply (expand_known_node_calls_llm sampleEnv initialState fullGraph "2").
  - discriminate.
  - apply (bool_decide_unpack _). vm_compute. reflexivity.
Defined.

(** A topic that [TopicInput] submits is never empty, so the generate
    handler does not answer 400: it calls the LLM with that topic.  Nothing
    is submitted exactly when the trimmed input is empty. *)
Theorem submitted_topic_is_accepted (trim : string -> string) (topic : string) :
  (TopicInput.handleSubmit trim topic = None <-> trim topic = "")
  ∧ (forall t, TopicInput.handleSubmit trim topic = Some t ->
       t = trim topic ∧ t ≠ ""
       ∧ forall env s,
           exists rest,
             log (post_generate (Some t) env s).2
             = log s ++ GenerateContent (GeneratePrompt t) :: rest
             ∧ (forall body, Respond 400 body ∉ rest)).
Proof.
  unfold TopicInput.handleSubmit. split.
  - by case_bool_decide.
  - intros t. case_bool_decide as Hempty; [done|]. intros [= <-].
    split_and!; try done. intros env s.
    destruct (generateAndRespond_trace (GeneratePrompt (trim topic)) env s)
      as (rest & Hlog & _ & _ & Hno).
    exists rest. split; [|intros body; by apply Hno].
    rewrite <- Hlog. f_equal.
    change (post_generate (Some (trim topic)))
      with (handle (PostGenerate (Some (trim topic)))).
    rewrite (handle_promptOf _ (GeneratePrompt (trim topic))); [done|].
    simpl. unfold falsy. by rewrite bool_decide_eq_false_2.
Qed.

Lemma submitted_topic_is_accepted_witness :
  TopicInput.handleSubmit TopicInput.trimSpaces "  Photosynthesis "
    = Some "Photosynthesis"
  ∧ TopicInput.handleSubmit TopicInput.trimSpaces "   " = None
  ∧ exists rest,
      log (post_generate (Some "Photosynthesis") sampleEnv initialState).2
      = log initialState
          ++ GenerateContent (GeneratePrompt "Photosynthesis") :: rest
      ∧ (forall body, Respond 400 body ∉ rest).
Proof.
  split; [reflexivity|]. split; [reflexivity|].
  destruct (submitted_topic_is_accepted TopicInput.trimSpaces
              "  Photosynthesis ") as [_ Hsome].
  destruct (Hsome "Photosynthesis") as (_ & _ & Hrun); [reflexivity|].
  apply Hrun.
Defined.

(** * The state of the App component across user actions *)

Section Selection.

Context (getLayoutedElements :
           list Node.t -> list Edge.t -> App.Direction -> GraphData).

Lemma step_keeps_selection s s' :
  AppHandlers.keepsIds getLayoutedElements ->
  AppHandlers.step getLayoutedElements s s' ->
  (forall n, App.selectedNode s = Some n ->
             Node.id n ∈ nodeIds (App.st_nodes s)) ->
  forall n, App.selectedNode s' = Some n ->
            Node.id n ∈ nodeIds (App.st_nodes s').
Proof.
  intros Hlayout Hstep Hsel.
  destruct Hstep as [s [data|]|s node [data|] Hnode|s node Hnode
                    |s node Hnode|s ns es]; simpl; try done.
  - intros n Hn. rewrite Hlayout. unfold App.merge; simpl.
    rewrite mergeNodes_eq. unfold nodeIds.
    rewrite fmap_app, elem_of_app. left. by apply Hsel.
  - by intros n [= <-].
Qed.

(** Along any sequence of runs of the five handlers of [App], starting
    from the initial state, the selected node, if there is one, carries the
    id of a node of the working graph, provided the layout returns the nodes
    it was given: the handlers that replace or shrink the graph clear the
    selection, and an expansion keeps every node it started from.  The
    node changes that React Flow applies by itself are not among the
    steps. *)
Theorem selection_in_graph s :
  AppHandlers.keepsIds getLayoutedElements ->
  AppHandlers.reachable getLayoutedElements s ->
  forall n, App.selectedNode s = Some n ->
            Node.id n ∈ nodeIds (App.st_nodes s).
Proof.
  intros Hlayout. induction 1 as [|s s' _ IH Hstep]; [done|].
  by apply (step_keeps_selection s s').
Qed.

End Selection.

Lemma selection_in_graph_witness :
  let loaded :=
    AppHandlers.handleLoadGraphFromNeo4j GraphCanvas3D.keepPositions
      AppHandlers.initial (nodes sampleFragment) (edges sampleFragment) in
  let clicked := AppHandlers.handleNodeClick loaded (mkNode "2" "Chlorophyll") in
  let expanded :=
    App.handleExpandNode GraphCanvas3D.keepPositions clicked
      (App.AxiosOk
         (App.fragment
            {| nodes := [mkNode "3" "Light"];
               edges := [mkEdge "e2" "2" "3" "absorbs"] |})) in
  App.selectedNode expanded = Some (mkNode "2" "Chlorophyll")
  ∧ Node.id (mkNode "2" "Chlorophyll") ∈ nodeIds (App.st_nodes expanded).
Proof.
  intros loaded clicked expanded. split; [reflexivity|].
  apply (selection_in_graph GraphCanvas3D.keepPositions expanded).
  - by intros ns es direction.
  - apply (AppHandlers.reachable_step _ clicked).
    + apply (AppHandlers.reachable_step _ loaded).
      * apply (AppHandlers.reachable_step _ AppHandlers.initial).
        -- apply AppHandlers.reachable_initial.
        -- apply AppHandlers.step_load.
      * apply AppHandlers.step_click.
        apply (bool_decide_unpack _). vm_compute. reflexivity.
    + by apply (AppHandlers.step_expand _ clicked (mkNode "2" "Chlorophyll")).
  - reflexivity.
Defined.

(** * The 3D view: edges drawn and clicks *)

Lemma render_scene
    (getLayoutedElements :
       list Node.t -> list Edge.t -> App.Direction -> GraphData)
    (props_nodes : list Node.t) (props_edges : list Edge.t) :
  let layoutedNodes :=
    nodes (getLayoutedElements props_nodes props_edges App.LR) in
  GraphCanvas3D.render getLayoutedElements props_nodes props_edges
  = Some (GraphCanvas3D.Group (GraphCanvas3D.createNodes layoutedNodes).2
            :: (props_edges
                  ≫= GraphCanvas3D.edgeLine (GraphCanvas3D.nodeMesh <$> layoutedNodes))).
Proof.
  intros layoutedNodes. unfold GraphCanvas3D.render. fold layoutedNodes.
  rewrite <- createNodes_meshes.
  destruct (GraphCanvas3D.createNodes layoutedNodes) as [meshes group].
  by rewrite createEdges_lines.
Qed.

Lemma findMesh_node (ns : list Node.t) (id : string) :
  id ∈ nodeIds ns ->
  exists n,
    n ∈ ns ∧ Node.id n = id
    ∧ GraphCanvas3D.findMesh (GraphCanvas3D.nodeMesh <$> ns) id
      = Some (GraphCanvas3D.nodeMesh n).
Proof.
  unfold GraphCanvas3D.findMesh, nodeIds.
  induction ns as [|n ns IH]; [by intros ?%not_elem_of_nil|].
  rewrite !fmap_cons. simpl. intros Hin.
  case_bool_decide as Hid.
  - exists n. split_and!; [by left|done|done].
  - apply elem_of_cons in Hin as [Hin|Hin]; [done|].
    destruct (IH Hin) as (m & Hm & Hmid & Hfind).
    exists m. split_and!; [by right|done|done].
Qed.

Lemma createNodes_group (layoutedNodes : list Node.t) :
  (GraphCanvas3D.createNodes layoutedNodes).2
  = layoutedNodes
      ≫= (fun node =>
            [GraphCanvas3D.NodeMesh (GraphCanvas3D.nodeMesh node);
             GraphCanvas3D.nodeLabel node]).
Proof.
  unfold GraphCanvas3D.createNodes.
  induction layoutedNodes as [|n ns IH] using rev_ind; [done|].
  rewrite fold_left_app, bind_app. simpl.
  destruct (fold_left _ ns ([], [])) as [meshes group]. simpl in *.
  by rewrite IH.
Qed.

Lemma length_bind_pairs {A B} (f g : A -> B) (l : list A) :
  length (l ≫= (fun a => [f a; g a])) = 2 * length l.
Proof.
  induction l as [|a l IH]; [done|].
  rewrite bind_cons, length_app, IH. simpl. lia.
Qed.

(** When the layout returns the nodes it was given and no edge of the graph
    dangles, the 3D scene holds a group made of the sphere and the label of
    each layouted node in turn (two objects for each node of the graph),
    followed by exactly one line per edge, in the order of the edges, each
    from the sphere of a node carrying the source id to the sphere of a
    node carrying the target id. *)
Theorem render_draws_every_edge
    (getLayoutedElements :
       list Node.t -> list Edge.t -> App.Direction -> GraphData)
    (props_nodes : list Node.t) (props_edges : list Edge.t) :
  AppHandlers.keepsIds getLayoutedElements ->
  noDanglingEdges {| nodes := props_nodes; edges := props_edges |} ->
  let layoutedNodes :=
    nodes (getLayoutedElements props_nodes props_edges App.LR) in
  exists nodeGroup lines,
    GraphCanvas3D.render getLayoutedElements props_nodes props_edges
    = Some (GraphCanvas3D.Group nodeGroup :: lines)
    ∧ nodeGroup
      = layoutedNodes
          ≫= (fun node =>
                [GraphCanvas3D.NodeMesh (GraphCanvas3D.nodeMesh node);
                 GraphCanvas3D.nodeLabel node])
    ∧ length nodeGroup = 2 * length props_nodes
    ∧ Forall2
        (fun edge line =>
           exists sourceNode targetNode,
             sourceNode ∈ layoutedNodes ∧ targetNode ∈ layoutedNodes
             ∧ Node.id sourceNode = Edge.source edge
             ∧ Node.id targetNode = Edge.target edge
             ∧ line
               = GraphCanvas3D.Line
                   [GraphCanvas3D.position (GraphCanvas3D.nodeMesh sourceNode);
                    GraphCanvas3D.position (GraphCanvas3D.nodeMesh targetNode)])
        props_edges lines.
Proof.
  intros Hlayout Hdangling layoutedNodes.
  eexists _, _. split_and!.
  - apply render_scene.
  - apply createNodes_group.
  - rewrite createNodes_group, length_bind_pairs. fold layoutedNodes.
    assert (Hlen : length (nodeIds layoutedNodes) = length (nodeIds props_nodes))
      by (unfold layoutedNodes; by rewrite Hlayout).
    unfold nodeIds in Hlen. rewrite !length_fmap in Hlen. lia.
  - fold layoutedNodes.
    assert (Hall : forall e, e ∈ props_edges ->
              Edge.source e ∈ nodeIds layoutedNodes
              ∧ Edge.target e ∈ nodeIds layoutedNodes).
    { intros e He. unfold layoutedNodes. rewrite Hlayout.
      by apply (Hdangling e). }
    clear Hdangling. clearbody layoutedNodes.
    induction props_edges as [|e es IH].
    + constructor.
    + destruct (Hall e) as [Hs Ht]; [by left|].
      destruct (findMesh_node _ _ Hs) as (a & Ha & Haid & Hfa).
      destruct (findMesh_node _ _ Ht) as (b & Hb & Hbid & Hfb).
      change ((e :: es) ≫= ?f) with (f e ++ (es ≫= f)).
      unfold GraphCanvas3D.edgeLine at 1. rewrite Hfa, Hfb. simpl.
      constructor.
      * by exists a, b.
      * apply IH. intros e' He'. apply Hall. by right.
Qed.

Lemma render_draws_every_edge_witness :
  exists nodeGroup lines,
    GraphCanvas3D.render GraphCanvas3D.keepPositions
      (nodes sampleFragment) (edges sampleFragment)
    = Some (GraphCanvas3D.Group nodeGroup :: lines)
    ∧ nodeGroup
      = nodes sampleFragment
          ≫= (fun node =>
                [GraphCanvas3D.NodeMesh (GraphCanvas3D.nodeMesh node);
                 GraphCanvas3D.nodeLabel node])
    ∧ length nodeGroup = 2 * length (nodes sampleFragment)
    ∧ Forall2
        (fun edge line =>
           exists sourceNode targetNode,
             sourceNode ∈ nodes sampleFragment
             ∧ targetNode ∈ nodes sampleFragment
             ∧ Node.id sourceNode = Edge.source edge
             ∧ Node.id targetNode = Edge.target edge
             ∧ line
               = GraphCanvas3D.Line
                   [GraphCanvas3D.position (GraphCanvas3D.nodeMesh sourceNode);
                    GraphCanvas3D.position (GraphCanvas3D.nodeMesh targetNode)])
        (edges sampleFragment) lines.
Proof.
  apply (render_draws_every_edge GraphCanvas3D.keepPositions
           (nodes sampleFragment) (edges sampleFragment)).
  - by intros ns es direction.
  - intros e He. simpl in He.
    apply list_elem_of_singleton in He. subst e.
    split; apply (bool_decide_unpack _); vm_compute; reflexivity.
Defined.

Lemma nodeDataMap_snoc (ns : list Node.t) (n : Node.t) :
  Canvas3DClick.nodeDataMap (ns ++ [n])
  = <[Node.id n := n]> (Canvas3DClick.nodeDataMap ns).
Proof. unfold Canvas3DClick.nodeDataMap. by rewrite fold_left_app. Qed.

Lemma nodeDataMap_lookup (ns : list Node.t) (id : string) :
  id ∈ nodeIds ns ->
  exists node,
    Canvas3DClick.nodeDataMap ns !! id = Some node
    ∧ node ∈ ns ∧ Node.id node = id.
Proof.
  unfold nodeIds.
  induction ns as [|n ns IH] using rev_ind; [by intros ?%not_elem_of_nil|].
  rewrite fmap_app, elem_of_app, nodeDataMap_snoc. simpl. intros Hin.
  destruct (decide (Node.id n = id)) as [Hid|Hid].
  - exists n. rewrite <- Hid, lookup_insert_eq.
    split_and!; [done| |done]. apply elem_of_app. right. by left.
  - destruct Hin as [Hin|Hin%list_elem_of_singleton]; [|done].
    destruct (IH Hin) as (m & Hm & Hmin & Hmid).
    exists m. rewrite lookup_insert_ne by done.
    split_and!; [done| |done]. apply elem_of_app. by left.
Qed.

Lemma NoDup_ids_eq (ns : list Node.t) (a b : Node.t) :
  NoDup (nodeIds ns) -> a ∈ ns -> b ∈ ns -> Node.id a = Node.id b -> a = b.
Proof.
  unfold nodeIds. intros Hnodup Ha Hb Hid.
  apply list_elem_of_lookup in Ha as [i Hi].
  apply list_elem_of_lookup in Hb as [j Hj].
  assert (i = j) as ->; [|congruence].
  apply (NoDup_lookup _ i j (Node.id a) Hnodup).
  - by rewrite list_lookup_fmap, Hi.
  - by rewrite list_lookup_fmap, Hj, Hid.
Qed.

(** A click that hits a sphere of the 3D view reports a node of the
    layouted graph carrying the id of that sphere, whatever else the ray
    crosses behind it; when ids are not repeated it is the node the sphere
    was made for, and when the layout returns the nodes it was given its id
    is an id of the displayed graph. *)
Theorem click_reports_clicked_node
    (getLayoutedElements :
       list Node.t -> list Edge.t -> App.Direction -> GraphData)
    (props_nodes : list Node.t) (props_edges : list Edge.t)
    (clickedMesh : GraphCanvas3D.Mesh) (behind : list GraphCanvas3D.Mesh) :
  let layoutedNodes :=
    nodes (getLayoutedElements props_nodes props_edges App.LR) in
  clickedMesh ∈ (GraphCanvas3D.createNodes layoutedNodes).1 ->
  exists node,
    Canvas3DClick.onCanvasClick layoutedNodes (clickedMesh :: behind)
    = Some node
    ∧ node ∈ layoutedNodes
    ∧ Node.id node = GraphCanvas3D.nodeId clickedMesh
    ∧ (NoDup (nodeIds layoutedNodes) ->
       GraphCanvas3D.nodeMesh node = clickedMesh)
    ∧ (AppHandlers.keepsIds getLayoutedElements ->
       Node.id node ∈ nodeIds props_nodes).
Proof.
  intros layoutedNodes. rewrite createNodes_meshes.
  intros (n & -> & Hn)%list_elem_of_fmap.
  destruct (nodeDataMap_lookup layoutedNodes (Node.id n))
    as (node & Hlookup & Hnode & Hid).
  { by apply list_elem_of_fmap_2. }
  exists node. simpl. split_and!; try done.
  - intros Hnodup. f_equal. by apply (NoDup_ids_eq layoutedNodes).
  - intros Hlayout. rewrite <- (Hlayout props_nodes props_edges App.LR).
    by apply list_elem_of_fmap_2.
Qed.

Lemma click_reports_clicked_node_witness :
  exists node,
    Canvas3DClick.onCanvasClick (nodes sampleFragment)
      [GraphCanvas3D.nodeMesh (mkNode "2" "Chlorophyll")]
    = Some node
    ∧ node ∈ nodes sampleFragment
    ∧ Node.id node = "2"
    ∧ (NoDup (nodeIds (nodes sampleFragment)) ->
       GraphCanvas3D.nodeMesh node
       = GraphCanvas3D.nodeMesh (mkNode "2" "Chlorophyll"))
    ∧ (AppHandlers.keepsIds GraphCanvas3D.keepPositions ->
       Node.id node ∈ nodeIds (nodes sampleFragment)).
Proof.
  apply (click_reports_clicked_node GraphCanvas3D.keepPositions
           (nodes sampleFragment) (edges sampleFragment)
           (GraphCanvas3D.nodeMesh (mkNode "2" "Chlorophyll")) []).
  rewrite createNodes_meshes. simpl. right. left.
Defined.
